(** * The daily trend-report pipeline of [DailyReportClient]

    A shallow embedding of [src/daily copy.ts], class [DailyReportClient],
    and the properties of its
    collection, analytics, publication and orchestration code.

    - Strings are [string]s of code units; [String.length] is the [.length]
      of the source.
    - Like and retweet counts are natural numbers ([N]); timestamps and
      [Date.now()] readings are integers ([Z]).
    - Asynchronous code is a program tree ([Prog]) whose nodes are the calls
      to the external collaborators; [exec] runs a tree against an oracle
      that answers these calls and records them in a trace. *)

From Stdlib Require Import String Ascii List Bool Arith ZArith NArith Lia.
From Stdlib Require Import Permutation.
Import ListNotations.

Local Open Scope string_scope.
Local Open Scope list_scope.
Local Open Scope nat_scope.

(** ** Data model *)

(** [Tweet] of agent-twitter-client, restricted to the properties this file's
    code reads.  The declaration is not part of the sources; the fields are
    the ones the code accesses ([id], [text], [timestamp], [likes],
    [retweets], [hashtags], [isRetweet], ...). *)
Record Tweet := mkTweet {
  id : string;
  username : string;
  text : string;
  timestamp : Z;
  likes : N;
  retweets : N;
  hashtags : list string;
  isRetweet : bool;
  conversationId : string;
  permanentUrl : string
}.

Definition Tweet_eq_dec (a b : Tweet) : {a = b} + {a <> b}.
Proof.
  decide equality;
    try apply string_dec; try apply Z.eq_dec; try apply N.eq_dec;
    try apply Bool.bool_dec; try apply (list_eq_dec string_dec).
Defined.

(** ** Analytics stage *)

(** *** findMostEngagedTweet *)

(** The initial accumulator of the reduce, [{ likes: 0, retweets: 0 } as
    Tweet].  The properties the literal leaves out are undefined in the
    source; here they hold the empty value of their type. *)
Definition sentinel : Tweet :=
  {| id := ""; username := ""; text := ""; timestamp := 0;
     likes := 0; retweets := 0; hashtags := []; isRetweet := false;
     conversationId := ""; permanentUrl := "" |}.

Definition engagement (t : Tweet) : N := (likes t + retweets t)%N.

(** [tweets.reduce((prev, current) =>
       (prev.likes + prev.retweets) > (current.likes + current.retweets)
         ? prev : current, sentinel)] *)
Definition findMostEngagedTweet (tweets : list Tweet) : Tweet :=
  fold_left
    (fun prev current =>
       if (likes current + retweets current <? likes prev + retweets prev)%N
       then prev else current)
    tweets sentinel.

(** The largest engagement of a list, and the first post that reaches a
    given engagement: the words of the specification for ties. *)
Definition max_engagement (tweets : list Tweet) : N :=
  fold_right N.max 0%N (map engagement tweets).

Definition first_with_engagement (m : N) (tweets : list Tweet) : option Tweet :=
  find (fun t => (engagement t =? m)%N) tweets.

(** *** analyzeSentiment *)

Definition lower_ascii (c : ascii) : ascii :=
  let n := nat_of_ascii c in
  if (65 <=? n) && (n <=? 90) then ascii_of_nat (n + 32) else c.

(** [String.prototype.toLowerCase] on code units below 128. *)
Fixpoint toLowerCase (s : string) : string :=
  match s with
  | EmptyString => EmptyString
  | String c r => String (lower_ascii c) (toLowerCase r)
  end.

(** [s.includes(w)]: [w] occurs in [s] as a contiguous substring. *)
Fixpoint includes (w s : string) : bool :=
  prefix w s ||
  match s with
  | EmptyString => false
  | String _ r => includes w r
  end.

(** [/(w1|w2|...)/.test(s)]: an alternation of literal words matches when
    one of the words occurs in [s].  The regular expressions carry no flag,
    so [test] keeps no state between calls. *)
Definition regex_test (alternatives : list string) (s : string) : bool :=
  existsb (fun w => includes w s) alternatives.

Definition positive_lexicon : list string := ["great"; "awesome"; "amazing"].
Definition negative_lexicon : list string := ["bad"; "terrible"; "disappointing"].

Record Sentiment := mkSentiment {
  positive : nat;
  neutral : nat;
  negative : nat
}.

(** The callback of [tweets.map] in [analyzeSentiment]. *)
Definition score (t : Tweet) : Z :=
  let text := toLowerCase (text t) in
  if regex_test positive_lexicon text then 1%Z
  else if regex_test negative_lexicon text then (-1)%Z
  else 0%Z.

Definition analyzeSentiment (tweets : list Tweet) : Sentiment :=
  let scores := map score tweets in
  {| positive := length (filter (fun s => (0 <? s)%Z) scores);
     neutral := length (filter (fun s => (s =? 0)%Z) scores);
     negative := length (filter (fun s => (s <? 0)%Z) scores) |}.

(** The classes in the words of the specification: positive when the
    lowercased text matches the positive lexicon, otherwise negative when it
    matches the negative lexicon, otherwise neutral. *)
Inductive SentimentClass := Positive | Neutral | Negative.

Definition SentimentClass_eqb (a b : SentimentClass) : bool :=
  match a, b with
  | Positive, Positive | Neutral, Neutral | Negative, Negative => true
  | _, _ => false
  end.

Definition classify (t : Tweet) : SentimentClass :=
  if regex_test positive_lexicon (toLowerCase (text t)) then Positive
  else if regex_test negative_lexicon (toLowerCase (text t)) then Negative
  else Neutral.

Definition count_class (c : SentimentClass) (tweets : list Tweet) : nat :=
  length (filter (fun t => SentimentClass_eqb (classify t) c) tweets).

(** *** getTopHashtags *)

(** [a] occurs in [l] at a position before an occurrence of [b]. *)
Inductive before {A : Type} : list A -> A -> A -> Prop :=
| before_here (a b : A) (l : list A) : In b l -> before (a :: l) a b
| before_later (x a b : A) (l : list A) : before l a b -> before (x :: l) a b.

(** [Array.prototype.sort(cmp)]: the sort is stable, and [cmp a b <= 0]
    keeps [a] in front of [b].  For a consistent comparator a stable sort
    has one result; it is computed here by insertion from the right. *)
Fixpoint sort_insert {A : Type} (cmp : A -> A -> Z) (x : A) (l : list A) : list A :=
  match l with
  | [] => [x]
  | y :: r => if (cmp x y <=? 0)%Z then x :: y :: r else y :: sort_insert cmp x r
  end.

Definition Array_sort {A : Type} (cmp : A -> A -> Z) (l : list A) : list A :=
  fold_right (sort_insert cmp) [] l.

Definition is_digit (c : ascii) : bool :=
  let n := nat_of_ascii c in (48 <=? n) && (n <=? 57).

Fixpoint decimal_value (acc : N) (s : string) : option N :=
  match s with
  | EmptyString => Some acc
  | String c r =>
      if is_digit c
      then decimal_value (10 * acc + N.of_nat (nat_of_ascii c - 48)) r
      else None
  end.

(** A property key is an array index when it is the canonical decimal
    numeral of an integer between 0 and 2^32 - 2. *)
Definition arrayIndex (key : string) : option N :=
  match key with
  | EmptyString => None
  | String c r =>
      if (c =? "0")%char
      then match r with EmptyString => Some 0%N | _ => None end
      else match decimal_value 0 key with
           | Some n => if (n <=? 4294967294)%N then Some n else None
           | None => None
           end
  end.

Definition isArrayIndex (key : string) : bool :=
  match arrayIndex key with Some _ => true | None => false end.

Definition indexValue (key : string) : Z :=
  match arrayIndex key with Some n => Z.of_N n | None => 0%Z end.

(** The value of a property of the accumulator: a number, or a string that
    is not a numeral (see [bump]). *)
Inductive Count :=
| Number (n : nat)
| NotANumber.

(** The object built by the reduce: its own properties with their values,
    in the order in which they were created. *)
Definition Counts := list (string * Count).

(** The accumulator starts as [{}], whose prototype is [Object.prototype];
    these are the names of the properties it inherits. *)
Definition Object_prototype_keys : list string :=
  ["constructor"; "__defineGetter__"; "__defineSetter__"; "hasOwnProperty";
   "__lookupGetter__"; "__lookupSetter__"; "isPrototypeOf";
   "propertyIsEnumerable"; "toString"; "valueOf"; "__proto__";
   "toLocaleString"].

Definition inherited (tag : string) : bool :=
  existsb (String.eqb tag) Object_prototype_keys.

Definition own_tag (tag : string) : Prop := ~ In tag Object_prototype_keys.

(** [v + 1] for the value [v] of an own property: a string stays a string. *)
Definition add_one (v : Count) : Count :=
  match v with
  | Number n => Number (n + 1)
  | NotANumber => NotANumber
  end.

(** [acc[tag] = (acc[tag] || 0) + 1].  When [tag] is not yet an own
    property, [acc[tag]] is undefined and the property is created with 1,
    unless [tag] names an inherited property: [acc[tag]] is then a function
    or an object, [+ 1] turns it into a string, and the property is created
    with that string. *)
Fixpoint bump (tag : string) (acc : Counts) : Counts :=
  match acc with
  | [] => [(tag, if inherited tag then NotANumber else Number 1)]
  | (key, v) :: rest =>
      if (key =? tag)%string then (key, add_one v) :: rest
      else (key, v) :: bump tag rest
  end.

(** The callback of the reduce.  An assignment to [__proto__] goes to the
    setter of [Object.prototype], which ignores a string: no property is
    created. *)
Definition count_tag (acc : Counts) (tag : string) : Counts :=
  if (tag =? "__proto__")%string then acc else bump tag acc.

(** [tweets.flatMap(t => t.hashtags).reduce(..., {})] *)
Definition hashtagCount (tweets : list Tweet) : Counts :=
  fold_left count_tag (flat_map hashtags tweets) [].

(** [Object.entries]: the own properties in property order, which lists the
    array-index keys first, by ascending value, and then the other string
    keys in creation order. *)
Definition Object_entries (o : Counts) : list (string * Count) :=
  Array_sort (fun a b => (indexValue (fst a) - indexValue (fst b))%Z)
             (filter (fun e => isArrayIndex (fst e)) o)
  ++ filter (fun e => negb (isArrayIndex (fst e))) o.

(** The comparator [(a, b) => b[1] - a[1]].  With a string on either side
    the difference is NaN, which the sort takes for 0; the comparator is
    then not consistent and, beyond two entries, the order of the result is
    left to the engine. *)
Definition byCount (a b : string * Count) : Z :=
  match snd b, snd a with
  | Number y, Number x => (Z.of_nat y - Z.of_nat x)%Z
  | _, _ => 0%Z
  end.

(** [Object.entries(hashtagCount).sort((a, b) => b[1] - a[1])
      .slice(0, limit).map(([tag]) => tag)] *)
Definition getTopHashtags (tweets : list Tweet) (limit : nat) : list string :=
  map fst
    (firstn limit (Array_sort byCount (Object_entries (hashtagCount tweets)))).

(** The default value of the [limit] parameter. *)
Definition default_limit : nat := 3.

(** Number of occurrences of a tag in the flattened hashtags, and position
    of its first occurrence. *)
Definition occurrences (tweets : list Tweet) (tag : string) : nat :=
  count_occ string_dec (flat_map hashtags tweets) tag.

Fixpoint index_of (tag : string) (tags : list string) : nat :=
  match tags with
  | [] => 0
  | t :: r => if (t =? tag)%string then 0 else S (index_of tag r)
  end.

Definition first_seen (tweets : list Tweet) (tag : string) : nat :=
  index_of tag (flat_map hashtags tweets).

(** What the reduce has built after the tags [tags], none of which names
    an inherited property: one property per distinct tag, holding its number
    of occurrences, the properties being in the order in which the tags were
    first met. *)
Definition counted (tags : list string) (C : Counts) : Prop :=
  NoDup (map fst C) /\
  (forall k, In k (map fst C) <-> In k tags) /\
  (forall k v, In (k, v) C -> v = Number (count_occ string_dec tags k)) /\
  (forall a b, before (map fst C) a b -> index_of a tags < index_of b tags).

(** The order of [Object.entries] on two keys. *)
Definition entries_order (tweets : list Tweet) (a b : string) : Prop :=
  match arrayIndex a, arrayIndex b with
  | Some i, Some j => (i < j)%N
  | Some _, None => True
  | None, Some _ => False
  | None, None => first_seen tweets a < first_seen tweets b
  end.

(** The property of [getTopHashtags] as the specification words it: at most
    [limit] entries, each a hashtag of the input, by non-increasing number
    of occurrences, ties in first-encountered order. *)
Definition topHashtags_first_seen_ties (tweets : list Tweet) (limit : nat) : Prop :=
  let r := getTopHashtags tweets limit in
  length r <= limit /\
  (forall tag, In tag r -> In tag (flat_map hashtags tweets)) /\
  (forall a b, before r a b -> occurrences tweets b <= occurrences tweets a) /\
  (forall a b, before r a b -> occurrences tweets a = occurrences tweets b ->
               first_seen tweets a < first_seen tweets b).

(** ** External collaborators *)

(** The values a [catch] clause can receive. *)
Inductive Error :=
| TypeError                          (* a property read on undefined *)
| Rejected (reason : string)         (* an external call that fails *)
| NoteTweetFailed (cause : Error).   (* new Error(`Note Tweet failed: ${error}`) *)

Definition Result (A : Type) : Type := (Error + A)%type.

(** Helpers of @elizaos/core whose code is not part of the sources and whose
    results the pipeline only passes on; they are kept uninterpreted, as
    constructors. *)
Inductive UUID := stringToUuid (s : string).

Inductive Template := dailyAnalysisTemplate | dailyReportTemplate.

(** The opaque state object returned by [runtime.composeState]. *)
Inductive AgentState := agentState (token : nat).

Inductive Context := composeContext (state : AgentState) (template : Template).

Inductive Embedding := getEmbeddingZeroVector.

Record Analysis := mkAnalysis {
  totalTweets : nat;
  topHashtags : list string;
  sentiment : Sentiment;
  mostEngagedTweet : Tweet
}.

(** The [text] of a message handed to [composeState]. *)
Inductive MessageText :=
| JSON_stringify (analysis : Analysis)       (* JSON.stringify(analysis, null, 2) *)
| cleanJsonResponse (generated : string).    (* the summary *)

Record Message := mkMessage {
  msg_userId : string;
  msg_roomId : UUID;
  msg_agentId : string;
  msg_text : MessageText
}.

(** The template literal built for [formattedTweets]. *)
Inductive FormattedTweets :=
| MostPopularTweet (text : string) (likes retweets : N)
| NoNotableTweets.

Record AdditionalKeys := mkKeys {
  twitterUserName : string;
  twitterCount : nat;
  formattedTweets : FormattedTweets
}.

(** The part of a platform response that [createTweetObject] reads. *)
Record Legacy := mkLegacy {
  full_text : string;
  conversation_id_str : string;
  created_at : string;
  in_reply_to_status_id_str : option string
}.

Record TweetResult := mkTweetResult {
  rest_id : string;
  legacy : option Legacy
}.

(** The response of [sendNoteTweet]: [errors] is empty when the property is
    absent or an empty array; [note_result] is [None] when the path
    [data.notetweet_create.tweet_results] cannot be read, and [Some None]
    when its [result] is undefined. *)
Record NoteTweetResult := mkNoteTweetResult {
  errors : list string;
  note_result : option (option TweetResult)
}.

Inductive MediaData := mediaData (name : string).

Inductive Timestamp := Date_getTime (created_at : string).

(** The object literal of [createTweetObject]; its array properties are all
    empty and are left out. *)
Record PostedTweet := mkPostedTweet {
  posted_id : string;
  posted_name : string;
  posted_username : string;
  posted_text : string;
  posted_conversationId : string;
  posted_createdAt : string;
  posted_timestamp : Timestamp;
  posted_userId : string;
  posted_inReplyToStatusId : option string;
  posted_permanentUrl : string
}.

Record Memory := mkMemory {
  mem_id : UUID;
  mem_userId : string;
  mem_agentId : string;
  mem_text : string;
  mem_url : string;
  mem_source : string;
  mem_roomId : UUID;
  mem_embedding : Embedding;
  mem_createdAt : Timestamp
}.

(** The calls that leave the module.  A call whose promise can reject, or
    whose result can be malformed, answers with a [Result].  The second
    argument of [composeState] is [None] for the empty object [{}].  The
    request queue of the client and the request it wraps are one call. *)
Inductive Cmd : Type -> Type :=
| fetchSearchTweets (query : string) (maxTweets : nat)
    : Cmd (Result (list Tweet))        (* SearchMode.Latest, then [.tweets] *)
| Date_now : Cmd Z
| wait : Cmd unit                      (* wait(Math.random() * 1000 + 2500) *)
| composeState (message : Message) (keys : option AdditionalKeys)
    : Cmd (Result AgentState)
| generateText (context : Context) : Cmd (Result string)
| sendNoteTweet (content : string) (tweetId : option string)
                (media : option (list MediaData))
    : Cmd (Result NoteTweetResult)
| sendTweet (content : string) (tweetId : option string)
            (media : option (list MediaData))
    : Cmd (Result (option TweetResult))  (* the request, then [.json()] and
                                            data.create_tweet.tweet_results.result *)
| cacheManager_set (key : string) (id : string) (timestamp : Z)
    : Cmd (Result unit)
| cacheTweet (tweet : PostedTweet) : Cmd (Result unit)
| ensureRoomExists (roomId : UUID) : Cmd (Result unit)
| ensureParticipantInRoom (agentId : string) (roomId : UUID) : Cmd (Result unit)
| createMemory (memory : Memory) : Cmd (Result unit).

(** The client's configuration and profile read by the pipeline.
    [TWITTER_TARGET_USERS] is [None] when the setting is undefined and
    [Some users] when it is an array, empty or not.
    [DEFAULT_MAX_TWEET_LENGTH] is the constant of [./environment], whose
    value is not part of the sources; it is kept as a parameter next to the
    configured [MAX_TWEET_LENGTH]. *)
Record Client := mkClient {
  TWITTER_USERNAME : string;
  TWITTER_TARGET_USERS : option (list string);
  MAX_TWEET_LENGTH : nat;
  DEFAULT_MAX_TWEET_LENGTH : nat;
  profile_username : string;
  profile_screenName : string;
  profile_id : string;
  agentId : string
}.

(** ** Programs *)

(** A method body as a tree: it returns, throws, reads or writes the
    [isProcessing] field of the instance, or calls a collaborator and goes
    on with the answer. *)
Inductive Prog (A : Type) : Type :=
| Ret (a : A)
| Throw (e : Error)
| GetProcessing (k : bool -> Prog A)
| SetProcessing (b : bool) (k : Prog A)
| Call {X : Type} (c : Cmd X) (k : X -> Prog A).

Arguments Ret {A} a.
Arguments Throw {A} e.
Arguments GetProcessing {A} k.
Arguments SetProcessing {A} b k.
Arguments Call {A X} c k.

Fixpoint bind {A B : Type} (p : Prog A) (f : A -> Prog B) : Prog B :=
  match p with
  | Ret a => f a
  | Throw e => Throw e
  | GetProcessing k => GetProcessing (fun b => bind (k b) f)
  | SetProcessing b k => SetProcessing b (bind k f)
  | Call c k => Call c (fun x => bind (k x) f)
  end.

(** [try { p } catch (error) { handler error }] *)
Fixpoint try_catch {A : Type} (p : Prog A) (handler : Error -> Prog A) : Prog A :=
  match p with
  | Ret a => Ret a
  | Throw e => handler e
  | GetProcessing k => GetProcessing (fun b => try_catch (k b) handler)
  | SetProcessing b k => SetProcessing b (try_catch k handler)
  | Call c k => Call c (fun x => try_catch (k x) handler)
  end.

(** [try { p } finally { final }] *)
Fixpoint try_finally {A : Type} (p : Prog A) (final : Prog unit) : Prog A :=
  match p with
  | Ret a => bind final (fun _ => Ret a)
  | Throw e => bind final (fun _ => Throw e)
  | GetProcessing k => GetProcessing (fun b => try_finally (k b) final)
  | SetProcessing b k => SetProcessing b (try_finally k final)
  | Call c k => Call c (fun x => try_finally (k x) final)
  end.

(** [await c] for a call that can fail. *)
Definition await {A : Type} (c : Cmd (Result A)) : Prog A :=
  Call c (fun r => match r with inl e => Throw e | inr a => Ret a end).

Declare Scope prog_scope.
Delimit Scope prog_scope with prog.
Notation "x <- p ;; q" := (bind p (fun x => q))
  (at level 61, p at next level, right associativity) : prog_scope.
Notation "p ;; q" := (bind p (fun _ => q))
  (at level 61, right associativity) : prog_scope.
Local Open Scope prog_scope.

(** *** Running a program *)

(** One external call with its answer. *)
Inductive Event :=
| Ev {X : Type} (c : Cmd X) (x : X).

(** The collaborators: the answer to a call may depend on everything that
    happened before it. *)
Definition Oracle := list Event -> forall X : Type, Cmd X -> X.

(** [exec o p flag h] runs [p] to its end from the value [flag] of
    [isProcessing], after the history [h]; it yields the outcome, the final
    value of [isProcessing] and the calls made, in order. *)
Fixpoint exec {A : Type} (o : Oracle) (p : Prog A) (flag : bool) (h : list Event)
  : Result A * bool * list Event :=
  match p with
  | Ret a => (inr a, flag, [])
  | Throw e => (inl e, flag, [])
  | GetProcessing k => exec o (k flag) flag h
  | SetProcessing b k => exec o k b h
  | Call c k =>
      let x := o h _ c in
      let '(r, flag', tr) := exec o (k x) flag (h ++ [Ev c x]) in
      (r, flag', Ev c x :: tr)
  end.

Definition outcome {A : Type} (r : Result A * bool * list Event) : Result A :=
  fst (fst r).
Definition final_flag {A : Type} (r : Result A * bool * list Event) : bool :=
  snd (fst r).
Definition trace {A : Type} (r : Result A * bool * list Event) : list Event :=
  snd r.

(** ** Collection stage *)

(** The callback of [userTweets.filter]: [Date.now()] is read for every
    tweet, reposts included. *)
Definition isValid (now : Z) (tweet : Tweet) : bool :=
  let isRecent := (now - timestamp tweet <? 24 * 60 * 60)%Z in
  negb (isRetweet tweet) && isRecent.

Fixpoint filterValid (userTweets : list Tweet) : Prog (list Tweet) :=
  match userTweets with
  | [] => Ret []
  | tweet :: rest =>
      Call Date_now (fun now =>
        validRest <- filterValid rest ;;
        Ret (if isValid now tweet then tweet :: validRest else validRest))
  end.

(** The body of the [for ... of] loop for one account.  The array
    [tweetsByUser] is only pushed to after the fetch and the filter, and
    [wait] does not fail, so the [catch] clause always finds the array as it
    was before the iteration. *)
Definition collectUser (username : string) (tweetsByUser : list Tweet)
  : Prog (list Tweet) :=
  try_catch
    (userTweets <- await (fetchSearchTweets ("from:" ++ username) 3) ;;
     validTweets <- filterValid userTweets ;;
     let pushed :=
       if 0 <? length validTweets then tweetsByUser ++ validTweets
       else tweetsByUser in
     let pushed := pushed ++ userTweets in
     Call wait (fun _ => Ret pushed))
    (fun error => Ret tweetsByUser).

Fixpoint collectLoop (users : list string) (tweetsByUser : list Tweet)
  : Prog (list Tweet) :=
  match users with
  | [] => Ret tweetsByUser
  | username :: rest =>
      tweetsByUser' <- collectUser username tweetsByUser ;;
      collectLoop rest tweetsByUser'
  end.

Definition collectTargetUsersTweets (client : Client) : Prog (list Tweet) :=
  match TWITTER_TARGET_USERS client with
  | None => Throw TypeError                   (* [.length] of undefined *)
  | Some TARGET_USERS =>
      if 0 <? length TARGET_USERS
      then (if 0 <? length TARGET_USERS
            then collectLoop TARGET_USERS []
            else Ret [])
      else Ret []
  end.

(** ** Summarization stage *)

Definition generateTrendSummary (client : Client) (tweets : list Tweet)
  (roomId : UUID) : Prog MessageText :=
  let analysis :=
    {| totalTweets := length tweets;
       topHashtags := getTopHashtags tweets default_limit;
       sentiment := analyzeSentiment tweets;
       mostEngagedTweet := findMostEngagedTweet tweets |} in
  (* the reduce never yields null, so the "No notable tweets today" branch
     of the conditional is not taken *)
  state <- await (composeState
                    {| msg_userId := agentId client; msg_roomId := roomId;
                       msg_agentId := agentId client;
                       msg_text := JSON_stringify analysis |}
                    (Some {| twitterUserName := TWITTER_USERNAME client;
                             twitterCount := totalTweets analysis;
                             formattedTweets :=
                               MostPopularTweet
                                 (text (mostEngagedTweet analysis))
                                 (likes (mostEngagedTweet analysis))
                                 (retweets (mostEngagedTweet analysis)) |})) ;;
  let context := composeContext state dailyAnalysisTemplate in
  generated <- await (generateText context) ;;
  Ret (cleanJsonResponse generated).

Definition generateReportContent (client : Client) (summary : MessageText)
  (roomId : UUID) : Prog string :=
  state <- await (composeState
                    {| msg_userId := agentId client; msg_roomId := roomId;
                       msg_agentId := agentId client; msg_text := summary |}
                    None) ;;
  let context := composeContext state dailyReportTemplate in
  await (generateText context).

(** ** Publication stage *)

Definition is_sentence_end (c : ascii) : bool :=
  ((c =? ".") || (c =? "!") || (c =? "?"))%char.

(** Length of the longest prefix of [s] that ends a sentence. *)
Fixpoint last_sentence_end (s : string) : option nat :=
  match s with
  | EmptyString => None
  | String c r =>
      match last_sentence_end r with
      | Some n => Some (S n)
      | None => if is_sentence_end c then Some 1 else None
      end
  end.

(** Modelled from the spec: [truncateToCompleteSentence] is a helper of
    @elizaos/core that is missing from the sources.  The specification asks
    it to "truncate the text to the nearest complete sentence within the
    platform's standard length ceiling": a text that fits is kept, a longer
    one is cut after the last sentence that ends within [maxLength]
    characters.  The specification does not say what is left when no sentence
    ends there; the first [maxLength] characters are kept. *)
Definition truncateToCompleteSentence (text : string) (maxLength : nat) : string :=
  if String.length text <=? maxLength then text
  else
    let head := substring 0 maxLength text in
    match last_sentence_end head with
    | Some n => substring 0 n head
    | None => head
    end.

Definition is_space (c : ascii) : bool :=
  match nat_of_ascii c with
  | 9 | 10 | 11 | 12 | 13 | 32 => true
  | _ => false
  end.

Fixpoint trimStart (s : string) : string :=
  match s with
  | EmptyString => EmptyString
  | String c r => if is_space c then trimStart r else s
  end.

Fixpoint trimEnd (s : string) : string :=
  match s with
  | EmptyString => EmptyString
  | String c r =>
      match trimEnd r with
      | EmptyString => if is_space c then EmptyString else String c EmptyString
      | r' => String c r'
      end
  end.

(** [String.prototype.trim] on code units below 128. *)
Definition trim (s : string) : string := trimEnd (trimStart s).

(** [client.requestQueue.add(() => client.twitterClient.sendTweet(...))]
    followed by [.json()] is the single call [sendTweet]. *)
Definition sendStandardTweet (content : string) (tweetId : option string)
  (media : option (list MediaData)) : Prog (option TweetResult) :=
  try_catch
    (body <- await (sendTweet content tweetId media) ;;
     match body with
     | None => Ret None                    (* bad response: logged, undefined *)
     | Some result => Ret (Some result)
     end)
    (fun error => Throw error).

Definition handleNoteTweet (client : Client) (content : string)
  (tweetId : option string) (media : option (list MediaData))
  : Prog (option TweetResult) :=
  try_catch
    (noteTweetResult <- await (sendNoteTweet content tweetId media) ;;
     if 0 <? length (errors noteTweetResult)
     then
       (* Note Tweet failed due to authorization. Falling back to standard Tweet. *)
       let truncateContent :=
         truncateToCompleteSentence content (MAX_TWEET_LENGTH client) in
       sendStandardTweet truncateContent tweetId None
     else
       match note_result noteTweetResult with
       | None => Throw TypeError
       | Some result => Ret result
       end)
    (fun error => Throw (NoteTweetFailed error)).

Definition createTweetObject (tweetResult : option TweetResult)
  (client : Client) (twitterUsername : string) : Prog PostedTweet :=
  match tweetResult with
  | None => Throw TypeError
  | Some tweetResult =>
      match legacy tweetResult with
      | None => Throw TypeError
      | Some l =>
          Ret {| posted_id := rest_id tweetResult;
                 posted_name := profile_screenName client;
                 posted_username := profile_username client;
                 posted_text := full_text l;
                 posted_conversationId := conversation_id_str l;
                 posted_createdAt := created_at l;
                 posted_timestamp := Date_getTime (created_at l);
                 posted_userId := profile_id client;
                 posted_inReplyToStatusId := in_reply_to_status_id_str l;
                 posted_permanentUrl :=
                   "https://twitter.com/" ++ twitterUsername ++ "/status/"
                   ++ rest_id tweetResult |}
      end
  end.

Definition processAndCacheTweet (client : Client) (tweet : PostedTweet)
  (roomId : UUID) (rawTweetContent : string) : Prog unit :=
  Call Date_now (fun now =>
    await (cacheManager_set
             ("twitter/" ++ profile_username client ++ "/lastPost")
             (posted_id tweet) now) ;;
    await (cacheTweet tweet) ;;
    await (ensureRoomExists roomId) ;;
    await (ensureParticipantInRoom (agentId client) roomId) ;;
    await (createMemory
             {| mem_id := stringToUuid (posted_id tweet ++ "-" ++ agentId client);
                mem_userId := agentId client;
                mem_agentId := agentId client;
                mem_text := trim rawTweetContent;
                mem_url := posted_permanentUrl tweet;
                mem_source := "twitter";
                mem_roomId := roomId;
                mem_embedding := getEmbeddingZeroVector;
                mem_createdAt := posted_timestamp tweet |})).

Definition postTweet (client : Client) (tweetTextForPosting : string)
  (roomId : UUID) (rawTweetContent : string) (twitterUsername : string)
  (media : option (list MediaData)) : Prog unit :=
  try_catch
    (result <-
       (if DEFAULT_MAX_TWEET_LENGTH client <? String.length tweetTextForPosting
        then handleNoteTweet client tweetTextForPosting None media
        else sendStandardTweet tweetTextForPosting None media) ;;
     tweet <- createTweetObject result client twitterUsername ;;
     processAndCacheTweet client tweet roomId rawTweetContent)
    (fun error => Ret tt).

Definition postDailyReport (client : Client) (content : string) (roomId : UUID)
  : Prog unit :=
  postTweet client content roomId content (TWITTER_USERNAME client) None.

(** ** Orchestrator *)

(** [!this.client.twitterConfig.TWITTER_TARGET_USERS]: an array is truthy,
    also when it is empty. *)
Definition no_target_users (client : Client) : bool :=
  match TWITTER_TARGET_USERS client with
  | None => true
  | Some _ => false
  end.

(** The four stages inside the [try] block. *)
Definition stages (client : Client) (roomId : UUID) : Prog unit :=
  tweetsByUser <- collectTargetUsersTweets client ;;
  summary <- generateTrendSummary client tweetsByUser roomId ;;
  reportContent <- generateReportContent client summary roomId ;;
  postDailyReport client reportContent roomId.

Definition runDailyReport (client : Client) : Prog unit :=
  GetProcessing (fun isProcessing =>
    if isProcessing || no_target_users client then Ret tt
    else
      let roomId :=
        stringToUuid ("twitter_dailyreport_room-" ++ TWITTER_USERNAME client) in
      SetProcessing true
        (try_finally
           (try_catch (stages client roomId) (fun error => Ret tt))
           (SetProcessing false (Ret tt)))).

(** *** Overlapping invocations *)

(** An invocation runs without interruption up to its next external call;
    [settle] performs the accesses to [isProcessing] that come before it.
    Every external call is taken as a point where other invocations may
    run, the synchronous [Date.now()] included, which only adds schedules. *)
Fixpoint settle {A : Type} (p : Prog A) (flag : bool) : Prog A * bool :=
  match p with
  | GetProcessing k => settle (k flag) flag
  | SetProcessing b k => settle k b
  | _ => (p, flag)
  end.

(** The instance with the invocations of [runDailyReport] made so far, each
    one finished or suspended at a call, and the calls made. *)
Record System := mkSystem {
  isProcessing : bool;
  invocations : list (Prog unit);
  events : list Event
}.

Definition initial : System :=
  {| isProcessing := false; invocations := []; events := [] |}.

Fixpoint replace_nth {A : Type} (i : nat) (x : A) (l : list A) : list A :=
  match l, i with
  | [], _ => []
  | _ :: r, 0 => x :: r
  | y :: r, S j => y :: replace_nth j x r
  end.

(** A new invocation of [runDailyReport] runs up to its first call. *)
Definition invoke (client : Client) (s : System) : System :=
  {| isProcessing := snd (settle (runDailyReport client) (isProcessing s));
     invocations :=
       invocations s ++ [fst (settle (runDailyReport client) (isProcessing s))];
     events := events s |}.

(** The call at which invocation [i] is suspended is answered, and the
    invocation runs up to its next call; nothing happens when invocation [i]
    is not suspended. *)
Definition resume (s : System) (i : nat) (answer : forall X : Type, Cmd X -> X)
  : System :=
  match nth_error (invocations s) i with
  | Some (Call c k) =>
      let x := answer _ c in
      {| isProcessing := snd (settle (k x) (isProcessing s));
         invocations :=
           replace_nth i (fst (settle (k x) (isProcessing s))) (invocations s);
         events := events s ++ [Ev c x] |}
  | _ => s
  end.

(** The states of the instance under any number of invocations, resumed in
    any order with any answers. *)
Inductive reachable (client : Client) : System -> Prop :=
| reachable_initial : reachable client initial
| reachable_invoke (s : System) :
    reachable client s -> reachable client (invoke client s)
| reachable_resume (s : System) (i : nat) (answer : forall X : Type, Cmd X -> X) :
    reachable client s -> reachable client (resume s i answer).

(** An invocation is in flight when it is suspended at a call. *)
Definition in_flight (p : Prog unit) : bool :=
  match p with
  | Call _ _ => true
  | _ => false
  end.

(** ** Reading traces *)

(** The first [n] answers of [Date.now()] at the head of a trace. *)
Fixpoint readings (n : nat) (tr : list Event) : list Z :=
  match n, tr with
  | S m, Ev c x :: rest =>
      match c in Cmd X return X -> list Z with
      | Date_now => fun now => now :: readings m rest
      | _ => fun _ => []
      end x
  | _, _ => []
  end.

(** The fetches that succeeded, each with the tweets it returned and the
    clock readings of the filter that followed it. *)
Fixpoint fetched (tr : list Event) : list (list Tweet * list Z) :=
  match tr with
  | [] => []
  | Ev c x :: rest =>
      match c in Cmd X return X -> list (list Tweet * list Z) with
      | fetchSearchTweets _ _ => fun r =>
          match r with
          | inr userTweets => [(userTweets, readings (length userTweets) rest)]
          | inl _ => []
          end
      | _ => fun _ => []
      end x ++ fetched rest
  end.

(** The tweets the filter keeps, given the clock reading taken for each. *)
Fixpoint validTweets (nows : list Z) (userTweets : list Tweet) : list Tweet :=
  match nows, userTweets with
  | now :: nows', tweet :: rest =>
      if isValid now tweet then tweet :: validTweets nows' rest
      else validTweets nows' rest
  | _, _ => []
  end.

(** The answers of the clock to [n] successive readings after [h]. *)
Fixpoint clock (o : Oracle) (h : list Event) (n : nat) : list Z :=
  match n with
  | 0 => []
  | S m =>
      let now := o h _ Date_now in
      now :: clock o (h ++ [Ev Date_now now]) m
  end.

(** The texts handed to [sendTweet] and to [sendNoteTweet]. *)
Fixpoint standard_attempts (tr : list Event) : list string :=
  match tr with
  | [] => []
  | Ev c _ :: rest =>
      match c with
      | sendTweet content _ _ => content :: standard_attempts rest
      | _ => standard_attempts rest
      end
  end.

Fixpoint note_attempts (tr : list Event) : list string :=
  match tr with
  | [] => []
  | Ev c _ :: rest =>
      match c with
      | sendNoteTweet content _ _ => content :: note_attempts rest
      | _ => note_attempts rest
      end
  end.

(** Calls that write to the cache, the rooms or the memories. *)
Definition persists {X : Type} (c : Cmd X) : bool :=
  match c with
  | cacheManager_set _ _ _ | cacheTweet _ | ensureRoomExists _
  | ensureParticipantInRoom _ _ | createMemory _ => true
  | _ => false
  end.

Definition publishes {X : Type} (c : Cmd X) : bool :=
  match c with
  | sendTweet _ _ _ | sendNoteTweet _ _ _ => true
  | _ => false
  end.

Definition persisted (e : Event) : bool :=
  match e with Ev c _ => persists c end.

(** A publication succeeded: the platform answered with a result. *)
Definition published (e : Event) : bool :=
  match e with
  | Ev c x =>
      match c in Cmd X return X -> bool with
      | sendTweet _ _ _ => fun r =>
          match r with inr (Some _) => true | _ => false end
      | sendNoteTweet _ _ _ => fun r =>
          match r with
          | inr res =>
              (length (errors res) =? 0) &&
              match note_result res with Some (Some _) => true | _ => false end
          | inl _ => false
          end
      | _ => fun _ => false
      end x
  end.

(** No persisting call before the first successful publication. *)
Fixpoint persist_guarded (tr : list Event) : bool :=
  match tr with
  | [] => true
  | e :: rest => published e || (negb (persisted e) && persist_guarded rest)
  end.

Definition label (e : Event) : string :=
  match e with
  | Ev c _ =>
      match c with
      | fetchSearchTweets _ _ => "fetchSearchTweets"
      | Date_now => "Date.now"
      | wait => "wait"
      | composeState _ _ => "composeState"
      | generateText _ => "generateText"
      | sendNoteTweet _ _ _ => "sendNoteTweet"
      | sendTweet _ _ _ => "sendTweet"
      | cacheManager_set _ _ _ => "cacheManager.set"
      | cacheTweet _ => "cacheTweet"
      | ensureRoomExists _ => "ensureRoomExists"
      | ensureParticipantInRoom _ _ => "ensureParticipantInRoom"
      | createMemory _ => "createMemory"
      end
  end.

(** ** Shapes of programs *)

(** Programs that do not touch [isProcessing] and whose calls all satisfy
    [P]. *)
Inductive Only (P : forall X : Type, Cmd X -> bool) {A : Type} : Prog A -> Prop :=
| only_ret (a : A) : Only P (Ret a)
| only_throw (e : Error) : Only P (Throw e)
| only_call {X : Type} (c : Cmd X) (k : X -> Prog A) :
    P X c = true -> (forall x, Only P (k x)) -> Only P (Call c k).

Definition any_call : forall X : Type, Cmd X -> bool := fun _ _ => true.
Definition quiet_call : forall X : Type, Cmd X -> bool :=
  fun _ c => negb (persists c) && negb (publishes c).
Definition not_publishing : forall X : Type, Cmd X -> bool :=
  fun _ c => negb (publishes c).

(** Programs in which a persisting call can only follow a successful
    publication. *)
Inductive Guarded {A : Type} : Prog A -> Prop :=
| guarded_ret (a : A) : Guarded (Ret a)
| guarded_throw (e : Error) : Guarded (Throw e)
| guarded_get (k : bool -> Prog A) :
    (forall b, Guarded (k b)) -> Guarded (GetProcessing k)
| guarded_set (b : bool) (k : Prog A) : Guarded k -> Guarded (SetProcessing b k)
| guarded_call {X : Type} (c : Cmd X) (k : X -> Prog A) :
    persists c = false ->
    (forall x, published (Ev c x) = false -> Guarded (k x)) ->
    Guarded (Call c k).

(** What is left of an invocation that has set the guard: further calls,
    then the [finally] clause, then the end. *)
Inductive Finishing : Prog unit -> Prop :=
| finishing_clear : Finishing (SetProcessing false (Ret tt))
| finishing_call {X : Type} (c : Cmd X) (k : X -> Prog unit) :
    (forall x, Finishing (k x)) -> Finishing (Call c k).

(** An invocation in the system is finished, or suspended at a call with
    the [finally] clause still ahead. *)
Definition task_ok (p : Prog unit) : Prop :=
  match p with
  | Ret _ => True
  | Call c k => forall x, Finishing (k x)
  | _ => False
  end.

Definition count_in_flight (l : list (Prog unit)) : nat :=
  length (filter in_flight l).

(** What one successful fetch adds to [tweetsByUser]: the tweets kept by
    the filter, then all the tweets fetched. *)
Definition pushed_for (f : list Tweet * list Z) : list Tweet :=
  validTweets (snd f) (fst f) ++ fst f.

(** ** Further readings of traces *)

(** The values [f] picks from the events of a trace, in order. *)
Fixpoint pick {T : Type} (f : Event -> option T) (tr : list Event) : list T :=
  match tr with
  | [] => []
  | e :: rest =>
      match f e with
      | Some t => t :: pick f rest
      | None => pick f rest
      end
  end.

(** The query and the limit of a fetch. *)
Definition fetch_request (e : Event) : option (string * nat) :=
  match e with
  | Ev c _ =>
      match c with
      | fetchSearchTweets query maxTweets => Some (query, maxTweets)
      | _ => None
      end
  end.

Definition is_wait (e : Event) : bool :=
  match e with Ev c _ => match c with wait => true | _ => false end end.

Definition is_clock (e : Event) : bool :=
  match e with Ev c _ => match c with Date_now => true | _ => false end end.

(** The calls of one iteration of the collection loop: the fetch; after a
    fetch that succeeds, one clock reading for each tweet and the pause. *)
Definition iteration (username : string) (answer : Result (list Tweet))
  (nows : list Z) : list Event :=
  match answer with
  | inl e => [Ev (fetchSearchTweets ("from:" ++ username) 3) (inl e)]
  | inr userTweets =>
      Ev (fetchSearchTweets ("from:" ++ username) 3) (inr userTweets)
      :: map (Ev Date_now) nows ++ [Ev wait tt]
  end.

(** The arguments of a standard publication. *)
Definition standard_request (e : Event)
  : option (string * option string * option (list MediaData)) :=
  match e with
  | Ev c _ =>
      match c with
      | sendTweet content tweetId media => Some (content, tweetId, media)
      | _ => None
      end
  end.

(** The text of a publication, standard or long-form. *)
Definition publish_content (e : Event) : option string :=
  match e with
  | Ev c _ =>
      match c with
      | sendTweet content _ _ | sendNoteTweet content _ _ => Some content
      | _ => None
      end
  end.

(** The result with which the platform answered a publication. *)
Definition published_result (e : Event) : option TweetResult :=
  match e with
  | Ev c x =>
      match c in Cmd X return X -> option TweetResult with
      | sendTweet _ _ _ => fun r =>
          match r with inr (Some result) => Some result | _ => None end
      | sendNoteTweet _ _ _ => fun r =>
          match r with
          | inr res =>
              if length (errors res) =? 0
              then match note_result res with
                   | Some (Some result) => Some result
                   | _ => None
                   end
              else None
          | inl _ => None
          end
      | _ => fun _ => None
      end x
  end.

(** The text that [generateText] returned. *)
Definition generated_text (e : Event) : option string :=
  match e with
  | Ev c x =>
      match c in Cmd X return X -> option string with
      | generateText _ => fun r =>
          match r with inr generated => Some generated | inl _ => None end
      | _ => fun _ => None
      end x
  end.

(** The template of a generation request. *)
Definition generation_template (e : Event) : option Template :=
  match e with
  | Ev c _ =>
      match c with
      | generateText (composeContext _ template) => Some template
      | _ => None
      end
  end.

(** The analysis, with the additional keys, handed to [composeState]. *)
Definition analysis_request (e : Event) : option (Analysis * option AdditionalKeys) :=
  match e with
  | Ev c _ =>
      match c with
      | composeState message keys =>
          match msg_text message with
          | JSON_stringify analysis => Some (analysis, keys)
          | cleanJsonResponse _ => None
          end
      | _ => None
      end
  end.

(** The generated text whose cleaned form is handed to [composeState]. *)
Definition summary_request (e : Event) : option string :=
  match e with
  | Ev c _ =>
      match c with
      | composeState message _ =>
          match msg_text message with
          | cleanJsonResponse generated => Some generated
          | JSON_stringify _ => None
          end
      | _ => None
      end
  end.

Definition memory_request (e : Event) : option Memory :=
  match e with
  | Ev c _ => match c with createMemory memory => Some memory | _ => None end
  end.

Definition cached_tweet (e : Event) : option PostedTweet :=
  match e with
  | Ev c _ => match c with cacheTweet tweet => Some tweet | _ => None end
  end.

(** The key, the identifier and the timestamp of a [cacheManager.set]. *)
Definition last_post (e : Event) : option (string * string * Z) :=
  match e with
  | Ev c _ =>
      match c with
      | cacheManager_set key i timestamp => Some (key, i, timestamp)
      | _ => None
      end
  end.

(** An answer that is a failure. *)
Definition failed (e : Event) : bool :=
  match e with
  | Ev c x =>
      match c in Cmd X return X -> bool with
      | Date_now => fun _ => false
      | wait => fun _ => false
      | fetchSearchTweets _ _ => fun r => match r with inl _ => true | inr _ => false end
      | composeState _ _ => fun r => match r with inl _ => true | inr _ => false end
      | generateText _ => fun r => match r with inl _ => true | inr _ => false end
      | sendNoteTweet _ _ _ => fun r => match r with inl _ => true | inr _ => false end
      | sendTweet _ _ _ => fun r => match r with inl _ => true | inr _ => false end
      | cacheManager_set _ _ _ => fun r => match r with inl _ => true | inr _ => false end
      | cacheTweet _ => fun r => match r with inl _ => true | inr _ => false end
      | ensureRoomExists _ => fun r => match r with inl _ => true | inr _ => false end
      | ensureParticipantInRoom _ _ => fun r => match r with inl _ => true | inr _ => false end
      | createMemory _ => fun r => match r with inl _ => true | inr _ => false end
      end x
  end.

(** The calls of [processAndCacheTweet], in the order of the source. *)
Definition persisting_sequence : list string :=
  ["Date.now"; "cacheManager.set"; "cacheTweet"; "ensureRoomExists";
   "ensureParticipantInRoom"; "createMemory"].

(** Calls of the collection stage, and calls of the publication stage. *)
Definition collecting : forall X : Type, Cmd X -> bool :=
  fun _ c =>
    match c with
    | fetchSearchTweets _ _ | Date_now | wait => true
    | _ => false
    end.

Definition persisting : forall X : Type, Cmd X -> bool :=
  fun _ c => persists c || match c with Date_now => true | _ => false end.

(** The two parts of the [try] block of [postTweet]: the publication, by
    the route that the length of the text selects, and what follows it. *)
Definition publish_step (client : Client) (tweetTextForPosting : string)
  (media : option (list MediaData)) : Prog (option TweetResult) :=
  if DEFAULT_MAX_TWEET_LENGTH client <? String.length tweetTextForPosting
  then handleNoteTweet client tweetTextForPosting None media
  else sendStandardTweet tweetTextForPosting None media.

Definition after_publish (client : Client) (roomId : UUID)
  (rawTweetContent twitterUsername : string) (result : option TweetResult)
  : Prog unit :=
  tweet <- createTweetObject result client twitterUsername ;;
  processAndCacheTweet client tweet roomId rawTweetContent.

(** Calls of the publication stage. *)
Definition posting : forall X : Type, Cmd X -> bool :=
  fun _ c => publishes c || persisting _ c.

(** The room of the daily report. *)
Definition report_room (client : Client) : UUID :=
  stringToUuid ("twitter_dailyreport_room-" ++ TWITTER_USERNAME client).

(** What the [try] block of [runDailyReport] does with the tweets
    collected. *)
Definition summarize_and_post (client : Client) (roomId : UUID)
  (tweetsByUser : list Tweet) : Prog unit :=
  summary <- generateTrendSummary client tweetsByUser roomId ;;
  reportContent <- generateReportContent client summary roomId ;;
  postDailyReport client reportContent roomId.

(** The analysis of a list of tweets, as [generateTrendSummary] builds it. *)
Definition analyze (tweets : list Tweet) : Analysis :=
  {| totalTweets := length tweets;
     topHashtags := getTopHashtags tweets default_limit;
     sentiment := analyzeSentiment tweets;
     mostEngagedTweet := findMostEngagedTweet tweets |}.

(** The distinct tags of a list of posts. *)
Definition distinct_tags (tweets : list Tweet) : list string :=
  nodup string_dec (flat_map hashtags tweets).

(** ** Sample inputs *)

(** A post with the given hashtags, and a post with the given likes. *)
Definition tagged (tags : list string) : Tweet :=
  {| id := ""; username := ""; text := ""; timestamp := 0;
     likes := 0; retweets := 0; hashtags := tags; isRetweet := false;
     conversationId := ""; permanentUrl := "" |}.

Definition liked (i : string) (n : N) : Tweet :=
  {| id := i; username := "alice"; text := ""; timestamp := 0;
     likes := n; retweets := 0; hashtags := []; isRetweet := false;
     conversationId := i; permanentUrl := "" |}.

Definition sample_result : TweetResult :=
  {| rest_id := "1900";
     legacy := Some {| full_text := "report"; conversation_id_str := "1900";
                       created_at := "Mon Nov 02 07:00:00 +0000 2026";
                       in_reply_to_status_id_str := None |} |}.

(** Collaborators that always give the same answers: [tweets] for a fetch,
    [now] for the clock, [note] and [standard] for the two ways of
    publishing, success for the rest. *)
Definition scripted (tweets : string -> Result (list Tweet)) (now : Z)
  (note : Result NoteTweetResult) (standard : Result (option TweetResult))
  : Oracle :=
  fun _ X c =>
    match c in Cmd X return X with
    | fetchSearchTweets query _ => tweets query
    | Date_now => now
    | wait => tt
    | composeState _ _ => inr (agentState 0)
    | generateText _ => inr "report"
    | sendNoteTweet _ _ _ => note
    | sendTweet _ _ _ => standard
    | cacheManager_set _ _ _ => inr tt
    | cacheTweet _ => inr tt
    | ensureRoomExists _ => inr tt
    | ensureParticipantInRoom _ _ => inr tt
    | createMemory _ => inr tt
    end.

Definition sample_client (users : option (list string)) (max : nat) : Client :=
  {| TWITTER_USERNAME := "agent"; TWITTER_TARGET_USERS := users;
     MAX_TWEET_LENGTH := max; DEFAULT_MAX_TWEET_LENGTH := 280;
     profile_username := "agent"; profile_screenName := "Agent";
     profile_id := "42"; agentId := "agent-id" |}.

(** A repost made one second before the clock reading, and an original post
    made long before it. *)
Definition repost : Tweet :=
  {| id := "7"; username := "alice"; text := "RT"; timestamp := 1699999999999;
     likes := 0; retweets := 0; hashtags := []; isRetweet := true;
     conversationId := "7"; permanentUrl := "" |}.

Definition stale : Tweet :=
  {| id := "8"; username := "alice"; text := "old"; timestamp := 0;
     likes := 0; retweets := 0; hashtags := []; isRetweet := false;
     conversationId := "8"; permanentUrl := "" |}.

Definition fresh : Tweet :=
  {| id := "9"; username := "alice"; text := "new"; timestamp := 1699999999999;
     likes := 0; retweets := 0; hashtags := []; isRetweet := false;
     conversationId := "9"; permanentUrl := "" |}.

Fixpoint replicate (n : nat) (c : ascii) : string :=
  match n with
  | 0 => EmptyString
  | S m => String c (replicate m c)
  end.

(** A text of 300 characters made of one sentence. *)
Definition long_text : string := replicate 299 "a" ++ ".".

Definition forbidden : NoteTweetResult :=
  {| errors := ["Forbidden"]; note_result := None |}.

(** Collaborators whose fallible calls all fail. *)
Definition failing : forall X : Type, Cmd X -> X :=
  fun X c =>
    match c in Cmd X return X with
    | fetchSearchTweets _ _ => inl (Rejected "down")
    | Date_now => 0%Z
    | wait => tt
    | composeState _ _ => inl (Rejected "down")
    | generateText _ => inl (Rejected "down")
    | sendNoteTweet _ _ _ => inl (Rejected "down")
    | sendTweet _ _ _ => inl (Rejected "down")
    | cacheManager_set _ _ _ => inl (Rejected "down")
    | cacheTweet _ => inl (Rejected "down")
    | ensureRoomExists _ => inl (Rejected "down")
    | ensureParticipantInRoom _ _ => inl (Rejected "down")
    | createMemory _ => inl (Rejected "down")
    end.

(** A post with the given text. *)
Definition saying (s : string) : Tweet :=
  {| id := "3"; username := "bob"; text := s; timestamp := 0;
     likes := 0; retweets := 0; hashtags := []; isRetweet := false;
     conversationId := "3"; permanentUrl := "" |}.

(** * Properties *)

(** ** findMostEngagedTweet *)

Lemma engagement_fold (tweets : list Tweet) (acc : Tweet) :
  let r := fold_left
             (fun prev current =>
                if (likes current + retweets current <? likes prev + retweets prev)%N
                then prev else current) tweets acc in
  (r = acc /\ Forall (fun x => (engagement x < engagement acc)%N) tweets) \/
  (exists pre post,
      tweets = pre ++ r :: post /\
      (engagement acc <= engagement r)%N /\
      Forall (fun x => (engagement x <= engagement r)%N) pre /\
      Forall (fun x => (engagement x < engagement r)%N) post).
Proof.
  revert acc. induction tweets as [|x l IH]; intros acc; simpl.
  - left. split; [reflexivity | constructor].
  - fold (engagement x). fold (engagement acc).
    destruct (N.ltb_spec (engagement x) (engagement acc)) as [Hlt|Hge].
    + destruct (IH acc) as [[Hr Hall]|(pre & post & Hl & Hacc & Hpre & Hpost)].
      * left. split; [exact Hr | constructor; assumption].
      * right. exists (x :: pre), post. repeat split; try assumption.
        -- simpl. f_equal. exact Hl.
        -- constructor; [lia | assumption].
    + destruct (IH x) as [[Hr Hall]|(pre & post & Hl & Hacc & Hpre & Hpost)].
      * right. exists [], l. rewrite Hr. simpl.
        split; [reflexivity|]. split; [lia|]. split; [constructor | exact Hall].
      * right. exists (x :: pre), post. repeat split; try assumption.
        -- simpl. f_equal. exact Hl.
        -- lia.
        -- constructor; [lia | assumption].
Qed.

(** C5, as the specification states it, fails on a tie: of two posts with
    the same, maximal, engagement the reduce returns the second, while the
    first-encountered maximum is the first. *)
Lemma findMostEngagedTweet_tie_counterexample :
  let tweets := [liked "1" 5; liked "2" 5] in
  before tweets (liked "1" 5) (liked "2" 5) /\
  engagement (liked "1" 5) = max_engagement tweets /\
  engagement (liked "2" 5) = max_engagement tweets /\
  first_with_engagement (max_engagement tweets) tweets = Some (liked "1" 5) /\
  findMostEngagedTweet tweets = liked "2" 5 /\
  findMostEngagedTweet tweets <> liked "1" 5.
Proof.
  simpl. repeat split; try reflexivity.
  - apply before_here. left. reflexivity.
  - discriminate.
Qed.

(** C5 (amended): over the empty list [findMostEngagedTweet] returns the
    zero-engagement sentinel, over a single post it returns that post, and
    over a non-empty list it returns the last post of maximal engagement:
    no post before it has more, every post after it has less. *)
Theorem findMostEngagedTweet_last_maximum :
  findMostEngagedTweet [] = sentinel /\
  (forall t, findMostEngagedTweet [t] = t) /\
  (forall t tweets,
      exists pre post,
        t :: tweets = pre ++ findMostEngagedTweet (t :: tweets) :: post /\
        Forall (fun x => (engagement x
                          <= engagement (findMostEngagedTweet (t :: tweets)))%N) pre /\
        Forall (fun x => (engagement x
                          < engagement (findMostEngagedTweet (t :: tweets)))%N) post).
Proof.
  split; [reflexivity|]. split.
  - intros t. unfold findMostEngagedTweet. simpl.
    destruct (N.ltb_spec (likes t + retweets t) 0); [lia | reflexivity].
  - intros t tweets. unfold findMostEngagedTweet.
    destruct (engagement_fold (t :: tweets) sentinel)
      as [[_ Hall]|(pre & post & Hl & _ & Hpre & Hpost)].
    + inversion Hall as [|? ? Hlt _]. unfold engagement in Hlt. simpl in Hlt. lia.
    + exists pre, post. repeat split; assumption.
Qed.

(** ** analyzeSentiment *)

Lemma prefix_spec (w s : string) :
  prefix w s = true <-> exists post, s = (w ++ post)%string.
Proof.
  revert s. induction w as [|a w IH]; intros [|b s]; simpl.
  - split; [intros _; exists ""; reflexivity | reflexivity].
  - split; [intros _; exists (String b s); reflexivity | reflexivity].
  - split; [discriminate | intros [post H]; discriminate H].
  - destruct (ascii_dec a b) as [->|Hne].
    + rewrite IH. split; intros [post H]; exists post; [rewrite H|]; congruence.
    + split; [discriminate | intros [post H]; congruence].
Qed.

(** [includes] is the substring test. *)
Lemma includes_spec (w s : string) :
  includes w s = true <-> exists pre post, s = (pre ++ w ++ post)%string.
Proof.
  induction s as [|c r IH]; cbn [includes].
  - rewrite orb_false_r, prefix_spec. split.
    + intros [post H]. exists "", post. exact H.
    + intros (pre & post & H). destruct pre; [|discriminate H].
      exists post. exact H.
  - rewrite orb_true_iff, prefix_spec, IH. split.
    + intros [[post H]|(pre & post & H)].
      * exists "", post. exact H.
      * exists (String c pre), post. simpl. rewrite H. reflexivity.
    + intros (pre & post & H). destruct pre as [|c' pre].
      * left. exists post. exact H.
      * right. simpl in H. injection H as _ H. exists pre, post. exact H.
Qed.

Lemma length_filter_map {A B : Type} (f : B -> bool) (g : A -> B) (l : list A) :
  length (filter f (map g l)) = length (filter (fun x => f (g x)) l).
Proof.
  induction l as [|x l IH]; simpl; [reflexivity|].
  destruct (f (g x)); simpl; rewrite IH; reflexivity.
Qed.

Lemma score_classify (t : Tweet) :
  (0 <? score t)%Z = SentimentClass_eqb (classify t) Positive /\
  (score t =? 0)%Z = SentimentClass_eqb (classify t) Neutral /\
  (score t <? 0)%Z = SentimentClass_eqb (classify t) Negative.
Proof.
  unfold score, classify.
  destruct (regex_test positive_lexicon (toLowerCase (text t)));
    [|destruct (regex_test negative_lexicon (toLowerCase (text t)))];
    repeat split.
Qed.

Lemma count_class_total (tweets : list Tweet) :
  count_class Positive tweets + count_class Neutral tweets
  + count_class Negative tweets = length tweets.
Proof.
  unfold count_class.
  induction tweets as [|t l IH]; simpl; [reflexivity|].
  destruct (classify t); simpl; lia.
Qed.

(** C7: [analyzeSentiment] counts every post in exactly one class, positive
    when its lowercased text matches the positive lexicon, otherwise
    negative when it matches the negative lexicon, otherwise neutral, and
    the three counts add up to the number of posts. *)
Theorem analyzeSentiment_partition (tweets : list Tweet) :
  positive (analyzeSentiment tweets) = count_class Positive tweets /\
  neutral (analyzeSentiment tweets) = count_class Neutral tweets /\
  negative (analyzeSentiment tweets) = count_class Negative tweets /\
  positive (analyzeSentiment tweets) + neutral (analyzeSentiment tweets)
  + negative (analyzeSentiment tweets) = length tweets.
Proof.
  assert (Hp : positive (analyzeSentiment tweets) = count_class Positive tweets).
  { unfold analyzeSentiment, count_class. cbn [positive].
    rewrite length_filter_map. f_equal. apply filter_ext.
    intros t. apply (score_classify t). }
  assert (Hz : neutral (analyzeSentiment tweets) = count_class Neutral tweets).
  { unfold analyzeSentiment, count_class. cbn [neutral].
    rewrite length_filter_map. f_equal. apply filter_ext.
    intros t. apply (score_classify t). }
  assert (Hn : negative (analyzeSentiment tweets) = count_class Negative tweets).
  { unfold analyzeSentiment, count_class. cbn [negative].
    rewrite length_filter_map. f_equal. apply filter_ext.
    intros t. apply (score_classify t). }
  rewrite Hp, Hz, Hn. repeat split. apply count_class_total.
Qed.

(** ** getTopHashtags *)

(** *** Relative order in a list *)

Lemma before_In {A : Type} (l : list A) (a b : A) :
  before l a b -> In a l /\ In b l.
Proof.
  induction 1 as [a b l Hb|x a b l _ [IHa IHb]]; simpl; auto.
Qed.

Lemma before_app {A : Type} (l1 l2 : list A) (a b : A) :
  before (l1 ++ l2) a b ->
  before l1 a b \/ before l2 a b \/ (In a l1 /\ In b l2).
Proof.
  induction l1 as [|x l1 IH]; simpl; intros H.
  - right. left. exact H.
  - inversion H as [a' b' l' Hb|x' a' b' l' Hrest]; subst.
    + apply in_app_or in Hb. destruct Hb as [Hb|Hb].
      * left. apply before_here. exact Hb.
      * right. right. split; [left; reflexivity | exact Hb].
    + destruct (IH Hrest) as [H1|[H2|[Ha Hb]]].
      * left. apply before_later. exact H1.
      * right. left. exact H2.
      * right. right. split; [right; exact Ha | exact Hb].
Qed.

Lemma before_filter {A : Type} (p : A -> bool) (l : list A) (a b : A) :
  before (filter p l) a b -> before l a b.
Proof.
  induction l as [|x l IH]; simpl; intros H.
  - inversion H.
  - destruct (p x).
    + inversion H as [a' b' l' Hb|x' a' b' l' Hrest]; subst.
      * apply before_here. apply filter_In in Hb. apply Hb.
      * apply before_later. apply IH. exact Hrest.
    + apply before_later. apply IH. exact H.
Qed.

Lemma filter_before {A : Type} (p : A -> bool) (l : list A) (a b : A) :
  before l a b -> p a = true -> p b = true -> before (filter p l) a b.
Proof.
  induction 1 as [a b l Hb|x a b l _ IH]; simpl; intros Ha Hpb.
  - rewrite Ha. apply before_here. apply filter_In. split; assumption.
  - destruct (p x); [apply before_later|]; apply IH; assumption.
Qed.

Lemma before_map {A B : Type} (f : A -> B) (l : list A) (x y : B) :
  before (map f l) x y ->
  exists a b, f a = x /\ f b = y /\ before l a b.
Proof.
  induction l as [|c l IH]; simpl; intros H.
  - inversion H.
  - inversion H as [a' b' l' Hb|x' a' b' l' Hrest]; subst.
    + apply in_map_iff in Hb. destruct Hb as (b & Hfb & Hb).
      exists c, b. repeat split; [exact Hfb | apply before_here; exact Hb].
    + destruct (IH Hrest) as (a & b & Ha & Hb & Hab).
      exists a, b. repeat split; try assumption. apply before_later. exact Hab.
Qed.

Lemma map_before {A B : Type} (f : A -> B) (l : list A) (a b : A) :
  before l a b -> before (map f l) (f a) (f b).
Proof.
  induction 1 as [a b l Hb|x a b l _ IH]; simpl.
  - apply before_here. apply in_map. exact Hb.
  - apply before_later. exact IH.
Qed.

Lemma before_firstn {A : Type} (n : nat) (l : list A) (a b : A) :
  before (firstn n l) a b -> before l a b.
Proof.
  revert l. induction n as [|n IH]; intros l H.
  - inversion H.
  - destruct l as [|x l]; simpl in H; [inversion H|].
    inversion H as [a' b' l' Hb|x' a' b' l' Hrest]; subst.
    + apply before_here. rewrite <- (firstn_skipn n l).
      apply in_or_app. left. exact Hb.
    + apply before_later. apply IH. exact Hrest.
Qed.

(** *** The stable sort *)

Section StableSort.

Context {A : Type} (cmp : A -> A -> Z) (rank : A -> Z) (good : A -> Prop).

(** On the elements that are [good] the comparator orders by [rank]. *)
Hypothesis cmp_rank :
  forall a b, good a -> good b -> (cmp a b <= 0)%Z <-> (rank a <= rank b)%Z.

Lemma sort_insert_perm (x : A) (l : list A) :
  Permutation (x :: l) (sort_insert cmp x l).
Proof.
  induction l as [|y l IH]; simpl; [reflexivity|].
  destruct (cmp x y <=? 0)%Z; [reflexivity|].
  rewrite perm_swap. apply perm_skip. exact IH.
Qed.

Lemma Array_sort_perm (l : list A) : Permutation l (Array_sort cmp l).
Proof.
  induction l as [|x l IH]; simpl; [reflexivity|].
  rewrite <- sort_insert_perm. apply perm_skip. exact IH.
Qed.

Lemma cmp_gt (x y : A) :
  good x -> good y -> (0 < cmp x y)%Z -> (rank y < rank x)%Z.
Proof.
  intros Hx Hy Hgt.
  destruct (Z.le_gt_cases (rank x) (rank y)) as [Hc|Hc]; [|lia].
  apply (cmp_rank x y Hx Hy) in Hc. lia.
Qed.

Lemma sort_insert_sorted (x : A) (l : list A) :
  good x -> Forall good l ->
  (forall a b, before l a b -> (rank a <= rank b)%Z) ->
  forall a b, before (sort_insert cmp x l) a b -> (rank a <= rank b)%Z.
Proof.
  intros Hx Hgood. induction Hgood as [|y l Hy Hgood IH]; simpl; intros Hl a b H.
  - inversion H as [a' b' l' Hb|x' a' b' l' Hrest]; subst;
      [destruct Hb | inversion Hrest].
  - destruct (Z.leb_spec (cmp x y) 0) as [Hle|Hgt].
    + inversion H as [a' b' l' Hb|x' a' b' l' Hrest]; subst.
      * apply (cmp_rank _ _ Hx Hy) in Hle. destruct Hb as [<-|Hb]; [exact Hle|].
        transitivity (rank y); [exact Hle|].
        apply Hl. apply before_here. exact Hb.
      * apply Hl. exact Hrest.
    + pose proof (cmp_gt x y Hx Hy Hgt) as Hxy.
      inversion H as [a' b' l' Hb|x' a' b' l' Hrest]; subst.
      * apply (Permutation_in _ (Permutation_sym (sort_insert_perm x l))) in Hb.
        destruct Hb as [<-|Hb]; [lia|].
        apply Hl. apply before_here. exact Hb.
      * apply IH; [|exact Hrest].
        intros a' b' Hab. apply Hl. apply before_later. exact Hab.
Qed.

Lemma Array_sort_sorted (l : list A) (a b : A) :
  Forall good l -> before (Array_sort cmp l) a b -> (rank a <= rank b)%Z.
Proof.
  intros Hgood. revert a b.
  induction Hgood as [|x l Hx Hgood IH]; simpl; intros a b H.
  - inversion H.
  - apply (sort_insert_sorted x (Array_sort cmp l)); try assumption.
    apply (Permutation_Forall (Array_sort_perm l)). exact Hgood.
Qed.

Lemma sort_insert_stable (r : Z) (x : A) (l : list A) :
  good x -> Forall good l ->
  filter (fun e => (rank e =? r)%Z) (sort_insert cmp x l)
  = filter (fun e => (rank e =? r)%Z) (x :: l).
Proof.
  intros Hx Hgood. induction Hgood as [|y l Hy Hgood IH]; [reflexivity|].
  cbn [sort_insert].
  destruct (Z.leb_spec (cmp x y) 0) as [Hle|Hgt]; [reflexivity|].
  pose proof (cmp_gt x y Hx Hy Hgt) as Hxy.
  cbn [filter] in *. rewrite IH.
  destruct (Z.eqb_spec (rank x) r), (Z.eqb_spec (rank y) r);
    try reflexivity; lia.
Qed.

Lemma Array_sort_stable (r : Z) (l : list A) :
  Forall good l ->
  filter (fun e => (rank e =? r)%Z) (Array_sort cmp l)
  = filter (fun e => (rank e =? r)%Z) l.
Proof.
  intros Hgood. induction Hgood as [|x l Hx Hgood IH]; [reflexivity|].
  cbn [Array_sort fold_right]. fold (Array_sort cmp l).
  rewrite sort_insert_stable; [|exact Hx|].
  - cbn [filter]. rewrite IH. reflexivity.
  - apply (Permutation_Forall (Array_sort_perm l)). exact Hgood.
Qed.

(** Elements of equal rank keep their relative order. *)
Lemma Array_sort_keeps_ties (l : list A) (a b : A) :
  Forall good l ->
  before (Array_sort cmp l) a b -> rank a = rank b -> before l a b.
Proof.
  intros Hgood H Hab.
  apply (before_filter (fun e => (rank e =? rank a)%Z)).
  rewrite <- Array_sort_stable by exact Hgood.
  apply filter_before; [exact H | apply Z.eqb_refl |].
  rewrite Hab. apply Z.eqb_refl.
Qed.

End StableSort.

(** *** The counting reduce *)

Lemma bump_keys (t : string) (C : Counts) :
  map fst (bump t C)
  = if in_dec string_dec t (map fst C) then map fst C else map fst C ++ [t].
Proof.
  induction C as [|[key m] rest IH]; simpl; [reflexivity|].
  destruct (String.eqb_spec key t) as [He|Hne]; simpl.
  - destruct (string_dec key t) as [He'|Hn]; [reflexivity | contradiction].
  - rewrite IH. destruct (string_dec key t) as [He|Hne']; [contradiction|].
    destruct (in_dec string_dec t (map fst rest)); reflexivity.
Qed.

Lemma bump_In (t : string) (C : Counts) (k : string) (v : Count) :
  NoDup (map fst C) ->
  In (k, v) (bump t C) ->
  (k <> t /\ In (k, v) C) \/
  (k = t /\ ~ In t (map fst C) /\
   v = if inherited t then NotANumber else Number 1) \/
  (k = t /\ exists w, In (t, w) C /\ v = add_one w).
Proof.
  induction C as [|[key m] rest IH]; simpl; intros Hnd H.
  - destruct H as [H|[]]. injection H as Hk Hv. subst k v.
    right. left. repeat split. intros [].
  - inversion Hnd as [|? ? Hnotin Hnd']; subst.
    destruct (String.eqb_spec key t) as [He|Hne].
    + subst key. destruct H as [H|H].
      * injection H as Hk Hv. subst k v. right. right. split; [reflexivity|].
        exists m. split; [left; reflexivity | reflexivity].
      * left. split; [|right; exact H].
        intros ->. apply Hnotin. apply (in_map fst) in H. exact H.
    + destruct H as [H|H].
      * injection H as Hk Hv. subst k v. left. split; [exact Hne | left; reflexivity].
      * destruct (IH Hnd' H) as [[Hk Hin]|[(Hk & Hnot & Hv)|(Hk & w & Hin & Hv)]].
        -- left. split; [exact Hk | right; exact Hin].
        -- right. left. repeat split; try assumption.
           intros [He|Hin]; [contradiction | apply Hnot; exact Hin].
        -- right. right. split; [exact Hk|].
           exists w. split; [right; exact Hin | exact Hv].
Qed.

Lemma own_tag_inherited (t : string) :
  own_tag t -> inherited t = false /\ (t =? "__proto__")%string = false.
Proof.
  unfold own_tag, inherited. intros H. split.
  - destruct (existsb (String.eqb t) Object_prototype_keys) eqn:He; [|reflexivity].
    exfalso. apply H. apply existsb_exists in He. destruct He as (k & Hk & He).
    apply String.eqb_eq in He. subst k. exact Hk.
  - apply String.eqb_neq. intros ->. apply H. simpl. tauto.
Qed.

(** Whatever the tags, the keys of the accumulator are tags met so far. *)
Lemma count_tag_keys (tags : list string) (acc : Counts) (k : string) :
  In k (map fst (fold_left count_tag tags acc)) ->
  In k (map fst acc) \/ In k tags.
Proof.
  revert acc. induction tags as [|t tags IH]; intros acc H; simpl in *.
  - left. exact H.
  - apply IH in H. destruct H as [H|H]; [|right; right; exact H].
    unfold count_tag in H. destruct (t =? "__proto__")%string; [left; exact H|].
    rewrite bump_keys in H.
    destruct (in_dec string_dec t (map fst acc)); [left; exact H|].
    apply in_app_or in H. destruct H as [H|[<-|[]]]; [left; exact H|].
    right. left. reflexivity.
Qed.

Lemma index_of_bound (a : string) (l : list string) :
  In a l -> index_of a l < length l.
Proof.
  induction l as [|x l IH]; simpl; intros H; [contradiction|].
  destruct (String.eqb_spec x a) as [_|Hne]; [lia|].
  destruct H as [H|H]; [contradiction|]. apply IH in H. lia.
Qed.

Lemma index_of_app (a : string) (l l' : list string) :
  In a l -> index_of a (l ++ l') = index_of a l.
Proof.
  induction l as [|x l IH]; simpl; intros H; [contradiction|].
  destruct (String.eqb_spec x a) as [_|Hne]; [reflexivity|].
  destruct H as [H|H]; [contradiction|]. rewrite IH; auto.
Qed.

Lemma index_of_last (a : string) (l : list string) :
  ~ In a l -> index_of a (l ++ [a]) = length l.
Proof.
  induction l as [|x l IH]; simpl; intros H.
  - rewrite String.eqb_refl. reflexivity.
  - destruct (String.eqb_spec x a) as [He|Hne]; [exfalso; auto|].
    rewrite IH; auto.
Qed.

Lemma counted_step (tags : list string) (C : Counts) (t : string) :
  own_tag t -> counted tags C -> counted (tags ++ [t]) (count_tag C t).
Proof.
  intros Hown (Hnd & Hkeys & Hcount & Horder).
  destruct (own_tag_inherited t Hown) as [Hinh Hproto].
  unfold count_tag. rewrite Hproto.
  assert (Hbefore : forall a b, before (map fst C) a b ->
                                index_of a (tags ++ [t]) < index_of b (tags ++ [t])).
  { intros a b Hab. destruct (before_In _ _ _ Hab) as [Ha Hb].
    rewrite !index_of_app by (apply Hkeys; assumption). apply Horder. exact Hab. }
  unfold counted. rewrite bump_keys.
  destruct (in_dec string_dec t (map fst C)) as [Hin|Hnotin].
  - split; [exact Hnd|]. split; [|split; [|exact Hbefore]].
    + intros k. rewrite in_app_iff, <- Hkeys. simpl. split; [auto|].
      intros [H|[<-|[]]]; assumption.
    + intros k v H. rewrite count_occ_app. simpl.
      destruct (bump_In _ _ _ _ Hnd H)
        as [[Hk HinC]|[(Hk & Hnot & Hv)|(Hk & w & HinC & Hv)]].
      * destruct (string_dec t k) as [He|Hne]; [congruence|].
        rewrite (Hcount _ _ HinC). f_equal. lia.
      * contradiction.
      * subst k. destruct (string_dec t t) as [He|Hn']; [|contradiction].
        rewrite Hv, (Hcount _ _ HinC). reflexivity.
  - split; [|split; [|split]].
    + apply NoDup_app_remove_l with (l := []). simpl.
      apply Permutation_NoDup with (l := t :: map fst C).
      * apply Permutation_cons_append.
      * constructor; assumption.
    + intros k. rewrite !in_app_iff, <- Hkeys. reflexivity.
    + intros k v H. rewrite count_occ_app. simpl.
      destruct (bump_In _ _ _ _ Hnd H)
        as [[Hk HinC]|[(Hk & Hnot & Hv)|(Hk & w & HinC & Hv)]].
      * destruct (string_dec t k) as [He|Hne]; [congruence|].
        rewrite (Hcount _ _ HinC). f_equal. lia.
      * subst k v. destruct (string_dec t t) as [He|Hn']; [|contradiction].
        assert (Hz : count_occ string_dec tags t = 0).
        { apply count_occ_not_In. rewrite <- Hkeys. exact Hnotin. }
        rewrite Hz, Hinh. reflexivity.
      * exfalso. apply Hnotin. apply (in_map fst) in HinC. exact HinC.
    + intros a b Hab. apply before_app in Hab.
      destruct Hab as [Hab|[Hab|[Ha Hb]]].
      * apply Hbefore. exact Hab.
      * inversion Hab as [a' b' l' Hb|x' a' b' l' Hrest]; subst;
          [destruct Hb | inversion Hrest].
      * destruct Hb as [<-|[]].
        rewrite index_of_app by (apply Hkeys; exact Ha).
        rewrite index_of_last by (rewrite <- Hkeys; exact Hnotin).
        apply index_of_bound. apply Hkeys. exact Ha.
Qed.

Lemma counted_fold (tags : list string) :
  Forall own_tag tags -> counted tags (fold_left count_tag tags []).
Proof.
  induction tags as [|t tags IH] using rev_ind; intros Hown.
  - simpl. repeat split; try (intros; contradiction); try constructor.
    + intros a b H. inversion H.
  - apply Forall_app in Hown. destruct Hown as [Hown Ht].
    rewrite fold_left_app. simpl. apply counted_step.
    + inversion Ht. assumption.
    + apply IH. exact Hown.
Qed.

(** *** Array-index keys *)

Lemma is_digit_range (c : ascii) :
  is_digit c = true -> 48 <= nat_of_ascii c <= 57.
Proof.
  unfold is_digit. intros H. apply andb_prop in H. destruct H as [H1 H2].
  apply Nat.leb_le in H1, H2. lia.
Qed.

Lemma digit_inj (c1 c2 : ascii) :
  is_digit c1 = true -> is_digit c2 = true ->
  nat_of_ascii c1 - 48 = nat_of_ascii c2 - 48 -> c1 = c2.
Proof.
  intros H1 H2 H. apply is_digit_range in H1, H2.
  rewrite <- (ascii_nat_embedding c1), <- (ascii_nat_embedding c2).
  f_equal. lia.
Qed.

Lemma decimal_value_bounds (s : string) (acc n : N) :
  decimal_value acc s = Some n ->
  (acc * 10 ^ N.of_nat (String.length s) <= n
   < (acc + 1) * 10 ^ N.of_nat (String.length s))%N.
Proof.
  revert acc. induction s as [|c r IH]; intros acc H.
  - simpl in H. injection H as <-. simpl. lia.
  - cbn [decimal_value] in H. destruct (is_digit c) eqn:Hc; [|discriminate].
    apply IH in H. apply is_digit_range in Hc.
    cbn [String.length]. rewrite Nat2N.inj_succ, N.pow_succ_r'.
    set (p := (10 ^ N.of_nat (String.length r))%N) in *.
    assert (Hd : (N.of_nat (nat_of_ascii c - 48) <= 9)%N) by lia.
    nia.
Qed.

Lemma decimal_value_inj (s1 s2 : string) (acc1 acc2 n : N) :
  String.length s1 = String.length s2 ->
  decimal_value acc1 s1 = Some n -> decimal_value acc2 s2 = Some n ->
  acc1 = acc2 /\ s1 = s2.
Proof.
  revert s2 acc1 acc2.
  induction s1 as [|c1 r1 IH]; intros [|c2 r2] acc1 acc2 Hlen H1 H2;
    try discriminate Hlen.
  - simpl in *. split; congruence.
  - cbn [decimal_value] in H1, H2.
    destruct (is_digit c1) eqn:Hc1; [|discriminate].
    destruct (is_digit c2) eqn:Hc2; [|discriminate].
    injection Hlen as Hlen.
    destruct (IH _ _ _ Hlen H1 H2) as [Hacc ->].
    pose proof (is_digit_range _ Hc1). pose proof (is_digit_range _ Hc2).
    assert (Hd : nat_of_ascii c1 - 48 = nat_of_ascii c2 - 48) by lia.
    split; [lia|]. f_equal. apply digit_inj; assumption.
Qed.

(** The numeral of an array index that starts with a digit other than 0. *)
Lemma arrayIndex_leading (c : ascii) (r : string) (i : N) :
  (c =? "0")%char = false ->
  arrayIndex (String c r) = Some i ->
  decimal_value 0 (String c r) = Some i /\
  (10 ^ N.of_nat (String.length r) <= i
   < 10 ^ N.of_nat (S (String.length r)))%N.
Proof.
  intros Hc H. cbn [arrayIndex] in H. rewrite Hc in H.
  destruct (decimal_value 0 (String c r)) as [n|] eqn:Hn; [|discriminate].
  destruct (n <=? 4294967294)%N; [|discriminate]. injection H as <-.
  split; [reflexivity|].
  cbn [decimal_value] in Hn. destruct (is_digit c) eqn:Hd; [|discriminate].
  apply decimal_value_bounds in Hn. apply is_digit_range in Hd.
  assert (Hne : nat_of_ascii c <> 48).
  { intros He. apply Ascii.eqb_neq in Hc. apply Hc.
    rewrite <- (ascii_nat_embedding c), He. reflexivity. }
  rewrite Nat2N.inj_succ, N.pow_succ_r'.
  set (p := (10 ^ N.of_nat (String.length r))%N) in *.
  assert (Hlo : (1 <= N.of_nat (nat_of_ascii c - 48) <= 9)%N) by lia.
  nia.
Qed.

(** Distinct keys are distinct array indices. *)
Lemma arrayIndex_inj (a b : string) (i : N) :
  arrayIndex a = Some i -> arrayIndex b = Some i -> a = b.
Proof.
  destruct a as [|ca ra]; [discriminate|]. destruct b as [|cb rb]; [discriminate|].
  intros Ha Hb.
  destruct (ca =? "0")%char eqn:Hca; destruct (cb =? "0")%char eqn:Hcb.
  - cbn [arrayIndex] in Ha, Hb. rewrite Hca in Ha. rewrite Hcb in Hb.
    apply Ascii.eqb_eq in Hca, Hcb. subst ca cb.
    destruct ra; [|discriminate]. destruct rb; [|discriminate]. reflexivity.
  - cbn [arrayIndex] in Ha. rewrite Hca in Ha.
    destruct ra; [|discriminate]. injection Ha as <-.
    destruct (arrayIndex_leading _ _ _ Hcb Hb) as [_ [Hlo _]].
    pose proof (N.pow_nonzero 10 (N.of_nat (String.length rb))). lia.
  - cbn [arrayIndex] in Hb. rewrite Hcb in Hb.
    destruct rb; [|discriminate]. injection Hb as <-.
    destruct (arrayIndex_leading _ _ _ Hca Ha) as [_ [Hlo _]].
    pose proof (N.pow_nonzero 10 (N.of_nat (String.length ra))). lia.
  - destruct (arrayIndex_leading _ _ _ Hca Ha) as [Hva [Hloa Hhia]].
    destruct (arrayIndex_leading _ _ _ Hcb Hb) as [Hvb [Hlob Hhib]].
    assert (Hlen : String.length ra = String.length rb).
    { destruct (Nat.lt_trichotomy (String.length ra) (String.length rb))
        as [Hlt|[He|Hgt]]; [exfalso|exact He|exfalso].
      - assert ((10 ^ N.of_nat (S (String.length ra))
                 <= 10 ^ N.of_nat (String.length rb))%N)
          by (apply N.pow_le_mono_r; lia).
        lia.
      - assert ((10 ^ N.of_nat (S (String.length rb))
                 <= 10 ^ N.of_nat (String.length ra))%N)
          by (apply N.pow_le_mono_r; lia).
        lia. }
    apply (decimal_value_inj _ _ 0%N 0%N i); [simpl; lia | assumption..].
Qed.

Lemma before_distinct {A : Type} (l : list A) (a b : A) :
  NoDup l -> before l a b -> a <> b.
Proof.
  intros Hnd H. induction H as [a b l Hb|x a b l _ IH].
  - apply NoDup_cons_iff in Hnd. intros He. subst b. apply (proj1 Hnd Hb).
  - apply NoDup_cons_iff in Hnd. apply IH. apply Hnd.
Qed.

(** A property is determined by its key. *)
Lemma keys_determine (C : Counts) (x y : string * Count) :
  NoDup (map fst C) -> In x C -> In y C -> fst x = fst y -> x = y.
Proof.
  induction C as [|e C IH]; cbn [map In]; intros Hnd Hx Hy Hk; [contradiction|].
  apply NoDup_cons_iff in Hnd. destruct Hnd as [Hfresh Hnd].
  destruct Hx as [Hx|Hx], Hy as [Hy|Hy].
  - congruence.
  - exfalso. apply Hfresh. subst e. rewrite Hk. apply in_map. exact Hy.
  - exfalso. apply Hfresh. subst e. rewrite <- Hk. apply in_map. exact Hx.
  - apply IH; assumption.
Qed.

(** *** Property order and the final result *)

Lemma Object_entries_In (C : Counts) (x : string * Count) :
  In x (Object_entries C) -> In x C.
Proof.
  unfold Object_entries. intros H. apply in_app_or in H. destruct H as [H|H].
  - apply (Permutation_in _ (Permutation_sym (Array_sort_perm _ _))) in H.
    apply filter_In in H. apply H.
  - apply filter_In in H. apply H.
Qed.

Lemma Forall_any {A : Type} (l : list A) : Forall (fun _ => True) l.
Proof. induction l; constructor; auto. Qed.

Lemma Object_entries_order (tweets : list Tweet) (x y : string * Count) :
  Forall own_tag (flat_map hashtags tweets) ->
  before (Object_entries (hashtagCount tweets)) x y ->
  entries_order tweets (fst x) (fst y).
Proof.
  unfold Object_entries, entries_order, first_seen, hashtagCount.
  set (tags := flat_map hashtags tweets). intros Hown.
  destruct (counted_fold tags Hown) as (Hnd & _ & _ & Horder).
  set (C := fold_left count_tag tags []) in *.
  intros H. apply before_app in H. destruct H as [H|[H|[Hx Hy]]].
  - assert (Hne : fst x <> fst y).
    { assert (Hxy : x <> y).
      { apply (fun Hd => before_distinct _ _ _ Hd H).
        eapply Permutation_NoDup; [apply Array_sort_perm|].
        apply NoDup_filter. apply (NoDup_map_inv fst). exact Hnd. }
      destruct (before_In _ _ _ H) as [Hx Hy].
      apply (Permutation_in _ (Permutation_sym (Array_sort_perm _ _))) in Hx, Hy.
      apply filter_In in Hx, Hy.
      intros Hk. apply Hxy.
      apply (keys_determine C); [exact Hnd | apply Hx | apply Hy | exact Hk]. }
    assert (Hrank : forall a b : string * Count, True -> True ->
               (indexValue (fst a) - indexValue (fst b) <= 0)%Z
               <-> (indexValue (fst a) <= indexValue (fst b))%Z) by (intros; lia).
    pose proof (Array_sort_sorted _ (fun e => indexValue (fst e)) (fun _ => True)
                  Hrank _ _ _ (Forall_any _) H) as Hle.
    destruct (before_In _ _ _ H) as [Hx Hy].
    apply (Permutation_in _ (Permutation_sym (Array_sort_perm _ _))) in Hx, Hy.
    apply filter_In in Hx, Hy. destruct Hx as [_ Hx], Hy as [_ Hy].
    unfold isArrayIndex, indexValue in *.
    destruct (arrayIndex (fst x)) as [i|] eqn:Hi; [|discriminate].
    destruct (arrayIndex (fst y)) as [j|] eqn:Hj; [|discriminate].
    destruct (N.eq_dec i j) as [He|Hij]; [|lia].
    subst j. exfalso. apply Hne. apply (arrayIndex_inj _ _ i); assumption.
  - destruct (before_In _ _ _ H) as [Hx Hy].
    apply filter_In in Hx, Hy. destruct Hx as [_ Hx], Hy as [_ Hy].
    unfold isArrayIndex in *.
    destruct (arrayIndex (fst x)), (arrayIndex (fst y)); try discriminate.
    apply Horder. apply map_before. apply before_filter in H. exact H.
  - apply (Permutation_in _ (Permutation_sym (Array_sort_perm _ _))) in Hx.
    apply filter_In in Hx, Hy. destruct Hx as [_ Hx], Hy as [_ Hy].
    unfold isArrayIndex in *.
    destruct (arrayIndex (fst x)), (arrayIndex (fst y)); try discriminate.
    exact I.
Qed.

Lemma sorted_entries_key (tweets : list Tweet) (x : string * Count) :
  In x (Array_sort byCount (Object_entries (hashtagCount tweets))) ->
  In (fst x) (flat_map hashtags tweets).
Proof.
  intros H.
  apply (Permutation_in _ (Permutation_sym (Array_sort_perm _ _))) in H.
  apply Object_entries_In in H. apply (in_map fst) in H.
  apply count_tag_keys in H. destruct H as [[]|H]. exact H.
Qed.

Lemma hashtagCount_value (tweets : list Tweet) (x : string * Count) :
  Forall own_tag (flat_map hashtags tweets) ->
  In x (Object_entries (hashtagCount tweets)) ->
  snd x = Number (occurrences tweets (fst x)).
Proof.
  unfold hashtagCount, occurrences. intros Hown H.
  apply Object_entries_In in H.
  destruct (counted_fold _ Hown) as (_ & _ & Hcount & _).
  destruct x as [k v]. apply Hcount. exact H.
Qed.

(** The entries whose value is a number, which [byCount] orders by
    decreasing value. *)
Lemma byCount_rank (a b : string * Count) :
  (exists n, snd a = Number n) -> (exists n, snd b = Number n) ->
  (byCount a b <= 0)%Z
  <-> (match snd a with Number n => - Z.of_nat n | NotANumber => 0 end
       <= match snd b with Number n => - Z.of_nat n | NotANumber => 0 end)%Z.
Proof.
  intros [n Ha] [m Hb]. unfold byCount. rewrite Ha, Hb. lia.
Qed.

(** C6, as the specification states it, fails on ties between a tag that
    is an array index and a tag met earlier: [Object.entries] lists the
    property "1" before the property "b", although "b" came first. *)
Lemma getTopHashtags_ties_counterexample :
  getTopHashtags [tagged ["b"; "1"]] 3 = ["1"; "b"] /\
  occurrences [tagged ["b"; "1"]] "1" = occurrences [tagged ["b"; "1"]] "b" /\
  first_seen [tagged ["b"; "1"]] "b" < first_seen [tagged ["b"; "1"]] "1" /\
  ~ topHashtags_first_seen_ties [tagged ["b"; "1"]] 3.
Proof.
  split; [reflexivity|]. split; [reflexivity|]. split; [cbv; lia|].
  intros (_ & _ & _ & Hties).
  specialize (Hties "1" "b").
  assert (Hb : before (getTopHashtags [tagged ["b"; "1"]] 3) "1" "b").
  { apply before_here. left. reflexivity. }
  specialize (Hties Hb eq_refl). cbv in Hties. lia.
Qed.

(** A tag that names an inherited property is stored with a string, which
    the comparator cannot order: the tag met once stays in front of the tag
    met twice. *)
Lemma getTopHashtags_inherited_key :
  getTopHashtags [tagged ["constructor"; "a"; "a"]] 3 = ["constructor"; "a"] /\
  occurrences [tagged ["constructor"; "a"; "a"]] "constructor" = 1 /\
  occurrences [tagged ["constructor"; "a"; "a"]] "a" = 2.
Proof. repeat split. Qed.

(** A tag [__proto__] creates no property and is never returned. *)
Lemma getTopHashtags_proto :
  getTopHashtags [tagged ["__proto__"; "a"; "__proto__"]] 3 = ["a"].
Proof. reflexivity. Qed.

(** C6 (amended): for every list of posts, [getTopHashtags] returns at most
    [limit] entries (3 by default), each a hashtag of the input; when no
    hashtag is the name of a property inherited from [Object.prototype], the
    entries come by non-increasing number of occurrences, and tags with the
    same number of occurrences come in the order of [Object.entries]:
    array-index tags first, by ascending value, then the other tags in
    first-encountered order. *)
Theorem getTopHashtags_ordered (tweets : list Tweet) (limit : nat) :
  length (getTopHashtags tweets limit) <= limit /\
  length (getTopHashtags tweets default_limit) <= 3 /\
  (forall tag, In tag (getTopHashtags tweets limit) ->
               In tag (flat_map hashtags tweets)) /\
  (Forall own_tag (flat_map hashtags tweets) ->
   (forall a b, before (getTopHashtags tweets limit) a b ->
                occurrences tweets b <= occurrences tweets a) /\
   (forall a b, before (getTopHashtags tweets limit) a b ->
                occurrences tweets a = occurrences tweets b ->
                entries_order tweets a b)).
Proof.
  unfold getTopHashtags.
  set (E := Object_entries (hashtagCount tweets)).
  set (S := Array_sort byCount E).
  split; [|split; [|split]].
  - rewrite length_map. apply firstn_le_length.
  - rewrite length_map. apply firstn_le_length.
  - intros tag H. apply in_map_iff in H. destruct H as (x & <- & H).
    apply sorted_entries_key. fold E. fold S.
    rewrite <- (firstn_skipn limit S). apply in_or_app. left. exact H.
  - intros Hown.
    assert (Hgood : Forall (fun e : string * Count => exists n, snd e = Number n) E).
    { apply Forall_forall. intros x Hx. eexists.
      apply (hashtagCount_value tweets x Hown Hx). }
    assert (Hpairs : forall a b, before (map fst (firstn limit S)) a b ->
              exists x y, fst x = a /\ fst y = b /\ before S x y /\
                          snd x = Number (occurrences tweets a) /\
                          snd y = Number (occurrences tweets b)).
    { intros a b H. apply before_map in H. destruct H as (x & y & Hx & Hy & H).
      apply before_firstn in H. exists x, y.
      destruct (before_In _ _ _ H) as [HxS HyS].
      apply (Permutation_in _ (Permutation_sym (Array_sort_perm _ _))) in HxS, HyS.
      subst a b. repeat split; try assumption;
        apply hashtagCount_value; assumption. }
    split.
    + intros a b H. destruct (Hpairs a b H) as (x & y & _ & _ & HS & Hx & Hy).
      pose proof (Array_sort_sorted byCount _ _ byCount_rank _ _ _ Hgood HS) as Hle.
      cbv beta in Hle. rewrite Hx, Hy in Hle. lia.
    + intros a b H Heq.
      destruct (Hpairs a b H) as (x & y & Ha & Hb & HS & Hx & Hy).
      subst a b. apply Object_entries_order; [exact Hown|].
      apply (Array_sort_keeps_ties byCount _ _ byCount_rank _ _ _ Hgood HS).
      cbv beta. rewrite Hx, Hy, Heq. reflexivity.
Qed.

(** ** Running programs *)

Lemma exec_bind {A B : Type} (o : Oracle) (p : Prog A) (f : A -> Prog B)
  (flag : bool) (h : list Event) :
  exec o (bind p f) flag h =
  match exec o p flag h with
  | (inr a, flag', tr) =>
      match exec o (f a) flag' (h ++ tr) with
      | (r, flag'', tr') => (r, flag'', tr ++ tr')
      end
  | (inl e, flag', tr) => (inl e, flag', tr)
  end.
Proof.
  revert flag h. induction p as [a|e|k IH|b k IH|X c k IH]; intros flag h; simpl.
  - rewrite app_nil_r. destruct (exec o (f a) flag h) as [[r s] tr]. reflexivity.
  - reflexivity.
  - apply IH.
  - apply IH.
  - rewrite IH.
    destruct (exec o (k (o h X c)) flag (h ++ [Ev c (o h X c)])) as [[[e|a] s] tr].
    + reflexivity.
    + rewrite <- app_assoc. simpl.
      destruct (exec o (f a) s (h ++ Ev c (o h X c) :: tr)) as [[r s'] tr'].
      reflexivity.
Qed.

Lemma exec_try_catch {A : Type} (o : Oracle) (p : Prog A)
  (handler : Error -> Prog A) (flag : bool) (h : list Event) :
  exec o (try_catch p handler) flag h =
  match exec o p flag h with
  | (inr a, flag', tr) => (inr a, flag', tr)
  | (inl e, flag', tr) =>
      match exec o (handler e) flag' (h ++ tr) with
      | (r, flag'', tr') => (r, flag'', tr ++ tr')
      end
  end.
Proof.
  revert flag h. induction p as [a|e|k IH|b k IH|X c k IH]; intros flag h; simpl.
  - reflexivity.
  - rewrite app_nil_r. destruct (exec o (handler e) flag h) as [[r s] tr].
    reflexivity.
  - apply IH.
  - apply IH.
  - rewrite IH.
    destruct (exec o (k (o h X c)) flag (h ++ [Ev c (o h X c)])) as [[[e|a] s] tr].
    + rewrite <- app_assoc. simpl.
      destruct (exec o (handler e) s (h ++ Ev c (o h X c) :: tr)) as [[r s'] tr'].
      reflexivity.
    + reflexivity.
Qed.

Lemma exec_Only {A : Type} (P : forall X : Type, Cmd X -> bool) (o : Oracle)
  (p : Prog A) (flag : bool) (h : list Event) :
  Only P p ->
  final_flag (exec o p flag h) = flag /\
  Forall (fun e => match e with Ev c _ => P _ c = true end)
         (trace (exec o p flag h)).
Proof.
  intros Hp. revert flag h.
  induction Hp as [a|e|X c k Hc _ IH]; intros flag h; simpl.
  - split; [reflexivity | constructor].
  - split; [reflexivity | constructor].
  - specialize (IH (o h X c) flag (h ++ [Ev c (o h X c)])).
    destruct (exec o (k (o h X c)) flag (h ++ [Ev c (o h X c)])) as [[r s] tr].
    unfold final_flag, trace in *. simpl in *. destruct IH as [Hs Htr].
    split; [exact Hs | constructor; assumption].
Qed.

Lemma Only_weaken {A : Type} (P Q : forall X : Type, Cmd X -> bool) (p : Prog A) :
  (forall X (c : Cmd X), P X c = true -> Q X c = true) -> Only P p -> Only Q p.
Proof.
  intros HPQ Hp. induction Hp as [a|e|X c k Hc _ IH]; constructor; auto.
Qed.

Lemma Only_bind {A B : Type} (P : forall X : Type, Cmd X -> bool)
  (p : Prog A) (f : A -> Prog B) :
  Only P p -> (forall a, Only P (f a)) -> Only P (bind p f).
Proof.
  intros Hp Hf. induction Hp as [a|e|X c k Hc _ IH]; simpl.
  - apply Hf.
  - constructor.
  - constructor; assumption.
Qed.

Lemma Only_try_catch {A : Type} (P : forall X : Type, Cmd X -> bool)
  (p : Prog A) (handler : Error -> Prog A) :
  Only P p -> (forall e, Only P (handler e)) -> Only P (try_catch p handler).
Proof.
  intros Hp Hh. induction Hp as [a|e|X c k Hc _ IH]; simpl.
  - constructor.
  - apply Hh.
  - constructor; assumption.
Qed.

Lemma Only_await {A : Type} (P : forall X : Type, Cmd X -> bool)
  (c : Cmd (Result A)) :
  P _ c = true -> Only P (await c).
Proof.
  intros Hc. unfold await. constructor; [exact Hc|].
  intros [e|a]; constructor.
Qed.


(** ** Collection stage *)

Lemma clock_length (o : Oracle) (h : list Event) (n : nat) :
  length (clock o h n) = n.
Proof.
  revert h. induction n as [|n IH]; intros h; simpl; [reflexivity|].
  rewrite IH. reflexivity.
Qed.

Lemma exec_filterValid (o : Oracle) (userTweets : list Tweet) (flag : bool)
  (h : list Event) :
  exec o (filterValid userTweets) flag h =
  (inr (validTweets (clock o h (length userTweets)) userTweets), flag,
   map (Ev Date_now) (clock o h (length userTweets))).
Proof.
  revert h. induction userTweets as [|tweet rest IH]; intros h; simpl.
  - reflexivity.
  - rewrite exec_bind, IH. simpl.
    rewrite List.app_nil_r. reflexivity.
Qed.

Lemma exec_collectUser (o : Oracle) (username : string)
  (tweetsByUser : list Tweet) (flag : bool) (h : list Event) :
  exec o (collectUser username tweetsByUser) flag h =
  match o h _ (fetchSearchTweets ("from:" ++ username) 3) with
  | inl e =>
      (inr tweetsByUser, flag,
       [Ev (fetchSearchTweets ("from:" ++ username) 3) (inl e)])
  | inr userTweets =>
      let h1 := h ++ [Ev (fetchSearchTweets ("from:" ++ username) 3)
                         (inr userTweets)] in
      let nows := clock o h1 (length userTweets) in
      (inr (tweetsByUser ++ pushed_for (userTweets, nows)), flag,
       Ev (fetchSearchTweets ("from:" ++ username) 3) (inr userTweets)
       :: map (Ev Date_now) nows ++ [Ev wait tt])
  end.
Proof.
  unfold collectUser. rewrite exec_try_catch. cbn [await bind exec].
  destruct (o h _ (fetchSearchTweets ("from:" ++ username) 3)) as [e|userTweets].
  - reflexivity.
  - cbn [bind]. rewrite exec_bind, exec_filterValid. cbn [exec].
    set (h1 := h ++ [Ev (fetchSearchTweets ("from:" ++ username) 3)
                        (inr userTweets)]).
    destruct (o (h1 ++ map (Ev Date_now) (clock o h1 (length userTweets))) unit wait).
    unfold pushed_for. cbn [fst snd].
    destruct (validTweets (clock o h1 (length userTweets)) userTweets) as [|v vs];
      cbn [length Nat.ltb Nat.leb]; rewrite <- ?app_assoc, ?app_nil_r; reflexivity.
Qed.

Lemma readings_clock (nows : list Z) (x : unit) (tr : list Event) :
  readings (length nows) (map (Ev Date_now) nows ++ Ev wait x :: tr) = nows.
Proof.
  induction nows as [|now nows IH]; simpl; [reflexivity|].
  rewrite IH. reflexivity.
Qed.

Lemma fetched_clock (nows : list Z) (x : unit) (tr : list Event) :
  fetched (map (Ev Date_now) nows ++ Ev wait x :: tr) = fetched tr.
Proof.
  induction nows as [|now nows IH]; simpl; [reflexivity | exact IH].
Qed.

Lemma exec_collectLoop (o : Oracle) (users : list string)
  (tweetsByUser : list Tweet) (flag : bool) (h : list Event) :
  outcome (exec o (collectLoop users tweetsByUser) flag h)
  = inr (tweetsByUser
         ++ flat_map pushed_for
              (fetched (trace (exec o (collectLoop users tweetsByUser) flag h)))).
Proof.
  revert tweetsByUser h.
  induction users as [|username rest IH]; intros tweetsByUser h.
  - simpl. rewrite app_nil_r. reflexivity.
  - cbn [collectLoop]. rewrite exec_bind, exec_collectUser.
    destruct (o h _ (fetchSearchTweets ("from:" ++ username) 3)) as [e|userTweets].
    + match goal with
      | |- context [exec o (collectLoop rest ?acc) flag ?hh] =>
          specialize (IH acc hh);
          destruct (exec o (collectLoop rest acc) flag hh) as [[r s] tr]
      end.
      unfold outcome, trace in *. simpl in *. exact IH.
    + cbv beta iota zeta.
      set (h1 := h ++ [Ev (fetchSearchTweets ("from:" ++ username) 3)
                          (inr userTweets)]).
      set (nows := clock o h1 (length userTweets)).
      match goal with
      | |- context [exec o (collectLoop rest ?acc) flag ?hh] =>
          specialize (IH acc hh);
          destruct (exec o (collectLoop rest acc) flag hh) as [[r s] tr]
      end.
      unfold outcome, trace in *. cbn [fst snd] in *. rewrite IH.
      cbn [app fetched]. rewrite <- (app_assoc (map (Ev Date_now) nows)).
      cbn [app]. rewrite fetched_clock.
      replace (length userTweets) with (length nows)
        by (unfold nows; apply clock_length).
      rewrite readings_clock. cbn [flat_map app].
      rewrite <- !app_assoc. reflexivity.
Qed.

Lemma count_occ_flat_map (f : list Tweet * list Z) (l : list (list Tweet * list Z))
  (t : Tweet) :
  In f l ->
  count_occ Tweet_eq_dec (pushed_for f) t
  <= count_occ Tweet_eq_dec (flat_map pushed_for l) t.
Proof.
  induction l as [|g l IH]; simpl; intros H; [contradiction|].
  rewrite count_occ_app. destruct H as [->|H]; [lia|].
  apply IH in H. lia.
Qed.

Lemma validTweets_In (nows : list Z) (userTweets : list Tweet) (t : Tweet) :
  In t (validTweets nows userTweets) -> In t userTweets.
Proof.
  revert nows. induction userTweets as [|u rest IH]; intros [|now nows] H;
    simpl in *; try contradiction.
  destruct (isValid now u); [destruct H as [H|H]|]; eauto.
Qed.

Lemma collectTargetUsersTweets_outcome (o : Oracle) (client : Client)
  (flag : bool) (h : list Event) (users : list string) :
  TWITTER_TARGET_USERS client = Some users ->
  outcome (exec o (collectTargetUsersTweets client) flag h)
  = inr (flat_map pushed_for
           (fetched (trace (exec o (collectTargetUsersTweets client) flag h)))).
Proof.
  intros Husers. unfold collectTargetUsersTweets. rewrite Husers.
  destruct users as [|u rest]; [reflexivity|].
  cbn [length Nat.ltb Nat.leb]. apply exec_collectLoop.
Qed.

(** Every tweet of a successful fetch is returned, whether the filter keeps
    it or not. *)
Lemma collectTargetUsersTweets_keeps_fetched (o : Oracle) (client : Client)
  (flag : bool) (h : list Event) (users : list string)
  (userTweets : list Tweet) (nows : list Z) (t : Tweet) :
  TWITTER_TARGET_USERS client = Some users ->
  In (userTweets, nows)
     (fetched (trace (exec o (collectTargetUsersTweets client) flag h))) ->
  In t userTweets ->
  exists out,
    outcome (exec o (collectTargetUsersTweets client) flag h) = inr out /\
    In t out.
Proof.
  intros Husers Hf Ht. eexists. split.
  - apply (collectTargetUsersTweets_outcome o client flag h users Husers).
  - apply in_flat_map. exists (userTweets, nows). split; [exact Hf|].
    unfold pushed_for. apply in_or_app. right. exact Ht.
Qed.

(** The filter reads the clock once for every tweet of a fetch that
    succeeded. *)
Lemma collectLoop_readings (o : Oracle) (users : list string)
  (tweetsByUser : list Tweet) (flag : bool) (h : list Event) :
  Forall (fun f => length (snd f) = length (fst f))
         (fetched (trace (exec o (collectLoop users tweetsByUser) flag h))).
Proof.
  revert tweetsByUser h.
  induction users as [|username rest IH]; intros tweetsByUser h.
  - simpl. constructor.
  - cbn [collectLoop]. rewrite exec_bind, exec_collectUser.
    destruct (o h _ (fetchSearchTweets ("from:" ++ username) 3)) as [e|userTweets].
    + match goal with
      | |- context [exec o (collectLoop rest ?acc) flag ?hh] =>
          specialize (IH acc hh);
          destruct (exec o (collectLoop rest acc) flag hh) as [[r s] tr]
      end.
      unfold trace in *. simpl in *. exact IH.
    + cbv beta iota zeta.
      set (h1 := h ++ [Ev (fetchSearchTweets ("from:" ++ username) 3)
                          (inr userTweets)]).
      set (nows := clock o h1 (length userTweets)).
      match goal with
      | |- context [exec o (collectLoop rest ?acc) flag ?hh] =>
          specialize (IH acc hh);
          destruct (exec o (collectLoop rest acc) flag hh) as [[r s] tr]
      end.
      unfold trace in *. cbn [fst snd] in *.
      cbn [app fetched]. rewrite <- (app_assoc (map (Ev Date_now) nows)).
      cbn [app]. rewrite fetched_clock.
      assert (Hlen : length nows = length userTweets)
        by (unfold nows; apply clock_length).
      rewrite <- Hlen at 1. rewrite readings_clock. cbn [app].
      constructor; [exact Hlen | exact IH].
Qed.

Lemma collectTargetUsersTweets_readings (o : Oracle) (client : Client)
  (flag : bool) (h : list Event) :
  Forall (fun f => length (snd f) = length (fst f))
         (fetched (trace (exec o (collectTargetUsersTweets client) flag h))).
Proof.
  unfold collectTargetUsersTweets.
  destruct (TWITTER_TARGET_USERS client) as [users|]; [|constructor].
  destruct (0 <? length users); [apply collectLoop_readings | constructor].
Qed.

(** A tweet that passes the test with the reading taken for it is kept. *)
Lemma validTweets_combine (nows : list Z) (userTweets : list Tweet)
  (t : Tweet) (now : Z) :
  In (t, now) (combine userTweets nows) ->
  isValid now t = true ->
  In t (validTweets nows userTweets).
Proof.
  revert nows. induction userTweets as [|u rest IH]; intros [|n nows] H Hv;
    simpl in *; try contradiction.
  destruct H as [H|H].
  - injection H as Hu Hn. subst u n. rewrite Hv. left. reflexivity.
  - destruct (isValid n u); [right|]; apply IH; assumption.
Qed.

(** The occurrences of a tweet in what the fetches add: those in the
    fetched lists and those in the filtered lists. *)
Lemma count_occ_pushed (l : list (list Tweet * list Z)) (t : Tweet) :
  count_occ Tweet_eq_dec (flat_map pushed_for l) t
  = count_occ Tweet_eq_dec (flat_map fst l) t
    + count_occ Tweet_eq_dec
        (flat_map (fun f => validTweets (snd f) (fst f)) l) t.
Proof.
  induction l as [|f l IH]; cbn [flat_map]; [reflexivity|].
  unfold pushed_for at 1. rewrite !count_occ_app, IH. lia.
Qed.

(** C10: for every account whose fetch succeeds, [collectTargetUsersTweets]
    appends the tweets kept by the filter and then all the tweets fetched.
    The list returned is the concatenation of these pairs; the filter reads
    the clock once for every tweet fetched, so that every fetched tweet is
    tested; a tweet that is not a repost and is recent at the reading taken
    for it occurs at least twice in the list returned; and the occurrences
    of any tweet in that list are its occurrences among the tweets fetched
    plus its occurrences among the tweets kept by the filter. *)
Theorem collectTargetUsersTweets_appends_both (o : Oracle) (client : Client)
  (flag : bool) (h : list Event) (users : list string) :
  TWITTER_TARGET_USERS client = Some users ->
  outcome (exec o (collectTargetUsersTweets client) flag h)
  = inr (flat_map pushed_for
           (fetched (trace (exec o (collectTargetUsersTweets client) flag h)))) /\
  (forall userTweets nows t,
      In (userTweets, nows)
         (fetched (trace (exec o (collectTargetUsersTweets client) flag h))) ->
      In t (validTweets nows userTweets) ->
      2 <= count_occ Tweet_eq_dec
             (flat_map pushed_for
                (fetched (trace (exec o (collectTargetUsersTweets client) flag h))))
             t) /\
  Forall (fun f => length (snd f) = length (fst f))
         (fetched (trace (exec o (collectTargetUsersTweets client) flag h))) /\
  (forall userTweets nows t now,
      In (userTweets, nows)
         (fetched (trace (exec o (collectTargetUsersTweets client) flag h))) ->
      In (t, now) (combine userTweets nows) ->
      isRetweet t = false ->
      (now - timestamp t < 24 * 60 * 60)%Z ->
      2 <= count_occ Tweet_eq_dec
             (flat_map pushed_for
                (fetched (trace (exec o (collectTargetUsersTweets client) flag h))))
             t) /\
  (forall t,
      count_occ Tweet_eq_dec
        (flat_map pushed_for
           (fetched (trace (exec o (collectTargetUsersTweets client) flag h)))) t
      = count_occ Tweet_eq_dec
          (flat_map fst
             (fetched (trace (exec o (collectTargetUsersTweets client) flag h)))) t
        + count_occ Tweet_eq_dec
            (flat_map (fun f => validTweets (snd f) (fst f))
               (fetched (trace (exec o (collectTargetUsersTweets client) flag h))))
            t).
Proof.
  intros Husers.
  assert (Htwice : forall userTweets nows t,
             In (userTweets, nows)
                (fetched (trace (exec o (collectTargetUsersTweets client) flag h))) ->
             In t (validTweets nows userTweets) ->
             2 <= count_occ Tweet_eq_dec
                    (flat_map pushed_for
                       (fetched (trace (exec o (collectTargetUsersTweets client)
                                          flag h)))) t).
  { intros userTweets nows t Hf Ht.
    eapply Nat.le_trans; [|apply (count_occ_flat_map _ _ t Hf)].
    unfold pushed_for. cbn [fst snd]. rewrite count_occ_app.
    pose proof (proj1 (count_occ_In Tweet_eq_dec _ t) Ht).
    pose proof (proj1 (count_occ_In Tweet_eq_dec _ t) (validTweets_In _ _ _ Ht)).
    lia. }
  split; [apply (collectTargetUsersTweets_outcome o client flag h users Husers)|].
  split; [exact Htwice|].
  split; [apply collectTargetUsersTweets_readings|].
  split; [|intros t; apply count_occ_pushed].
  intros userTweets nows t now Hf Hin Horiginal Hrecent.
  apply (Htwice userTweets nows t Hf).
  apply (validTweets_combine nows userTweets t now Hin).
  unfold isValid. rewrite Horiginal. cbn [negb andb].
  apply Z.ltb_lt. exact Hrecent.
Qed.

(** C1 (the code departs from the claim): with one account whose fetch
    succeeds and returns a repost and a post from long before the clock
    reading, neither of which the filter keeps, the list returned by
    [collectTargetUsersTweets] still holds both, because the whole fetch
    result is appended after the filtered one. *)
Theorem collectTargetUsersTweets_keeps_unfiltered :
  outcome (exec (scripted (fun _ => inr [repost; stale]) 1700000000000
                   (inl TypeError) (inl TypeError))
             (collectTargetUsersTweets (sample_client (Some ["alice"]) 280))
             false [])
  = inr [repost; stale] /\
  isRetweet repost = true /\
  isValid 1700000000000 repost = false /\
  isValid 1700000000000 stale = false.
Proof. vm_compute. repeat split. Qed.

(** ** Publication stage *)

Lemma standard_attempts_app (a b : list Event) :
  standard_attempts (a ++ b) = standard_attempts a ++ standard_attempts b.
Proof.
  induction a as [|[X c x] a IH]; simpl; [reflexivity|].
  destruct c; simpl; rewrite IH; reflexivity.
Qed.

Lemma note_attempts_app (a b : list Event) :
  note_attempts (a ++ b) = note_attempts a ++ note_attempts b.
Proof.
  induction a as [|[X c x] a IH]; simpl; [reflexivity|].
  destruct c; simpl; rewrite IH; reflexivity.
Qed.

Lemma no_attempts (tr : list Event) :
  Forall (fun e => match e with Ev c _ => not_publishing _ c = true end) tr ->
  standard_attempts tr = [] /\ note_attempts tr = [].
Proof.
  induction 1 as [|[X c x] tr Hc _ [IHs IHn]]; simpl; [split; reflexivity|].
  destruct c; try discriminate; split; assumption.
Qed.

Lemma Only_createTweetObject (P : forall X : Type, Cmd X -> bool)
  (result : option TweetResult) (client : Client) (twitterUsername : string) :
  Only P (createTweetObject result client twitterUsername).
Proof.
  unfold createTweetObject. destruct result as [r|]; [|constructor].
  destruct (legacy r); constructor.
Qed.

Lemma Only_processAndCacheTweet (client : Client) (tweet : PostedTweet)
  (roomId : UUID) (rawTweetContent : string) :
  Only not_publishing (processAndCacheTweet client tweet roomId rawTweetContent).
Proof.
  unfold processAndCacheTweet. constructor; [reflexivity|]. intros now.
  repeat (apply Only_bind; [apply Only_await; reflexivity | intros _]).
  apply Only_await. reflexivity.
Qed.

(** After the publishing step, [postTweet] publishes nothing more. *)
Lemma postTweet_attempts (o : Oracle) (client : Client) (roomId : UUID)
  (rawTweetContent twitterUsername : string) (publish : Prog (option TweetResult))
  (flag : bool) (h : list Event) :
  let run :=
    exec o
      (try_catch
         (result <- publish ;;
          tweet <- createTweetObject result client twitterUsername ;;
          processAndCacheTweet client tweet roomId rawTweetContent)
         (fun error => Ret tt)) flag h in
  standard_attempts (trace run) = standard_attempts (trace (exec o publish flag h)) /\
  note_attempts (trace run) = note_attempts (trace (exec o publish flag h)).
Proof.
  cbv zeta. rewrite exec_try_catch, exec_bind.
  destruct (exec o publish flag h) as [[[e|result] s] tr]; cbn [exec trace snd].
  - rewrite app_nil_r. split; reflexivity.
  - assert (Hrest : Only not_publishing
                      (tweet <- createTweetObject result client twitterUsername ;;
                       processAndCacheTweet client tweet roomId rawTweetContent)).
    { apply Only_bind; [apply Only_createTweetObject|].
      intros tweet. apply Only_processAndCacheTweet. }
    destruct (exec_Only _ o _ s (h ++ tr) Hrest) as [_ Hquiet].
    destruct (exec o _ s (h ++ tr)) as [[[e|[]] s'] tr']; cbn [trace snd] in *;
      apply no_attempts in Hquiet; destruct Hquiet as [Hs Hn];
      rewrite ?app_nil_r, standard_attempts_app, note_attempts_app, Hs, Hn,
        !app_nil_r; split; reflexivity.
Qed.

Lemma substring_length (m : nat) (s : string) :
  String.length (substring 0 m s) <= m /\
  String.length (substring 0 m s) <= String.length s.
Proof.
  revert s. induction m as [|m IH]; intros s.
  - destruct s; simpl; lia.
  - destruct s as [|c s]; simpl; [lia|]. destruct (IH s). lia.
Qed.

Lemma last_sentence_end_bound (s : string) (n : nat) :
  last_sentence_end s = Some n -> n <= String.length s.
Proof.
  revert n. induction s as [|c s IH]; simpl; intros n H; [discriminate|].
  destruct (last_sentence_end s) as [k|].
  - injection H as <-. specialize (IH k eq_refl). lia.
  - destruct (is_sentence_end c); [|discriminate]. injection H as <-. lia.
Qed.

(** The modelled [truncateToCompleteSentence] stays within its limit. *)
Lemma truncateToCompleteSentence_length (text : string) (maxLength : nat) :
  String.length (truncateToCompleteSentence text maxLength) <= maxLength.
Proof.
  unfold truncateToCompleteSentence.
  destruct (Nat.leb_spec (String.length text) maxLength) as [Hle|Hgt]; [exact Hle|].
  destruct (substring_length maxLength text) as [Hmax _].
  destruct (last_sentence_end (substring 0 maxLength text)) as [n|] eqn:Hend;
    [|exact Hmax].
  apply last_sentence_end_bound in Hend.
  destruct (substring_length n (substring 0 maxLength text)). lia.
Qed.

Lemma substring_prefix (m : nat) (s : string) :
  exists rest, s = (substring 0 m s ++ rest)%string.
Proof.
  revert s. induction m as [|m IH]; intros s.
  - exists s. destruct s; reflexivity.
  - destruct s as [|c s]; simpl; [exists ""; reflexivity|].
    destruct (IH s) as [rest H]. exists rest. rewrite <- H. reflexivity.
Qed.

Lemma last_sentence_end_spec (s : string) (n : nat) :
  last_sentence_end s = Some n ->
  exists body c,
    substring 0 n s = (body ++ String c "")%string /\ is_sentence_end c = true.
Proof.
  revert n. induction s as [|c r IH]; simpl; intros n H; [discriminate|].
  destruct (last_sentence_end r) as [k|].
  - injection H as <-. destruct (IH k eq_refl) as (body & c' & Hb & Hc).
    exists (String c body), c'. simpl. rewrite Hb. split; [reflexivity | exact Hc].
  - destruct (is_sentence_end c) eqn:Hc; [|discriminate]. injection H as <-.
    exists "", c. simpl. destruct r; split; reflexivity || exact Hc.
Qed.

Lemma append_assoc (a b c : string) :
  ((a ++ b) ++ c = a ++ b ++ c)%string.
Proof. induction a as [|x a IH]; simpl; [reflexivity | rewrite IH; reflexivity]. Qed.

(** The modelled [truncateToCompleteSentence] returns a prefix of the text,
    and when it cuts a text in which a sentence ends within the limit, the
    result ends with the end of a sentence. *)
Lemma truncateToCompleteSentence_prefix (text : string) (maxLength : nat) :
  (exists rest, text = (truncateToCompleteSentence text maxLength ++ rest)%string) /\
  (maxLength < String.length text ->
   last_sentence_end (substring 0 maxLength text) <> None ->
   exists body c,
     truncateToCompleteSentence text maxLength = (body ++ String c "")%string /\
     is_sentence_end c = true).
Proof.
  unfold truncateToCompleteSentence. split.
  - destruct (String.length text <=? maxLength).
    + exists "". clear. induction text as [|c t IH]; simpl; congruence.
    + destruct (substring_prefix maxLength text) as [rest Hrest].
      destruct (last_sentence_end (substring 0 maxLength text)) as [n|].
      * destruct (substring_prefix n (substring 0 maxLength text)) as [rest' Hrest'].
        exists (rest' ++ rest)%string. rewrite <- append_assoc, <- Hrest'. exact Hrest.
      * exists rest. exact Hrest.
  - intros Hlong Hend.
    destruct (Nat.leb_spec (String.length text) maxLength) as [Hle|_]; [lia|].
    destruct (last_sentence_end (substring 0 maxLength text)) as [n|] eqn:Hn;
      [|contradiction].
    apply last_sentence_end_spec. exact Hn.
Qed.

(** C2, as the specification states it, fails when the configured
    [MAX_TWEET_LENGTH] is above the length that decides the route: a text of
    300 characters goes to long-form publication, and after the rejection
    the fallback publishes all 300 characters as a standard tweet. *)
Lemma postTweet_fallback_counterexample :
  let client := sample_client None 400 in
  let run :=
    exec (scripted (fun _ => inl TypeError) 0 (inr forbidden)
            (inr (Some sample_result)))
      (postTweet client long_text (stringToUuid "room") long_text "agent" None)
      false [] in
  String.length long_text = 300 /\
  DEFAULT_MAX_TWEET_LENGTH client = 280 /\
  note_attempts (trace run) = [long_text] /\
  standard_attempts (trace run) = [long_text] /\
  ~ (forall content, In content (standard_attempts (trace run)) ->
                     String.length content <= DEFAULT_MAX_TWEET_LENGTH client).
Proof.
  cbv zeta. split; [reflexivity|]. split; [reflexivity|].
  split; [vm_compute; reflexivity|]. split; [vm_compute; reflexivity|].
  intros H. specialize (H long_text).
  assert (Hin : In long_text
                  (standard_attempts
                     (trace
                        (exec (scripted (fun _ => inl TypeError) 0 (inr forbidden)
                                 (inr (Some sample_result)))
                           (postTweet (sample_client None 400) long_text
                              (stringToUuid "room") long_text "agent" None)
                           false [])))).
  { vm_compute. left. reflexivity. }
  apply H in Hin. vm_compute in Hin. lia.
Qed.

(** C2 (amended): [postTweet] attempts long-form publication exactly when
    the text is longer than [DEFAULT_MAX_TWEET_LENGTH], and otherwise
    attempts standard publication with the text, once.  When long-form
    publication answers with errors, one standard publication is attempted,
    with the text truncated by [truncateToCompleteSentence] to the
    configured [MAX_TWEET_LENGTH], which it does not exceed; in the other
    long-form cases no standard publication is attempted. *)
Theorem postTweet_routing (o : Oracle) (client : Client)
  (tweetTextForPosting : string) (roomId : UUID)
  (rawTweetContent twitterUsername : string)
  (media : option (list MediaData)) (flag : bool) (h : list Event) :
  let run :=
    exec o (postTweet client tweetTextForPosting roomId rawTweetContent
              twitterUsername media) flag h in
  if DEFAULT_MAX_TWEET_LENGTH client <? String.length tweetTextForPosting
  then
    note_attempts (trace run) = [tweetTextForPosting] /\
    match o h _ (sendNoteTweet tweetTextForPosting None media) with
    | inr noteTweetResult =>
        if 0 <? length (errors noteTweetResult)
        then
          standard_attempts (trace run)
          = [truncateToCompleteSentence tweetTextForPosting
               (MAX_TWEET_LENGTH client)] /\
          String.length (truncateToCompleteSentence tweetTextForPosting
                           (MAX_TWEET_LENGTH client))
          <= MAX_TWEET_LENGTH client
        else standard_attempts (trace run) = []
    | inl _ => standard_attempts (trace run) = []
    end
  else
    note_attempts (trace run) = [] /\
    standard_attempts (trace run) = [tweetTextForPosting].
Proof.
  cbv zeta. unfold postTweet.
  destruct (postTweet_attempts o client roomId rawTweetContent twitterUsername
              (if DEFAULT_MAX_TWEET_LENGTH client <? String.length tweetTextForPosting
               then handleNoteTweet client tweetTextForPosting None media
               else sendStandardTweet tweetTextForPosting None media) flag h)
    as [Hs Hn].
  cbv zeta in Hs, Hn. rewrite Hs, Hn. clear Hs Hn.
  destruct (DEFAULT_MAX_TWEET_LENGTH client <? String.length tweetTextForPosting).
  - unfold handleNoteTweet, sendStandardTweet, await. cbn [bind try_catch exec].
    destruct (o h _ (sendNoteTweet tweetTextForPosting None media))
      as [e|noteTweetResult]; cbn [bind try_catch exec trace snd note_attempts
                                     standard_attempts].
    + split; reflexivity.
    + destruct (0 <? length (errors noteTweetResult)).
      * cbn [bind try_catch exec].
        match goal with
        | |- context [o ?hh _ (sendTweet ?c ?i ?m)] =>
            destruct (o hh _ (sendTweet c i m)) as [e|[result|]]
        end; cbn [bind try_catch exec trace snd note_attempts standard_attempts];
          (split; [reflexivity|]);
          (split; [reflexivity | apply truncateToCompleteSentence_length]).
      * destruct (note_result noteTweetResult) as [[result|]|];
          cbn [bind try_catch exec trace snd note_attempts standard_attempts];
          split; reflexivity.
  - unfold sendStandardTweet, await. cbn [bind try_catch exec].
    destruct (o h _ (sendTweet tweetTextForPosting None media)) as [e|[result|]];
      cbn [bind try_catch exec trace snd note_attempts standard_attempts];
      split; reflexivity.
Qed.

(** ** Shapes of the stages *)

Lemma Only_filterValid (userTweets : list Tweet) :
  Only quiet_call (filterValid userTweets).
Proof.
  induction userTweets as [|tweet rest IH]; simpl.
  - constructor.
  - constructor; [reflexivity|]. intros now.
    apply Only_bind; [exact IH | intros; constructor].
Qed.

Lemma Only_collectUser (username : string) (tweetsByUser : list Tweet) :
  Only quiet_call (collectUser username tweetsByUser).
Proof.
  unfold collectUser. apply Only_try_catch; [|intros; constructor].
  apply Only_bind; [apply Only_await; reflexivity|]. intros userTweets.
  apply Only_bind; [apply Only_filterValid|]. intros validTweets.
  constructor; [reflexivity|]. intros; constructor.
Qed.

Lemma Only_collectLoop (users : list string) (tweetsByUser : list Tweet) :
  Only quiet_call (collectLoop users tweetsByUser).
Proof.
  revert tweetsByUser.
  induction users as [|username rest IH]; intros acc; cbn [collectLoop].
  - constructor.
  - apply Only_bind; [apply Only_collectUser | intros; apply IH].
Qed.

Lemma Only_collectTargetUsersTweets (client : Client) :
  Only quiet_call (collectTargetUsersTweets client).
Proof.
  unfold collectTargetUsersTweets.
  destruct (TWITTER_TARGET_USERS client) as [users|]; [|constructor].
  destruct (0 <? length users); [apply Only_collectLoop | constructor].
Qed.

Lemma Only_generateTrendSummary (client : Client) (tweets : list Tweet)
  (roomId : UUID) :
  Only quiet_call (generateTrendSummary client tweets roomId).
Proof.
  unfold generateTrendSummary. cbv zeta.
  apply Only_bind; [apply Only_await; reflexivity|]. intros state.
  apply Only_bind; [apply Only_await; reflexivity|]. intros; constructor.
Qed.

Lemma Only_generateReportContent (client : Client) (summary : MessageText)
  (roomId : UUID) :
  Only quiet_call (generateReportContent client summary roomId).
Proof.
  unfold generateReportContent. cbv zeta.
  apply Only_bind; [apply Only_await; reflexivity|]. intros state.
  apply Only_await. reflexivity.
Qed.

Lemma Only_postTweet (client : Client) (tweetTextForPosting : string)
  (roomId : UUID) (rawTweetContent twitterUsername : string)
  (media : option (list MediaData)) :
  Only any_call (postTweet client tweetTextForPosting roomId rawTweetContent
                   twitterUsername media).
Proof.
  assert (Hstd : forall content tweetId m,
             Only any_call (sendStandardTweet content tweetId m)).
  { intros. unfold sendStandardTweet.
    apply Only_try_catch; [|intros; constructor].
    apply Only_bind; [apply Only_await; reflexivity|].
    intros [result|]; constructor. }
  unfold postTweet. apply Only_try_catch; [|intros; constructor].
  apply Only_bind.
  - destruct (DEFAULT_MAX_TWEET_LENGTH client <? String.length tweetTextForPosting);
      [|apply Hstd].
    unfold handleNoteTweet. apply Only_try_catch; [|intros; constructor].
    apply Only_bind; [apply Only_await; reflexivity|]. intros res.
    destruct (0 <? length (errors res)); [apply Hstd|].
    destruct (note_result res); constructor.
  - intros result. apply Only_bind; [apply Only_createTweetObject|].
    intros tweet.
    apply (Only_weaken not_publishing); [reflexivity|].
    apply Only_processAndCacheTweet.
Qed.

Lemma Only_stages (client : Client) (roomId : UUID) :
  Only any_call (stages client roomId).
Proof.
  unfold stages.
  apply Only_bind;
    [apply (Only_weaken quiet_call); [reflexivity|];
     apply Only_collectTargetUsersTweets|].
  intros tweetsByUser.
  apply Only_bind;
    [apply (Only_weaken quiet_call); [reflexivity|];
     apply Only_generateTrendSummary|].
  intros summary.
  apply Only_bind;
    [apply (Only_weaken quiet_call); [reflexivity|];
     apply Only_generateReportContent|].
  intros reportContent. apply Only_postTweet.
Qed.

(** ** Persistence follows publication *)

Lemma Guarded_quiet {A B : Type} (p : Prog A) (f : A -> Prog B) :
  Only quiet_call p -> (forall a, Guarded (f a)) -> Guarded (bind p f).
Proof.
  intros Hp Hf. induction Hp as [a|e|X c k Hc _ IH]; simpl.
  - apply Hf.
  - constructor.
  - constructor.
    + unfold quiet_call in Hc. apply andb_prop in Hc. destruct Hc as [Hc _].
      destruct (persists c); [discriminate | reflexivity].
    + intros x _. apply IH.
Qed.

Lemma Guarded_try_catch {A : Type} (p : Prog A) (handler : Error -> Prog A) :
  Guarded p -> (forall e, Guarded (handler e)) -> Guarded (try_catch p handler).
Proof.
  intros Hp Hh.
  induction Hp as [a|e|k _ IH|b k _ IH|X c k Hc _ IH]; simpl;
    try (constructor; assumption).
  apply Hh.
Qed.

Lemma Guarded_finally_clear {A : Type} (p : Prog A) :
  Guarded p -> Guarded (try_finally p (SetProcessing false (Ret tt))).
Proof.
  intros Hp.
  induction Hp as [a|e|k _ IH|b k _ IH|X c k Hc _ IH]; simpl;
    repeat (constructor; try assumption).
Qed.

Lemma Guarded_not_persisting {A : Type} (p : Prog A) :
  Only quiet_call p -> Guarded p.
Proof.
  intros Hp. induction Hp as [a|e|X c k Hc _ IH]; constructor.
  - unfold quiet_call in Hc. apply andb_prop in Hc. destruct Hc as [Hc _].
    destruct (persists c); [discriminate | reflexivity].
  - intros x _. apply IH.
Qed.

Lemma Guarded_after (result : option TweetResult) (client : Client)
  (roomId : UUID) (rawTweetContent twitterUsername : string) :
  result = None ->
  Guarded (tweet <- createTweetObject result client twitterUsername ;;
           processAndCacheTweet client tweet roomId rawTweetContent).
Proof. intros ->. simpl. constructor. Qed.

Lemma Guarded_sendStandardTweet (client : Client) (content : string)
  (tweetId : option string) (media : option (list MediaData))
  (roomId : UUID) (rawTweetContent twitterUsername : string) :
  Guarded (result <- sendStandardTweet content tweetId media ;;
           tweet <- createTweetObject result client twitterUsername ;;
           processAndCacheTweet client tweet roomId rawTweetContent).
Proof.
  unfold sendStandardTweet, await. cbn [bind try_catch].
  constructor; [reflexivity|].
  intros [e|[result|]] Hpub; cbn [bind try_catch].
  - constructor.
  - discriminate Hpub.
  - apply Guarded_after. reflexivity.
Qed.

Lemma Guarded_postTweet (client : Client) (tweetTextForPosting : string)
  (roomId : UUID) (rawTweetContent twitterUsername : string)
  (media : option (list MediaData)) :
  Guarded (postTweet client tweetTextForPosting roomId rawTweetContent
             twitterUsername media).
Proof.
  unfold postTweet. apply Guarded_try_catch; [|intros; constructor].
  destruct (DEFAULT_MAX_TWEET_LENGTH client <? String.length tweetTextForPosting);
    [|apply Guarded_sendStandardTweet].
  unfold handleNoteTweet, await. cbn [bind try_catch].
  constructor; [reflexivity|].
  intros [e|res] Hpub; cbn [bind try_catch].
  - constructor.
  - cbn [published] in Hpub.
    destruct (errors res) as [|err errs]; cbn [length Nat.ltb Nat.leb Nat.eqb andb] in *.
    + destruct (note_result res) as [[result|]|]; cbn [bind try_catch].
      * discriminate Hpub.
      * apply Guarded_after. reflexivity.
      * constructor.
    + unfold sendStandardTweet, await. cbn [bind try_catch].
      constructor; [reflexivity|].
      intros [e|[result|]] Hpub'; cbn [bind try_catch].
      * constructor.
      * discriminate Hpub'.
      * apply Guarded_after. reflexivity.
Qed.

Lemma Guarded_runDailyReport (client : Client) : Guarded (runDailyReport client).
Proof.
  unfold runDailyReport. constructor. intros isProcessing.
  destruct (isProcessing || no_target_users client); [constructor|].
  constructor. apply Guarded_finally_clear.
  apply Guarded_try_catch; [|intros; constructor].
  unfold stages.
  apply Guarded_quiet; [apply Only_collectTargetUsersTweets|]. intros tweetsByUser.
  apply Guarded_quiet; [apply Only_generateTrendSummary|]. intros summary.
  apply Guarded_quiet; [apply Only_generateReportContent|]. intros reportContent.
  apply Guarded_postTweet.
Qed.

Lemma exec_Guarded {A : Type} (o : Oracle) (p : Prog A) (flag : bool)
  (h : list Event) :
  Guarded p -> persist_guarded (trace (exec o p flag h)) = true.
Proof.
  intros Hp. revert flag h.
  induction Hp as [a|e|k _ IH|b k _ IH|X c k Hc Hk IH]; intros flag h; simpl;
    try reflexivity; try apply IH.
  specialize (IH (o h X c)).
  destruct (exec o (k (o h X c)) flag (h ++ [Ev c (o h X c)])) as [[r s] tr] eqn:Hrun.
  cbn [trace snd persist_guarded].
  destruct (published (Ev c (o h X c))) eqn:Hpub; [reflexivity|].
  cbn [orb persisted]. rewrite Hc. cbn [negb andb].
  specialize (IH eq_refl flag (h ++ [Ev c (o h X c)])). rewrite Hrun in IH.
  exact IH.
Qed.

(** [persist_guarded] says that every persisting call comes after a
    successful publication. *)
Lemma persist_guarded_spec (tr : list Event) :
  persist_guarded tr = true <->
  (forall pre e post, tr = pre ++ e :: post -> persisted e = true ->
                      existsb published pre = true).
Proof.
  induction tr as [|e' tr IH]; simpl.
  - split; [|reflexivity]. intros _ pre e post H.
    destruct pre; discriminate H.
  - split.
    + intros H pre e post Heq He.
      destruct pre as [|e0 pre]; simpl in Heq; injection Heq as He' Htr; subst e' tr.
      * exfalso. rewrite He in H. simpl in H. rewrite orb_false_r in H.
        destruct e as [X c x]. destruct c; simpl in *; discriminate.
      * simpl. destruct (published e0); [reflexivity|]. simpl in *.
        apply andb_prop in H. destruct H as [_ H].
        apply (proj1 IH H pre e post eq_refl He).
    + intros H. destruct (published e') eqn:Hpub; [reflexivity|]. simpl.
      apply andb_true_intro. split.
      * destruct (persisted e') eqn:He; [|reflexivity].
        specialize (H [] e' tr eq_refl He). discriminate H.
      * apply IH. intros pre e post -> He.
        specialize (H (e' :: pre) e post eq_refl He). simpl in H.
        rewrite Hpub in H. exact H.
Qed.

Lemma persist_guarded_implies (tr : list Event) :
  persist_guarded tr = true ->
  implb (existsb persisted tr) (existsb published tr) = true.
Proof.
  induction tr as [|e tr IH]; simpl; [reflexivity|].
  destruct (published e); simpl; [intros _; apply implb_true_r|].
  intros H. apply andb_prop in H. destruct H as [He H].
  destruct (persisted e); [discriminate He|]. simpl. apply IH. exact H.
Qed.

(** C8: in every run of [runDailyReport], whatever the collaborators
    answer, no call that writes to the cache, the rooms or the memories is
    made before a publication has succeeded; a run without a successful
    publication makes no such call. *)
Theorem runDailyReport_persists_after_publication (o : Oracle) (client : Client)
  (flag : bool) (h : list Event) :
  persist_guarded (trace (exec o (runDailyReport client) flag h)) = true /\
  implb (existsb persisted (trace (exec o (runDailyReport client) flag h)))
        (existsb published (trace (exec o (runDailyReport client) flag h)))
  = true.
Proof.
  assert (H : persist_guarded (trace (exec o (runDailyReport client) flag h)) = true)
    by (apply exec_Guarded; apply Guarded_runDailyReport).
  split; [exact H | apply persist_guarded_implies; exact H].
Qed.

(** ** The in-flight guard *)

Lemma Finishing_stages (p : Prog unit) :
  Only any_call p ->
  Finishing (try_finally (try_catch p (fun error => Ret tt))
                         (SetProcessing false (Ret tt))).
Proof.
  intros Hp. induction Hp as [[]|e|X c k Hc _ IH]; simpl.
  - constructor.
  - constructor.
  - constructor. exact IH.
Qed.

Lemma exec_Finishing (o : Oracle) (p : Prog unit) (flag : bool) (h : list Event) :
  Finishing p ->
  outcome (exec o p flag h) = inr tt /\ final_flag (exec o p flag h) = false.
Proof.
  intros Hp. revert flag h. induction Hp as [|X c k _ IH]; intros flag h; simpl.
  - split; reflexivity.
  - specialize (IH (o h X c) flag (h ++ [Ev c (o h X c)])).
    destruct (exec o (k (o h X c)) flag (h ++ [Ev c (o h X c)])) as [[r s] tr].
    exact IH.
Qed.

Lemma settle_Finishing (p : Prog unit) (flag : bool) :
  Finishing p ->
  settle p flag = (Ret tt, false) \/
  (in_flight (fst (settle p flag)) = true /\ snd (settle p flag) = flag /\
   task_ok (fst (settle p flag))).
Proof.
  intros Hp. destruct Hp as [|X c k Hk]; simpl.
  - left. reflexivity.
  - right. repeat split. exact Hk.
Qed.

Lemma settle_runDailyReport_busy (client : Client) :
  settle (runDailyReport client) true = (Ret tt, true).
Proof. reflexivity. Qed.

Lemma settle_runDailyReport_idle (client : Client) :
  settle (runDailyReport client) false = (Ret tt, false) \/
  (in_flight (fst (settle (runDailyReport client) false)) = true /\
   snd (settle (runDailyReport client) false) = true /\
   task_ok (fst (settle (runDailyReport client) false))).
Proof.
  unfold runDailyReport. cbn [settle orb].
  destruct (no_target_users client); [left; reflexivity|].
  cbn [settle]. apply settle_Finishing. apply Finishing_stages. apply Only_stages.
Qed.

Lemma count_in_flight_app (l : list (Prog unit)) (p : Prog unit) :
  count_in_flight (l ++ [p])
  = count_in_flight l + (if in_flight p then 1 else 0).
Proof.
  unfold count_in_flight. rewrite filter_app, length_app. simpl.
  destruct (in_flight p); reflexivity.
Qed.

Lemma count_in_flight_replace (l : list (Prog unit)) (i : nat) (p q : Prog unit) :
  nth_error l i = Some q ->
  count_in_flight (replace_nth i p l) + (if in_flight q then 1 else 0)
  = count_in_flight l + (if in_flight p then 1 else 0).
Proof.
  unfold count_in_flight. revert i.
  induction l as [|y l IH]; intros [|i] H; simpl in *; try discriminate.
  - injection H as ->. destruct (in_flight p), (in_flight q); simpl; lia.
  - specialize (IH i H). destruct (in_flight y); simpl; lia.
Qed.

Lemma Forall_replace_nth {A : Type} (P : A -> Prop) (l : list A) (i : nat) (x : A) :
  Forall P l -> P x -> Forall P (replace_nth i x l).
Proof.
  intros Hl Hx. revert i.
  induction Hl as [|y l Hy Hl IH]; intros [|i]; simpl; constructor; auto.
Qed.

Lemma existsb_in_flight (l : list (Prog unit)) :
  existsb in_flight l = true <-> 1 <= count_in_flight l.
Proof.
  unfold count_in_flight. induction l as [|p l IH]; simpl.
  - split; [discriminate | lia].
  - destruct (in_flight p); simpl; [split; [lia | reflexivity] | exact IH].
Qed.

(** In every reachable state the invocations are finished or suspended
    with the [finally] clause ahead, and the guard is set exactly when one
    of them is suspended; no two are. *)
Lemma reachable_guard (client : Client) (s : System) :
  reachable client s ->
  Forall task_ok (invocations s) /\
  count_in_flight (invocations s) = (if isProcessing s then 1 else 0).
Proof.
  induction 1 as [|s _ [Hok Hcount]|s i answer _ [Hok Hcount]].
  - split; [constructor | reflexivity].
  - unfold invoke. cbn [invocations isProcessing].
    rewrite count_in_flight_app, Hcount.
    destruct (isProcessing s).
    + rewrite settle_runDailyReport_busy. cbn [fst snd in_flight]. split.
      * apply Forall_app. split; [exact Hok | repeat constructor].
      * reflexivity.
    + destruct (settle_runDailyReport_idle client) as [->|(Hfl & Hflag & Htask)].
      * cbn [fst snd in_flight]. split.
        -- apply Forall_app. split; [exact Hok | repeat constructor].
        -- reflexivity.
      * rewrite Hfl, Hflag. split.
        -- apply Forall_app. split; [exact Hok | repeat constructor; exact Htask].
        -- reflexivity.
  - unfold resume.
    destruct (nth_error (invocations s) i) as [[a|e|k|b k|X c k]|] eqn:Hnth;
      try (split; assumption).
    cbn [invocations isProcessing].
    assert (Htask : task_ok (Call c k)).
    { apply (proj1 (Forall_forall _ _) Hok). eapply nth_error_In. exact Hnth. }
    cbn [task_ok] in Htask.
    pose proof (count_in_flight_replace _ _
                  (fst (settle (k (answer X c)) (isProcessing s))) _ Hnth) as Hrep.
    cbn [in_flight] in Hrep.
    assert (Hflag : isProcessing s = true).
    { destruct (isProcessing s); [reflexivity|].
      assert (1 <= count_in_flight (invocations s)); [|lia].
      apply existsb_in_flight. apply existsb_exists.
      exists (Call c k). split; [eapply nth_error_In; exact Hnth | reflexivity]. }
    rewrite Hflag in *.
    destruct (settle_Finishing _ true (Htask (answer X c)))
      as [Heq|(Hfl & Hsnd & Hnext)].
    + rewrite Heq in *. cbn [fst snd in_flight] in *. split.
      * apply Forall_replace_nth; [exact Hok | exact I].
      * lia.
    + rewrite Hfl in Hrep. rewrite Hsnd. split.
      * apply Forall_replace_nth; [exact Hok | exact Hnext].
      * lia.
Qed.

(** C3: invoked while the [isProcessing] guard is set, [runDailyReport]
    returns at once without a call to any collaborator and leaves the guard
    as it is.  The guard is set whenever an earlier invocation is in flight,
    so an overlapping invocation adds a finished invocation to the system
    and nothing else: no stage runs and nothing is published. *)
Theorem runDailyReport_overlap_is_noop (client : Client) :
  (forall o h, exec o (runDailyReport client) true h = (inr tt, true, [])) /\
  (forall s,
      reachable client s ->
      existsb in_flight (invocations s) = true ->
      isProcessing s = true /\
      invoke client s
      = {| isProcessing := true;
           invocations := invocations s ++ [Ret tt];
           events := events s |}).
Proof.
  split; [reflexivity|].
  intros s Hs Hfl. destruct (reachable_guard client s Hs) as [_ Hcount].
  apply existsb_in_flight in Hfl.
  assert (Hflag : isProcessing s = true).
  { destruct (isProcessing s); [reflexivity | lia]. }
  split; [exact Hflag|].
  unfold invoke. rewrite Hflag, settle_runDailyReport_busy. reflexivity.
Qed.

(** C9: an invocation of [runDailyReport] that finds the guard clear
    returns with the guard clear, whatever the collaborators answer, so on
    the success path and on every failure path; and among overlapping
    invocations the guard is clear whenever none of them is in flight. *)
Theorem runDailyReport_clears_guard (client : Client) :
  (forall o h,
      outcome (exec o (runDailyReport client) false h) = inr tt /\
      final_flag (exec o (runDailyReport client) false h) = false) /\
  (forall s,
      reachable client s ->
      existsb in_flight (invocations s) = false ->
      isProcessing s = false).
Proof.
  split.
  - intros o h. unfold runDailyReport. cbn [exec orb].
    destruct (no_target_users client); [split; reflexivity|].
    cbn [exec]. apply exec_Finishing. apply Finishing_stages. apply Only_stages.
  - intros s Hs Hfl. destruct (reachable_guard client s Hs) as [_ Hcount].
    destruct (isProcessing s); [|reflexivity].
    assert (H : existsb in_flight (invocations s) = true)
      by (apply existsb_in_flight; lia).
    rewrite H in Hfl. discriminate Hfl.
Qed.

(** Without the setting, [runDailyReport] does nothing. *)
Lemma runDailyReport_no_setting (o : Oracle) (client : Client) (flag : bool)
  (h : list Event) :
  TWITTER_TARGET_USERS client = None ->
  exec o (runDailyReport client) flag h = (inr tt, flag, []).
Proof.
  intros H. unfold runDailyReport, no_target_users. rewrite H. cbn [exec].
  rewrite orb_true_r. reflexivity.
Qed.

(** With an empty list of accounts the guard lets the invocation through,
    and the first call it makes is the [composeState] of the summarization
    stage, on an analysis of no tweets. *)
Lemma runDailyReport_empty_list_first_call (o : Oracle) (client : Client)
  (h : list Event) :
  TWITTER_TARGET_USERS client = Some [] ->
  exists message keys answer rest,
    trace (exec o (runDailyReport client) false h)
    = Ev (composeState message keys) answer :: rest /\
    msg_text message
    = JSON_stringify {| totalTweets := 0; topHashtags := [];
                        sentiment := {| positive := 0; neutral := 0; negative := 0 |};
                        mostEngagedTweet := sentinel |}.
Proof.
  intros H. unfold runDailyReport, no_target_users, stages, collectTargetUsersTweets.
  rewrite H. cbn [orb exec length Nat.ltb Nat.leb bind].
  unfold generateTrendSummary, await. cbn [bind try_catch try_finally exec].
  match goal with
  | |- context [exec o ?p true ?hh] => destruct (exec o p true hh) as [[r s] tr]
  end.
  eexists _, _, _, _. cbn [trace snd]. split; reflexivity.
Qed.

(** C4 (the code departs from the claim): with an empty list of accounts
    and collaborators that succeed, [runDailyReport] runs the summarization
    stage on no tweets, publishes the generated text as a standard tweet and
    persists the result. *)
Theorem runDailyReport_empty_list_publishes :
  TWITTER_TARGET_USERS (sample_client (Some []) 280) = Some [] /\
  map label
    (trace (exec (scripted (fun _ => inr []) 0 (inl TypeError)
                    (inr (Some sample_result)))
              (runDailyReport (sample_client (Some []) 280)) false []))
  = ["composeState"; "generateText"; "composeState"; "generateText";
     "sendTweet"; "Date.now"; "cacheManager.set"; "cacheTweet";
     "ensureRoomExists"; "ensureParticipantInRoom"; "createMemory"] /\
  standard_attempts
    (trace (exec (scripted (fun _ => inr []) 0 (inl TypeError)
                    (inr (Some sample_result)))
              (runDailyReport (sample_client (Some []) 280)) false []))
  = ["report"] /\
  existsb published
    (trace (exec (scripted (fun _ => inr []) 0 (inl TypeError)
                    (inr (Some sample_result)))
              (runDailyReport (sample_client (Some []) 280)) false []))
  = true.
Proof. vm_compute. repeat split. Qed.

(** ** Instances *)

Lemma sample_tags_own :
  Forall own_tag (flat_map hashtags [tagged ["AI"]; tagged ["AI"; "DeFi"]]).
Proof.
  repeat constructor; unfold own_tag; simpl; intros H;
    repeat (destruct H as [H|H]; [discriminate H|]); exact H.
Defined.

(** The end-to-end scenario of the specification: two posts with the
    hashtags AI, and AI and DeFi. *)
Lemma getTopHashtags_ordered_witness :
  Forall own_tag (flat_map hashtags [tagged ["AI"]; tagged ["AI"; "DeFi"]]) /\
  getTopHashtags [tagged ["AI"]; tagged ["AI"; "DeFi"]] default_limit
  = ["AI"; "DeFi"] /\
  before (getTopHashtags [tagged ["AI"]; tagged ["AI"; "DeFi"]] default_limit)
         "AI" "DeFi" /\
  occurrences [tagged ["AI"]; tagged ["AI"; "DeFi"]] "DeFi"
  <= occurrences [tagged ["AI"]; tagged ["AI"; "DeFi"]] "AI".
Proof.
  assert (Hb : before (getTopHashtags [tagged ["AI"]; tagged ["AI"; "DeFi"]]
                         default_limit) "AI" "DeFi")
    by (apply before_here; left; reflexivity).
  split; [exact sample_tags_own|]. split; [reflexivity|]. split; [exact Hb|].
  exact (proj1 (proj2 (proj2 (proj2 (getTopHashtags_ordered
                                        [tagged ["AI"]; tagged ["AI"; "DeFi"]]
                                        default_limit)))
                  sample_tags_own) "AI" "DeFi" Hb).
Defined.

(** One account whose fetch returns an old post and a recent one, neither a
    repost: the clock is read twice, the recent post is returned twice and
    the old one once. *)
Lemma collectTargetUsersTweets_appends_both_witness :
  TWITTER_TARGET_USERS (sample_client (Some ["alice"]) 280) = Some ["alice"] /\
  outcome (exec (scripted (fun _ => inr [stale; fresh]) 1700000000000
                   (inl TypeError) (inl TypeError))
             (collectTargetUsersTweets (sample_client (Some ["alice"]) 280))
             false [])
  = inr [fresh; stale; fresh] /\
  fetched (trace (exec (scripted (fun _ => inr [stale; fresh]) 1700000000000
                          (inl TypeError) (inl TypeError))
                    (collectTargetUsersTweets (sample_client (Some ["alice"]) 280))
                    false []))
  = [([stale; fresh], [1700000000000; 1700000000000]%Z)] /\
  isRetweet fresh = false /\
  (1700000000000 - timestamp fresh < 24 * 60 * 60)%Z /\
  2 <= count_occ Tweet_eq_dec
         (flat_map pushed_for
            (fetched
               (trace (exec (scripted (fun _ => inr [stale; fresh]) 1700000000000
                               (inl TypeError) (inl TypeError))
                         (collectTargetUsersTweets
                            (sample_client (Some ["alice"]) 280))
                         false []))))
         fresh.
Proof.
  split; [reflexivity|].
  split.
  - rewrite (proj1 (collectTargetUsersTweets_appends_both
                      (scripted (fun _ => inr [stale; fresh]) 1700000000000
                         (inl TypeError) (inl TypeError))
                      (sample_client (Some ["alice"]) 280) false [] ["alice"]
                      eq_refl)).
    reflexivity.
  - split; [reflexivity|]. split; [reflexivity|]. split; [reflexivity|].
    apply (proj1 (proj2 (proj2 (proj2 (collectTargetUsersTweets_appends_both
                      (scripted (fun _ => inr [stale; fresh]) 1700000000000
                         (inl TypeError) (inl TypeError))
                      (sample_client (Some ["alice"]) 280) false [] ["alice"]
                      eq_refl))))
             [stale; fresh] [1700000000000; 1700000000000]%Z fresh
             1700000000000%Z).
    + left. reflexivity.
    + right. left. reflexivity.
    + reflexivity.
    + reflexivity.
Defined.

(** A second invocation while the first is suspended at its fetch. *)
Lemma runDailyReport_overlap_witness :
  reachable (sample_client (Some ["alice"]) 280)
    (invoke (sample_client (Some ["alice"]) 280) initial) /\
  existsb in_flight
    (invocations (invoke (sample_client (Some ["alice"]) 280) initial)) = true /\
  events (invoke (sample_client (Some ["alice"]) 280)
            (invoke (sample_client (Some ["alice"]) 280) initial)) = [] /\
  count_in_flight
    (invocations (invoke (sample_client (Some ["alice"]) 280)
                    (invoke (sample_client (Some ["alice"]) 280) initial))) = 1.
Proof.
  assert (Hs : reachable (sample_client (Some ["alice"]) 280)
                 (invoke (sample_client (Some ["alice"]) 280) initial))
    by (apply reachable_invoke; apply reachable_initial).
  split; [exact Hs|]. split; [reflexivity|].
  destruct (proj2 (runDailyReport_overlap_is_noop
                     (sample_client (Some ["alice"]) 280)) _ Hs eq_refl)
    as [_ Heq].
  rewrite Heq. split; reflexivity.
Defined.

(** An invocation whose fetch fails and whose summarization fails: the
    guard is clear again. *)
Lemma runDailyReport_clears_guard_witness :
  reachable (sample_client (Some ["alice"]) 280)
    (resume (resume (invoke (sample_client (Some ["alice"]) 280) initial)
               0 failing) 0 failing) /\
  map label
    (events (resume (resume (invoke (sample_client (Some ["alice"]) 280) initial)
                       0 failing) 0 failing))
  = ["fetchSearchTweets"; "composeState"] /\
  existsb in_flight
    (invocations
       (resume (resume (invoke (sample_client (Some ["alice"]) 280) initial)
                  0 failing) 0 failing)) = false /\
  isProcessing
    (resume (resume (invoke (sample_client (Some ["alice"]) 280) initial)
               0 failing) 0 failing) = false.
Proof.
  assert (Hs : reachable (sample_client (Some ["alice"]) 280)
                 (resume (resume (invoke (sample_client (Some ["alice"]) 280)
                                    initial) 0 failing) 0 failing))
    by (repeat apply reachable_resume; apply reachable_invoke;
        apply reachable_initial).
  split; [exact Hs|]. split; [reflexivity|]. split; [reflexivity|].
  exact (proj2 (runDailyReport_clears_guard (sample_client (Some ["alice"]) 280))
           _ Hs eq_refl).
Defined.

(** ** Examples *)

(** The example in the comment above [getTopHashtags]; with the default
    limit of 3 the code returns three tags. *)
Example getTopHashtags_comment :
  getTopHashtags [tagged ["AI"; "Tech"; "Tech"; "News"; "AI"]] default_limit
  = ["AI"; "Tech"; "News"].
Proof. reflexivity. Qed.

Example analyzeSentiment_sample :
  analyzeSentiment
    [liked "1" 0;
     {| id := "2"; username := "bob"; text := "This is GREAT, not bad";
        timestamp := 0; likes := 0; retweets := 0; hashtags := [];
        isRetweet := false; conversationId := "2"; permanentUrl := "" |};
     {| id := "3"; username := "bob"; text := "Terrible day";
        timestamp := 0; likes := 0; retweets := 0; hashtags := [];
        isRetweet := false; conversationId := "3"; permanentUrl := "" |}]
  = {| positive := 1; neutral := 1; negative := 1 |}.
Proof. reflexivity. Qed.

Example truncateToCompleteSentence_sample :
  truncateToCompleteSentence "One. Two! Three and more" 12 = "One. Two!".
Proof. reflexivity. Qed.

(** A long text whose long-form publication is rejected: one fallback
    standard tweet, then the persisting calls. *)
Example postTweet_fallback_sample :
  map label
    (trace (exec (scripted (fun _ => inl TypeError) 0 (inr forbidden)
                    (inr (Some sample_result)))
              (postTweet (sample_client None 280) long_text (stringToUuid "room")
                 long_text "agent" None) false []))
  = ["sendNoteTweet"; "sendTweet"; "Date.now"; "cacheManager.set"; "cacheTweet";
     "ensureRoomExists"; "ensureParticipantInRoom"; "createMemory"].
Proof. vm_compute. reflexivity. Qed.

(** A standard publication answered without a result: nothing is
    persisted. *)
Example postTweet_bad_response_sample :
  map label
    (trace (exec (scripted (fun _ => inl TypeError) 0 (inr forbidden) (inr None))
              (postTweet (sample_client None 280) "short" (stringToUuid "room")
                 "short" "agent" None) false []))
  = ["sendTweet"].
Proof. vm_compute. reflexivity. Qed.

(** * Further properties *)

(** ** Analytics *)

Lemma engagement_fold_max (tweets : list Tweet) (acc : Tweet) :
  engagement
    (fold_left
       (fun prev current =>
          if (likes current + retweets current <? likes prev + retweets prev)%N
          then prev else current) tweets acc)
  = N.max (engagement acc) (max_engagement tweets).
Proof.
  revert acc. induction tweets as [|x l IH]; intros acc.
  - simpl. unfold max_engagement. simpl. lia.
  - cbn [fold_left]. rewrite IH. unfold max_engagement. cbn [map fold_right].
    fold (max_engagement l). fold (engagement x). fold (engagement acc).
    destruct (N.ltb_spec (engagement x) (engagement acc)); lia.
Qed.

Lemma max_engagement_bound (tweets : list Tweet) :
  Forall (fun t => (engagement t <= max_engagement tweets)%N) tweets.
Proof.
  induction tweets as [|x l IH]; constructor.
  - unfold max_engagement. simpl. lia.
  - eapply Forall_impl; [|exact IH]. intros t Ht. cbv beta in Ht.
    unfold max_engagement in *. simpl. lia.
Qed.

(** The post returned by [findMostEngagedTweet] maximizes likes + retweets:
    its sum is the largest of the list (0 on the empty list, from the
    sentinel), and no post of the list has more. *)
Theorem findMostEngagedTweet_maximal (tweets : list Tweet) :
  engagement (findMostEngagedTweet tweets) = max_engagement tweets /\
  Forall (fun t => (engagement t <= engagement (findMostEngagedTweet tweets))%N)
         tweets.
Proof.
  assert (H : engagement (findMostEngagedTweet tweets) = max_engagement tweets).
  { unfold findMostEngagedTweet. rewrite engagement_fold_max.
    unfold engagement at 1. simpl. lia. }
  split; [exact H|]. rewrite H. apply max_engagement_bound.
Qed.

Lemma bump_NoDup (t : string) (C : Counts) :
  NoDup (map fst C) -> NoDup (map fst (bump t C)).
Proof.
  intros Hnd. rewrite bump_keys.
  destruct (in_dec string_dec t (map fst C)) as [Hin|Hnotin]; [exact Hnd|].
  apply (Permutation_NoDup (Permutation_cons_append (map fst C) t)).
  constructor; assumption.
Qed.

Lemma count_tag_NoDup (tags : list string) (acc : Counts) :
  NoDup (map fst acc) -> NoDup (map fst (fold_left count_tag tags acc)).
Proof.
  revert acc. induction tags as [|t tags IH]; intros acc Hnd; simpl.
  - exact Hnd.
  - apply IH. unfold count_tag.
    destruct (t =? "__proto__")%string; [exact Hnd | apply bump_NoDup; exact Hnd].
Qed.

Lemma Object_entries_perm (C : Counts) : Permutation (Object_entries C) C.
Proof.
  unfold Object_entries.
  rewrite <- (Array_sort_perm _ (filter (fun e => isArrayIndex (fst e)) C)).
  induction C as [|e C IH]; simpl; [reflexivity|].
  destruct (isArrayIndex (fst e)); simpl.
  - apply perm_skip. exact IH.
  - rewrite <- Permutation_middle. apply perm_skip. exact IH.
Qed.

Lemma sorted_entries_perm (tweets : list Tweet) :
  Permutation (Array_sort byCount (Object_entries (hashtagCount tweets)))
              (hashtagCount tweets).
Proof.
  rewrite <- (Array_sort_perm byCount). apply Object_entries_perm.
Qed.

Lemma NoDup_firstn_keys {A : Type} (n : nat) (l : list A) :
  NoDup l -> NoDup (firstn n l).
Proof.
  revert l. induction n as [|n IH]; intros [|x l] Hnd; simpl; try constructor.
  - apply NoDup_cons_iff in Hnd. intros Hin. apply (proj1 Hnd).
    rewrite <- (firstn_skipn n l). apply in_or_app. left. exact Hin.
  - apply IH. apply NoDup_cons_iff in Hnd. apply Hnd.
Qed.

Lemma sorted_keys_NoDup (tweets : list Tweet) :
  NoDup (map fst (Array_sort byCount (Object_entries (hashtagCount tweets)))).
Proof.
  apply (Permutation_NoDup
           (Permutation_sym (Permutation_map fst (sorted_entries_perm tweets)))).
  unfold hashtagCount. apply count_tag_NoDup. constructor.
Qed.

(** [getTopHashtags] never returns a hashtag twice. *)
Theorem getTopHashtags_distinct (tweets : list Tweet) (limit : nat) :
  NoDup (getTopHashtags tweets limit).
Proof.
  unfold getTopHashtags. rewrite <- firstn_map.
  apply NoDup_firstn_keys. apply sorted_keys_NoDup.
Qed.

Lemma before_split {A : Type} (l1 l2 : list A) (a b : A) :
  In a l1 -> In b l2 -> before (l1 ++ l2) a b.
Proof.
  induction l1 as [|x l1 IH]; simpl; intros Ha Hb; [contradiction|].
  destruct Ha as [->|Ha].
  - apply before_here. apply in_or_app. right. exact Hb.
  - apply before_later. apply IH; assumption.
Qed.

Lemma hashtagCount_entry (tweets : list Tweet) (tag : string) :
  Forall own_tag (flat_map hashtags tweets) ->
  In tag (flat_map hashtags tweets) ->
  In (tag, Number (occurrences tweets tag)) (hashtagCount tweets).
Proof.
  unfold hashtagCount, occurrences. intros Hown Hin.
  destruct (counted_fold _ Hown) as (_ & Hkeys & Hcount & _).
  apply Hkeys in Hin. apply in_map_iff in Hin. destruct Hin as ([k v] & Hk & Hin).
  simpl in Hk. subst k. rewrite <- (Hcount _ _ Hin). exact Hin.
Qed.

Lemma distinct_tags_length (tweets : list Tweet) :
  Forall own_tag (flat_map hashtags tweets) ->
  length (hashtagCount tweets) = length (distinct_tags tweets).
Proof.
  unfold hashtagCount, distinct_tags. intros Hown.
  destruct (counted_fold _ Hown) as (Hnd & Hkeys & _ & _).
  rewrite <- (length_map fst). apply Permutation_length.
  apply NoDup_Permutation; [exact Hnd | apply NoDup_nodup|].
  intros k. rewrite nodup_In. apply Hkeys.
Qed.

(** When no hashtag names a property inherited from [Object.prototype],
    [getTopHashtags] returns as many entries as [limit] allows: [limit] of
    them, or every distinct hashtag when there are fewer; and a hashtag
    that is left out occurs at most as often as any that is returned. *)
Theorem getTopHashtags_top (tweets : list Tweet) (limit : nat) :
  Forall own_tag (flat_map hashtags tweets) ->
  length (getTopHashtags tweets limit)
  = Nat.min limit (length (distinct_tags tweets)) /\
  (length (distinct_tags tweets) <= limit ->
   forall tag, In tag (flat_map hashtags tweets) ->
               In tag (getTopHashtags tweets limit)) /\
  (forall a b,
      In a (getTopHashtags tweets limit) ->
      In b (flat_map hashtags tweets) ->
      ~ In b (getTopHashtags tweets limit) ->
      occurrences tweets b <= occurrences tweets a).
Proof.
  intros Hown. unfold getTopHashtags.
  set (E := Object_entries (hashtagCount tweets)).
  set (S := Array_sort byCount E).
  assert (Hlen : length S = length (distinct_tags tweets)).
  { rewrite <- (distinct_tags_length tweets Hown).
    apply Permutation_length. apply sorted_entries_perm. }
  assert (HinS : forall tag, In tag (flat_map hashtags tweets) ->
                             In (tag, Number (occurrences tweets tag)) S).
  { intros tag Hin.
    apply (Permutation_in _ (Permutation_sym (sorted_entries_perm tweets))).
    apply hashtagCount_entry; assumption. }
  split; [|split].
  - rewrite length_map, length_firstn, Hlen. reflexivity.
  - intros Hfew tag Hin. rewrite firstn_all2 by lia.
    apply (in_map fst _ _ (HinS tag Hin)).
  - intros a b Ha Hb Hnot.
    apply in_map_iff in Ha. destruct Ha as (y & Hy & Ha).
    assert (Hx : In (b, Number (occurrences tweets b)) (skipn limit S)).
    { specialize (HinS b Hb). rewrite <- (firstn_skipn limit S) in HinS.
      apply in_app_or in HinS. destruct HinS as [HinS|HinS]; [|exact HinS].
      exfalso. apply Hnot. apply (in_map fst) in HinS. exact HinS. }
    pose proof (before_split _ _ _ _ Ha Hx) as Hbefore.
    rewrite firstn_skipn in Hbefore.
    assert (Hgood : Forall (fun e : string * Count => exists n, snd e = Number n) E).
    { apply Forall_forall. intros x HxE. eexists.
      apply (hashtagCount_value tweets x Hown HxE). }
    pose proof (Array_sort_sorted byCount _ _ byCount_rank _ _ _ Hgood Hbefore)
      as Hle.
    assert (HyE : In y E).
    { apply (Permutation_in _ (Permutation_sym (Array_sort_perm byCount E))).
      change (In y S).
      rewrite <- (firstn_skipn limit S). apply in_or_app. left. exact Ha. }
    pose proof (hashtagCount_value tweets y Hown HyE) as Hyv.
    cbv beta in Hle. cbn [snd] in Hle. rewrite Hyv, Hy in Hle. lia.
Qed.

Lemma toLowerCase_app (a b : string) :
  toLowerCase (a ++ b) = (toLowerCase a ++ toLowerCase b)%string.
Proof.
  induction a as [|c a IH]; simpl; [reflexivity | rewrite IH; reflexivity].
Qed.

Lemma regex_test_word (alternatives : list string) (pre w post : string) :
  In (toLowerCase w) alternatives ->
  regex_test alternatives (toLowerCase (pre ++ w ++ post)) = true.
Proof.
  intros Hw. unfold regex_test. apply existsb_exists.
  exists (toLowerCase w). split; [exact Hw|].
  apply includes_spec. exists (toLowerCase pre), (toLowerCase post).
  rewrite !toLowerCase_app. reflexivity.
Qed.

Lemma analyzeSentiment_cons (t : Tweet) (rest : list Tweet) :
  analyzeSentiment (t :: rest)
  = {| positive := (if (0 <? score t)%Z then 1 else 0)
                   + positive (analyzeSentiment rest);
       neutral := (if (score t =? 0)%Z then 1 else 0)
                  + neutral (analyzeSentiment rest);
       negative := (if (score t <? 0)%Z then 1 else 0)
                   + negative (analyzeSentiment rest) |}.
Proof.
  unfold analyzeSentiment. cbn [map filter positive neutral negative].
  destruct (0 <? score t)%Z, (score t =? 0)%Z, (score t <? 0)%Z; reflexivity.
Qed.

(** The lexicons are matched on substrings and without regard to letter
    case, the positive one first: a post whose text contains a positive word
    in any mix of cases adds one to the positive count, whatever else the
    text contains; a post that contains a negative word adds one to the
    negative count when its text matches no positive word. *)
Theorem analyzeSentiment_case_insensitive (t : Tweet) (rest : list Tweet)
  (pre w post : string) :
  text t = (pre ++ w ++ post)%string ->
  (In (toLowerCase w) positive_lexicon ->
   analyzeSentiment (t :: rest)
   = {| positive := S (positive (analyzeSentiment rest));
        neutral := neutral (analyzeSentiment rest);
        negative := negative (analyzeSentiment rest) |}) /\
  (In (toLowerCase w) negative_lexicon ->
   regex_test positive_lexicon (toLowerCase (text t)) = false ->
   analyzeSentiment (t :: rest)
   = {| positive := positive (analyzeSentiment rest);
        neutral := neutral (analyzeSentiment rest);
        negative := S (negative (analyzeSentiment rest)) |}).
Proof.
  intros Htext. split.
  - intros Hw. rewrite analyzeSentiment_cons. unfold score.
    rewrite Htext, (regex_test_word positive_lexicon pre w post Hw). reflexivity.
  - intros Hw Hpos. rewrite analyzeSentiment_cons. unfold score.
    rewrite Hpos, Htext, (regex_test_word negative_lexicon pre w post Hw).
    reflexivity.
Qed.

(** ** Collection stage *)

Lemma collectLoop_trace (o : Oracle) (users : list string)
  (tweetsByUser : list Tweet) (flag : bool) (h : list Event) :
  exists runs : list (Result (list Tweet) * list Z),
    length runs = length users /\
    Forall (fun r => match fst r with
                     | inr userTweets => length (snd r) = length userTweets
                     | inl _ => True
                     end) runs /\
    trace (exec o (collectLoop users tweetsByUser) flag h)
    = concat (map (fun ur => iteration (fst ur) (fst (snd ur)) (snd (snd ur)))
                  (combine users runs)).
Proof.
  revert tweetsByUser h.
  induction users as [|username rest IH]; intros tweetsByUser h.
  - exists []. repeat split. constructor.
  - cbn [collectLoop]. rewrite exec_bind, exec_collectUser.
    destruct (o h _ (fetchSearchTweets ("from:" ++ username) 3))
      as [e|userTweets] eqn:Hfetch.
    + match goal with
      | |- context [exec o (collectLoop rest ?acc) flag ?hh] =>
          destruct (IH acc hh) as (runs & Hlen & Hruns & Htr);
          destruct (exec o (collectLoop rest acc) flag hh) as [[r s] tr]
      end.
      exists ((inl e, []) :: runs). cbn [trace snd] in *. subst tr.
      split; [simpl; congruence|]. split; [constructor; [exact I | exact Hruns]|].
      reflexivity.
    + cbv beta iota zeta.
      set (h1 := h ++ [Ev (fetchSearchTweets ("from:" ++ username) 3)
                          (inr userTweets)]).
      set (nows := clock o h1 (length userTweets)).
      match goal with
      | |- context [exec o (collectLoop rest ?acc) flag ?hh] =>
          destruct (IH acc hh) as (runs & Hlen & Hruns & Htr);
          destruct (exec o (collectLoop rest acc) flag hh) as [[r s] tr]
      end.
      exists ((inr userTweets, nows) :: runs). cbn [trace snd] in *. subst tr.
      split; [simpl; congruence|]. split.
      * constructor; [|exact Hruns]. cbn [fst snd]. apply clock_length.
      * cbn [combine map concat iteration fst snd]. reflexivity.
Qed.

Lemma collectTargetUsersTweets_trace (o : Oracle) (client : Client)
  (flag : bool) (h : list Event) (users : list string) :
  TWITTER_TARGET_USERS client = Some users ->
  exists runs : list (Result (list Tweet) * list Z),
    length runs = length users /\
    Forall (fun r => match fst r with
                     | inr userTweets => length (snd r) = length userTweets
                     | inl _ => True
                     end) runs /\
    trace (exec o (collectTargetUsersTweets client) flag h)
    = concat (map (fun ur => iteration (fst ur) (fst (snd ur)) (snd (snd ur)))
                  (combine users runs)).
Proof.
  intros Husers. unfold collectTargetUsersTweets. rewrite Husers.
  destruct users as [|u rest].
  - exists []. repeat split. constructor.
  - exact (collectLoop_trace o (u :: rest) [] flag h).
Qed.

Lemma pick_app {T : Type} (f : Event -> option T) (a b : list Event) :
  pick f (a ++ b) = pick f a ++ pick f b.
Proof.
  induction a as [|e a IH]; simpl; [reflexivity|].
  destruct (f e); simpl; rewrite IH; reflexivity.
Qed.

Lemma pick_none {T : Type} (f : Event -> option T) (tr : list Event) :
  Forall (fun e => f e = None) tr -> pick f tr = [].
Proof.
  induction 1 as [|e tr He _ IH]; simpl; [reflexivity|]. rewrite He. exact IH.
Qed.

Lemma iteration_fetch_request (username : string) (answer : Result (list Tweet))
  (nows : list Z) :
  pick fetch_request (iteration username answer nows)
  = [(("from:" ++ username)%string, 3)].
Proof.
  destruct answer as [e|userTweets]; cbn [iteration pick fetch_request];
    [reflexivity|].
  f_equal. rewrite pick_app. cbn [pick fetch_request is_wait app].
  rewrite app_nil_r. apply pick_none.
  apply Forall_forall. intros e He. apply in_map_iff in He.
  destruct He as (now & <- & _). reflexivity.
Qed.

(** Every monitored account is queried exactly once, in the order of the
    list, with the query [from:<account>] and a limit of 3 tweets, whether
    the fetches of the accounts before it succeed or fail: a failing account
    is skipped, not retried, and does not stop the loop. *)
Theorem collectTargetUsersTweets_queries (o : Oracle) (client : Client)
  (flag : bool) (h : list Event) (users : list string) :
  TWITTER_TARGET_USERS client = Some users ->
  pick fetch_request (trace (exec o (collectTargetUsersTweets client) flag h))
  = map (fun username => (("from:" ++ username)%string, 3)) users.
Proof.
  intros Husers.
  destruct (collectTargetUsersTweets_trace o client flag h users Husers)
    as (runs & Hlen & _ & ->).
  clear Husers. revert runs Hlen.
  induction users as [|u rest IH]; intros [|r runs] Hlen; try discriminate Hlen.
  - reflexivity.
  - cbn [combine map concat fst snd]. rewrite pick_app, iteration_fetch_request.
    cbn [app]. f_equal. apply IH. simpl in Hlen. congruence.
Qed.

(** For each account in turn the stage makes one fetch; when the fetch
    succeeds it reads the clock once for every tweet fetched and then pauses
    once; when the fetch fails it goes on to the next account at once,
    without a pause. *)
Theorem collectTargetUsersTweets_paces (o : Oracle) (client : Client)
  (flag : bool) (h : list Event) (users : list string) :
  TWITTER_TARGET_USERS client = Some users ->
  exists runs : list (Result (list Tweet) * list Z),
    length runs = length users /\
    Forall (fun r => match fst r with
                     | inr userTweets => length (snd r) = length userTweets
                     | inl _ => True
                     end) runs /\
    trace (exec o (collectTargetUsersTweets client) flag h)
    = concat (map (fun ur => iteration (fst ur) (fst (snd ur)) (snd (snd ur)))
                  (combine users runs)) /\
    length (filter is_wait (trace (exec o (collectTargetUsersTweets client) flag h)))
    = length (fetched (trace (exec o (collectTargetUsersTweets client) flag h))).
Proof.
  intros Husers.
  destruct (collectTargetUsersTweets_trace o client flag h users Husers)
    as (runs & Hlen & Hruns & Htr).
  exists runs. split; [exact Hlen|]. split; [exact Hruns|]. split; [exact Htr|].
  rewrite Htr. clear Htr Husers. revert runs Hlen Hruns.
  induction users as [|u rest IH]; intros [|[answer nows] runs] Hlen Hruns;
    try discriminate Hlen; [reflexivity|].
  cbn [combine map concat fst snd].
  inversion Hruns as [|? ? Hr Hruns']; subst. cbn [fst snd] in Hr.
  rewrite filter_app, length_app.
  injection Hlen as Hlen. specialize (IH runs Hlen Hruns').
  destruct answer as [e|userTweets]; cbn [iteration].
  - cbn [app fetched filter is_wait length]. rewrite IH. reflexivity.
  - cbn [app fetched filter is_wait]. rewrite <- app_assoc. cbn [app].
    rewrite fetched_clock. cbn [length]. rewrite <- IH.
    rewrite filter_app. cbn [filter is_wait]. rewrite length_app. cbn [length].
    assert (Hnone : filter is_wait (map (Ev Date_now) nows) = []).
    { clear. induction nows; simpl; auto. }
    rewrite Hnone. simpl. lia.
Qed.

Lemma validTweets_length (nows : list Z) (userTweets : list Tweet) :
  length (validTweets nows userTweets) <= length userTweets.
Proof.
  revert nows. induction userTweets as [|t rest IH]; intros [|now nows]; simpl;
    try lia.
  specialize (IH nows). destruct (isValid now t); simpl; lia.
Qed.

Lemma pushed_length (l : list (list Tweet * list Z)) :
  length (flat_map fst l) <= length (flat_map pushed_for l)
  <= 2 * length (flat_map fst l).
Proof.
  induction l as [|[userTweets nows] l IH]; simpl; [lia|].
  unfold pushed_for at 1 3. cbn [fst snd]. rewrite !length_app.
  pose proof (validTweets_length nows userTweets). lia.
Qed.

(** The stage returns normally whatever the fetches answer, and the list it
    returns holds between one and two entries for every tweet that was
    fetched, none for an account whose fetch failed. *)
Theorem collectTargetUsersTweets_size (o : Oracle) (client : Client)
  (flag : bool) (h : list Event) (users : list string) :
  TWITTER_TARGET_USERS client = Some users ->
  exists out,
    outcome (exec o (collectTargetUsersTweets client) flag h) = inr out /\
    length (flat_map fst
              (fetched (trace (exec o (collectTargetUsersTweets client) flag h))))
    <= length out
    <= 2 * length (flat_map fst
                     (fetched (trace (exec o (collectTargetUsersTweets client)
                                        flag h)))).
Proof.
  intros Husers. eexists. split.
  - apply (collectTargetUsersTweets_outcome o client flag h users Husers).
  - apply pushed_length.
Qed.

(** ** Publication stage *)

Lemma exec_sendStandardTweet (o : Oracle) (content : string)
  (tweetId : option string) (media : option (list MediaData))
  (flag : bool) (h : list Event) :
  exec o (sendStandardTweet content tweetId media) flag h
  = (o h _ (sendTweet content tweetId media), flag,
     [Ev (sendTweet content tweetId media)
         (o h _ (sendTweet content tweetId media))]).
Proof.
  unfold sendStandardTweet, await. cbn [bind try_catch exec].
  destruct (o h _ (sendTweet content tweetId media)) as [e|[result|]];
    reflexivity.
Qed.

Lemma exec_handleNoteTweet (o : Oracle) (client : Client) (content : string)
  (tweetId : option string) (media : option (list MediaData))
  (flag : bool) (h : list Event) :
  exec o (handleNoteTweet client content tweetId media) flag h
  = match o h _ (sendNoteTweet content tweetId media) with
    | inl e =>
        (inl (NoteTweetFailed e), flag,
         [Ev (sendNoteTweet content tweetId media) (inl e)])
    | inr res =>
        if 0 <? length (errors res)
        then
          let truncated :=
            truncateToCompleteSentence content (MAX_TWEET_LENGTH client) in
          let h1 := h ++ [Ev (sendNoteTweet content tweetId media) (inr res)] in
          (match o h1 _ (sendTweet truncated tweetId None) with
           | inl e => inl (NoteTweetFailed e)
           | inr body => inr body
           end, flag,
           [Ev (sendNoteTweet content tweetId media) (inr res);
            Ev (sendTweet truncated tweetId None)
               (o h1 _ (sendTweet truncated tweetId None))])
        else
          (match note_result res with
           | None => inl (NoteTweetFailed TypeError)
           | Some result => inr result
           end, flag,
           [Ev (sendNoteTweet content tweetId media) (inr res)])
    end.
Proof.
  unfold handleNoteTweet. rewrite exec_try_catch. cbn [await bind exec].
  destruct (o h _ (sendNoteTweet content tweetId media)) as [e|res];
    [reflexivity|].
  cbn [bind]. destruct (0 <? length (errors res)).
  - rewrite exec_sendStandardTweet. cbv zeta.
    destruct (o _ _ (sendTweet _ tweetId None)) as [e|body]; reflexivity.
  - destruct (note_result res) as [result|]; reflexivity.
Qed.

(** [postTweet] never throws: a publication that is rejected, a response
    without a result, and a failure of any of the persisting calls are all
    caught (and logged), so its caller cannot tell a failed publication from
    a successful one; it leaves [isProcessing] as it was. *)
Theorem postTweet_swallows_failures (o : Oracle) (client : Client)
  (tweetTextForPosting : string) (roomId : UUID)
  (rawTweetContent twitterUsername : string)
  (media : option (list MediaData)) (flag : bool) (h : list Event) :
  outcome (exec o (postTweet client tweetTextForPosting roomId rawTweetContent
                     twitterUsername media) flag h) = inr tt /\
  final_flag (exec o (postTweet client tweetTextForPosting roomId rawTweetContent
                        twitterUsername media) flag h) = flag.
Proof.
  split.
  - unfold postTweet. rewrite exec_try_catch.
    match goal with
    | |- context [exec o ?p flag h] => destruct (exec o p flag h) as [[[e|[]] s] tr]
    end; reflexivity.
  - apply (exec_Only any_call). apply Only_postTweet.
Qed.

(** When [handleNoteTweet] throws, the error is always the wrapper
    "Note Tweet failed": a rejected long-form request, an unreadable
    long-form response and a failure of the fallback standard tweet are all
    reported under it, with the original error as its cause. *)
Theorem handleNoteTweet_wraps_errors (o : Oracle) (client : Client)
  (content : string) (tweetId : option string)
  (media : option (list MediaData)) (flag : bool) (h : list Event) (e : Error) :
  outcome (exec o (handleNoteTweet client content tweetId media) flag h) = inl e ->
  exists cause, e = NoteTweetFailed cause.
Proof.
  rewrite exec_handleNoteTweet.
  destruct (o h _ (sendNoteTweet content tweetId media)) as [e'|res].
  - intros H. injection H as <-. eexists. reflexivity.
  - destruct (0 <? length (errors res)).
    + cbv zeta. destruct (o _ _ (sendTweet _ tweetId None)) as [e'|body];
        intros H; [injection H as <-; eexists; reflexivity | discriminate H].
    + destruct (note_result res) as [result|]; intros H;
        [discriminate H | injection H as <-; eexists; reflexivity].
Qed.

(** The fallback of [handleNoteTweet] sends the truncated text in reply to
    the same tweet, but without the media that were given for the long-form
    publication; no other standard tweet is sent. *)
Theorem handleNoteTweet_fallback_drops_media (o : Oracle) (client : Client)
  (content : string) (tweetId : option string)
  (media : option (list MediaData)) (flag : bool) (h : list Event) :
  pick standard_request
    (trace (exec o (handleNoteTweet client content tweetId media) flag h))
  = match o h _ (sendNoteTweet content tweetId media) with
    | inr res =>
        if 0 <? length (errors res)
        then [(truncateToCompleteSentence content (MAX_TWEET_LENGTH client),
               tweetId, None)]
        else []
    | inl _ => []
    end.
Proof.
  rewrite exec_handleNoteTweet.
  destruct (o h _ (sendNoteTweet content tweetId media)) as [e|res];
    [reflexivity|].
  destruct (0 <? length (errors res)); reflexivity.
Qed.

Ltac answer_calls o :=
  repeat (cbn [bind exec];
          match goal with
          | |- context [match o ?hh ?X ?c with inl _ => _ | inr _ => _ end] =>
              destruct (o hh X c) as [?|[]]
          end).

(** [processAndCacheTweet] makes its calls in the order of the source and
    stops at the first one that fails: the calls made are an initial part of
    the sequence clock, last-post cache, tweet cache, room, participant,
    memory; only the last call made can have failed; and it returns normally
    exactly when all six were made and none failed. *)
Theorem processAndCacheTweet_stops_at_failure (o : Oracle) (client : Client)
  (tweet : PostedTweet) (roomId : UUID) (rawTweetContent : string)
  (flag : bool) (h : list Event) :
  map label (trace (exec o (processAndCacheTweet client tweet roomId
                              rawTweetContent) flag h))
  = firstn (length (trace (exec o (processAndCacheTweet client tweet roomId
                                     rawTweetContent) flag h)))
           persisting_sequence /\
  2 <= length (trace (exec o (processAndCacheTweet client tweet roomId
                                rawTweetContent) flag h)) /\
  existsb failed
    (removelast (trace (exec o (processAndCacheTweet client tweet roomId
                                  rawTweetContent) flag h))) = false /\
  match outcome (exec o (processAndCacheTweet client tweet roomId
                           rawTweetContent) flag h) with
  | inr _ =>
      length (trace (exec o (processAndCacheTweet client tweet roomId
                               rawTweetContent) flag h)) = 6 /\
      existsb failed (trace (exec o (processAndCacheTweet client tweet roomId
                                       rawTweetContent) flag h)) = false
  | inl _ =>
      existsb failed (trace (exec o (processAndCacheTweet client tweet roomId
                                       rawTweetContent) flag h)) = true
  end.
Proof.
  unfold processAndCacheTweet, await. answer_calls o;
    cbn [bind exec trace outcome fst snd map label length firstn
           persisting_sequence removelast existsb failed orb];
    repeat split; lia.
Qed.

(** The memory that [processAndCacheTweet] creates for a posted tweet. *)
Lemma processAndCacheTweet_records (o : Oracle) (client : Client)
  (tweet : PostedTweet) (roomId : UUID) (rawTweetContent : string)
  (flag : bool) (h : list Event) :
  pick published_result
    (trace (exec o (processAndCacheTweet client tweet roomId rawTweetContent)
              flag h)) = [] /\
  pick publish_content
    (trace (exec o (processAndCacheTweet client tweet roomId rawTweetContent)
              flag h)) = [] /\
  pick last_post
    (trace (exec o (processAndCacheTweet client tweet roomId rawTweetContent)
              flag h))
  = [(("twitter/" ++ profile_username client ++ "/lastPost")%string,
      posted_id tweet, o h _ Date_now)] /\
  incl (pick cached_tweet
          (trace (exec o (processAndCacheTweet client tweet roomId
                            rawTweetContent) flag h))) [tweet] /\
  incl (pick memory_request
          (trace (exec o (processAndCacheTweet client tweet roomId
                            rawTweetContent) flag h)))
       [{| mem_id := stringToUuid (posted_id tweet ++ "-" ++ agentId client);
           mem_userId := agentId client;
           mem_agentId := agentId client;
           mem_text := trim rawTweetContent;
           mem_url := posted_permanentUrl tweet;
           mem_source := "twitter";
           mem_roomId := roomId;
           mem_embedding := getEmbeddingZeroVector;
           mem_createdAt := posted_timestamp tweet |}] /\
  length (pick memory_request
            (trace (exec o (processAndCacheTweet client tweet roomId
                              rawTweetContent) flag h))) <= 1.
Proof.
  unfold processAndCacheTweet, await. answer_calls o;
    cbn [bind exec trace snd pick published_result publish_content last_post
           cached_tweet memory_request length];
    repeat split; try lia; try apply incl_refl; apply incl_nil_l.
Qed.

Lemma postTweet_parts (client : Client) (tweetTextForPosting : string)
  (roomId : UUID) (rawTweetContent twitterUsername : string)
  (media : option (list MediaData)) :
  postTweet client tweetTextForPosting roomId rawTweetContent twitterUsername media
  = try_catch
      (result <- publish_step client tweetTextForPosting media ;;
       after_publish client roomId rawTweetContent twitterUsername result)
      (fun error => Ret tt).
Proof. reflexivity. Qed.

Lemma exec_postTweet (o : Oracle) (client : Client)
  (tweetTextForPosting : string) (roomId : UUID)
  (rawTweetContent twitterUsername : string)
  (media : option (list MediaData)) (flag : bool) (h : list Event) :
  trace (exec o (postTweet client tweetTextForPosting roomId rawTweetContent
                   twitterUsername media) flag h)
  = trace (exec o (publish_step client tweetTextForPosting media) flag h)
    ++ match outcome (exec o (publish_step client tweetTextForPosting media)
                        flag h) with
       | inr result =>
           trace (exec o (after_publish client roomId rawTweetContent
                            twitterUsername result)
                    (final_flag (exec o (publish_step client tweetTextForPosting
                                           media) flag h))
                    (h ++ trace (exec o (publish_step client tweetTextForPosting
                                           media) flag h)))
       | inl _ => []
       end.
Proof.
  rewrite postTweet_parts, exec_try_catch, exec_bind.
  destruct (exec o (publish_step client tweetTextForPosting media) flag h)
    as [[[e|result] s] tr]; cbn [outcome final_flag trace fst snd exec].
  - rewrite app_nil_r. reflexivity.
  - destruct (exec o (after_publish client roomId rawTweetContent twitterUsername
                        result) s (h ++ tr)) as [[[e|[]] s'] tr'];
      cbn [trace snd exec]; rewrite ?app_nil_r; reflexivity.
Qed.

(** The publication step: it makes one or two publication requests, the
    first with the text given, and no other call; it returns a result
    exactly when one of its requests was answered with that result. *)
Lemma publish_step_result (o : Oracle) (client : Client)
  (tweetTextForPosting : string) (media : option (list MediaData))
  (flag : bool) (h : list Event) :
  pick published_result
    (trace (exec o (publish_step client tweetTextForPosting media) flag h))
  = match outcome (exec o (publish_step client tweetTextForPosting media) flag h)
    with
    | inr (Some result) => [result]
    | _ => []
    end /\
  hd_error (pick publish_content
              (trace (exec o (publish_step client tweetTextForPosting media)
                        flag h)))
  = Some tweetTextForPosting /\
  length (pick publish_content
            (trace (exec o (publish_step client tweetTextForPosting media)
                      flag h))) <= 2 /\
  Forall (fun e => match e with Ev c _ => publishes c = true end)
         (trace (exec o (publish_step client tweetTextForPosting media) flag h)).
Proof.
  unfold publish_step.
  destruct (DEFAULT_MAX_TWEET_LENGTH client <? String.length tweetTextForPosting).
  - rewrite exec_handleNoteTweet.
    destruct (o h _ (sendNoteTweet tweetTextForPosting None media)) as [e|res].
    + repeat split; simpl; try lia. repeat constructor.
    + destruct (errors res) as [|err errs] eqn:Herr; cbn [length Nat.ltb Nat.leb].
      * destruct (note_result res) as [[result|]|] eqn:Hres;
          cbn [trace outcome fst snd pick published_result publish_content
                 hd_error length];
          rewrite ?Herr, ?Hres; cbn [length Nat.eqb];
          repeat split; try lia; repeat constructor.
      * cbv zeta.
        destruct (o _ _ (sendTweet _ None None)) as [e|[result|]];
          cbn [trace outcome fst snd pick published_result publish_content
                 hd_error length];
          rewrite ?Herr; cbn [length Nat.eqb];
          repeat split; try lia; repeat constructor.
  - rewrite exec_sendStandardTweet.
    destruct (o h _ (sendTweet tweetTextForPosting None media)) as [e|[result|]];
      cbn [trace outcome fst snd pick published_result publish_content
             hd_error length];
      repeat split; try lia; repeat constructor.
Qed.

Lemma pick_publishes {T : Type} (f : Event -> option T) (tr : list Event) :
  (forall X (c : Cmd X) (x : X), publishes c = true -> f (Ev c x) = None) ->
  Forall (fun e => match e with Ev c _ => publishes c = true end) tr ->
  pick f tr = [].
Proof.
  intros Hf Htr. apply pick_none. eapply Forall_impl; [|exact Htr].
  intros [X c x] Hc. apply Hf. exact Hc.
Qed.

Lemma after_publish_records (o : Oracle) (client : Client) (roomId : UUID)
  (rawTweetContent twitterUsername : string) (result : option TweetResult)
  (flag : bool) (h : list Event) :
  pick published_result
    (trace (exec o (after_publish client roomId rawTweetContent twitterUsername
                      result) flag h)) = [] /\
  pick publish_content
    (trace (exec o (after_publish client roomId rawTweetContent twitterUsername
                      result) flag h)) = [] /\
  length (pick memory_request
            (trace (exec o (after_publish client roomId rawTweetContent
                              twitterUsername result) flag h))) <= 1 /\
  Forall (fun m =>
            exists r, result = Some r /\
              mem_id m = stringToUuid (rest_id r ++ "-" ++ agentId client) /\
              mem_url m = ("https://twitter.com/" ++ twitterUsername
                           ++ "/status/" ++ rest_id r)%string /\
              mem_text m = trim rawTweetContent /\
              mem_roomId m = roomId /\
              mem_userId m = agentId client /\
              mem_agentId m = agentId client /\
              mem_source m = "twitter")
         (pick memory_request
            (trace (exec o (after_publish client roomId rawTweetContent
                              twitterUsername result) flag h))) /\
  Forall (fun t =>
            exists r l, result = Some r /\ legacy r = Some l /\
              posted_id t = rest_id r /\
              posted_text t = full_text l /\
              posted_username t = profile_username client /\
              posted_permanentUrl t
              = ("https://twitter.com/" ++ twitterUsername
                 ++ "/status/" ++ rest_id r)%string)
         (pick cached_tweet
            (trace (exec o (after_publish client roomId rawTweetContent
                              twitterUsername result) flag h))) /\
  Forall (fun p =>
            exists r, result = Some r /\
              fst (fst p)
              = ("twitter/" ++ profile_username client ++ "/lastPost")%string /\
              snd (fst p) = rest_id r)
         (pick last_post
            (trace (exec o (after_publish client roomId rawTweetContent
                              twitterUsername result) flag h))).
Proof.
  unfold after_publish, createTweetObject.
  destruct result as [r|]; [destruct (legacy r) as [l|] eqn:Hl|];
    cbn [bind exec trace snd pick length];
    try (repeat split; try lia; constructor).
  match goal with
  | |- context [processAndCacheTweet client ?tweet roomId rawTweetContent] =>
      destruct (processAndCacheTweet_records o client tweet roomId
                  rawTweetContent flag h)
        as (Hpub & Hcontent & Hlast & Hcache & Hmem & Hone)
  end.
  split; [exact Hpub|]. split; [exact Hcontent|]. split; [exact Hone|].
  split; [|split].
  - apply Forall_forall. intros m Hm. apply Hmem in Hm. destruct Hm as [<-|[]].
    exists r. repeat split.
  - apply Forall_forall. intros t Ht. apply Hcache in Ht. destruct Ht as [<-|[]].
    exists r, l. repeat split. exact Hl.
  - rewrite Hlast. repeat constructor. exists r. repeat split.
Qed.

Lemma postTweet_published (o : Oracle) (client : Client)
  (tweetTextForPosting : string) (roomId : UUID)
  (rawTweetContent twitterUsername : string)
  (media : option (list MediaData)) (flag : bool) (h : list Event) :
  pick published_result
    (trace (exec o (postTweet client tweetTextForPosting roomId rawTweetContent
                      twitterUsername media) flag h))
  = match outcome (exec o (publish_step client tweetTextForPosting media) flag h)
    with
    | inr (Some result) => [result]
    | _ => []
    end.
Proof.
  rewrite exec_postTweet, pick_app.
  destruct (publish_step_result o client tweetTextForPosting media flag h)
    as (Hpub & _). rewrite Hpub.
  destruct (outcome (exec o (publish_step client tweetTextForPosting media)
                       flag h)) as [e|result].
  - reflexivity.
  - rewrite (proj1 (after_publish_records o client roomId rawTweetContent
                      twitterUsername result _ _)).
    apply app_nil_r.
Qed.

Lemma postTweet_records {T : Type} (f : Event -> option T) (P : T -> Prop)
  (o : Oracle) (client : Client)
  (tweetTextForPosting : string) (roomId : UUID)
  (rawTweetContent twitterUsername : string)
  (media : option (list MediaData)) (flag : bool) (h : list Event) :
  (forall X (c : Cmd X) (x : X), publishes c = true -> f (Ev c x) = None) ->
  (forall result flag' h',
      outcome (exec o (publish_step client tweetTextForPosting media) flag h)
      = inr result ->
      Forall P (pick f (trace (exec o (after_publish client roomId
                                         rawTweetContent twitterUsername result)
                                 flag' h')))) ->
  Forall P (pick f (trace (exec o (postTweet client tweetTextForPosting roomId
                                     rawTweetContent twitterUsername media)
                             flag h))).
Proof.
  intros Hf Hafter. rewrite exec_postTweet, pick_app.
  destruct (publish_step_result o client tweetTextForPosting media flag h)
    as (_ & _ & _ & Hcalls).
  rewrite (pick_publishes f _ Hf Hcalls). cbn [app].
  destruct (outcome (exec o (publish_step client tweetTextForPosting media)
                       flag h)) as [e|result] eqn:Hout.
  - constructor.
  - apply Hafter. reflexivity.
Qed.

(** The memory that [postTweet] creates belongs to the tweet that was
    published: its identifier is derived from the identifier of that tweet
    and the agent, its URL is the permanent URL of the tweet, and its text is
    the raw content, trimmed, not the text that was posted and possibly
    truncated. *)
Theorem postTweet_memory (o : Oracle) (client : Client)
  (tweetTextForPosting : string) (roomId : UUID)
  (rawTweetContent twitterUsername : string)
  (media : option (list MediaData)) (flag : bool) (h : list Event) :
  Forall (fun m =>
            exists r,
              pick published_result
                (trace (exec o (postTweet client tweetTextForPosting roomId
                                  rawTweetContent twitterUsername media) flag h))
              = [r] /\
              mem_id m = stringToUuid (rest_id r ++ "-" ++ agentId client) /\
              mem_url m = ("https://twitter.com/" ++ twitterUsername
                           ++ "/status/" ++ rest_id r)%string /\
              mem_text m = trim rawTweetContent /\
              mem_roomId m = roomId /\
              mem_userId m = agentId client /\
              mem_agentId m = agentId client /\
              mem_source m = "twitter")
         (pick memory_request
            (trace (exec o (postTweet client tweetTextForPosting roomId
                              rawTweetContent twitterUsername media) flag h))).
Proof.
  apply postTweet_records; [intros X c x Hc; destruct c; try discriminate Hc;
                            reflexivity|].
  intros result flag' h' Hout.
  destruct (after_publish_records o client roomId rawTweetContent twitterUsername
              result flag' h') as (_ & _ & _ & Hmem & _).
  eapply Forall_impl; [|exact Hmem].
  intros m (r & -> & Hrest). exists r. split; [|exact Hrest].
  rewrite postTweet_published, Hout. reflexivity.
Qed.

(** The cache entries that [postTweet] writes describe the tweet that was
    published: the cached tweet carries the identifier and the text of the
    platform's answer and the permanent URL built from it, and the last-post
    entry is keyed by the profile's user name and holds that identifier. *)
Theorem postTweet_cache (o : Oracle) (client : Client)
  (tweetTextForPosting : string) (roomId : UUID)
  (rawTweetContent twitterUsername : string)
  (media : option (list MediaData)) (flag : bool) (h : list Event) :
  Forall (fun t =>
            exists r l,
              pick published_result
                (trace (exec o (postTweet client tweetTextForPosting roomId
                                  rawTweetContent twitterUsername media) flag h))
              = [r] /\
              legacy r = Some l /\
              posted_id t = rest_id r /\
              posted_text t = full_text l /\
              posted_username t = profile_username client /\
              posted_permanentUrl t
              = ("https://twitter.com/" ++ twitterUsername
                 ++ "/status/" ++ rest_id r)%string)
         (pick cached_tweet
            (trace (exec o (postTweet client tweetTextForPosting roomId
                              rawTweetContent twitterUsername media) flag h))) /\
  Forall (fun p =>
            exists r,
              pick published_result
                (trace (exec o (postTweet client tweetTextForPosting roomId
                                  rawTweetContent twitterUsername media) flag h))
              = [r] /\
              fst (fst p)
              = ("twitter/" ++ profile_username client ++ "/lastPost")%string /\
              snd (fst p) = rest_id r)
         (pick last_post
            (trace (exec o (postTweet client tweetTextForPosting roomId
                              rawTweetContent twitterUsername media) flag h))).
Proof.
  split.
  - apply postTweet_records; [intros X c x Hc; destruct c; try discriminate Hc;
                              reflexivity|].
    intros result flag' h' Hout.
    destruct (after_publish_records o client roomId rawTweetContent
                twitterUsername result flag' h') as (_ & _ & _ & _ & Hcache & _).
    eapply Forall_impl; [|exact Hcache].
    intros t (r & l & -> & Hrest). exists r, l. split; [|exact Hrest].
    rewrite postTweet_published, Hout. reflexivity.
  - apply postTweet_records; [intros X c x Hc; destruct c; try discriminate Hc;
                              reflexivity|].
    intros result flag' h' Hout.
    destruct (after_publish_records o client roomId rawTweetContent
                twitterUsername result flag' h') as (_ & _ & _ & _ & _ & Hlast).
    eapply Forall_impl; [|exact Hlast].
    intros p (r & -> & Hrest). exists r. split; [|exact Hrest].
    rewrite postTweet_published, Hout. reflexivity.
Qed.

(** ** Orchestrator *)

Lemma exec_finally_clear {A : Type} (o : Oracle) (p : Prog A) (flag : bool)
  (h : list Event) :
  exec o (try_finally p (SetProcessing false (Ret tt))) flag h
  = (outcome (exec o p flag h), false, trace (exec o p flag h)).
Proof.
  revert flag h. induction p as [a|e|k IH|b k IH|X c k IH]; intros flag h;
    cbn [try_finally bind exec]; try reflexivity; try apply IH.
  rewrite IH.
  destruct (exec o (k (o h X c)) flag (h ++ [Ev c (o h X c)])) as [[r s] tr].
  reflexivity.
Qed.

Lemma stages_parts (client : Client) (roomId : UUID) :
  stages client roomId
  = (tweetsByUser <- collectTargetUsersTweets client ;;
     summarize_and_post client roomId tweetsByUser).
Proof. reflexivity. Qed.

(** The calls of an invocation are those of its stages. *)
Lemma runDailyReport_trace (o : Oracle) (client : Client) (flag : bool)
  (h : list Event) :
  trace (exec o (runDailyReport client) flag h)
  = if flag || no_target_users client then []
    else trace (exec o (stages client (report_room client)) true h).
Proof.
  unfold runDailyReport. cbn [exec].
  destruct (flag || no_target_users client); [reflexivity|].
  cbn [exec]. rewrite exec_finally_clear, exec_try_catch. cbn [trace snd].
  fold (report_room client).
  destruct (exec o (stages client (report_room client)) true h)
    as [[[e|[]] s] tr]; cbn [exec trace snd]; rewrite ?app_nil_r; reflexivity.
Qed.

Lemma Only_collecting_filterValid (userTweets : list Tweet) :
  Only collecting (filterValid userTweets).
Proof.
  induction userTweets as [|tweet rest IH]; cbn [filterValid].
  - constructor.
  - constructor; [reflexivity|]. intros now.
    apply Only_bind; [exact IH | intros; constructor].
Qed.

Lemma Only_collecting (client : Client) :
  Only collecting (collectTargetUsersTweets client).
Proof.
  assert (Huser : forall username acc, Only collecting (collectUser username acc)).
  { intros username acc. unfold collectUser.
    apply Only_try_catch; [|intros; constructor].
    apply Only_bind; [apply Only_await; reflexivity|]. intros userTweets.
    apply Only_bind; [apply Only_collecting_filterValid|]. intros validTweets.
    constructor; [reflexivity|]. intros; constructor. }
  assert (Hloop : forall users acc, Only collecting (collectLoop users acc)).
  { induction users as [|username rest IH]; intros acc; cbn [collectLoop].
    - constructor.
    - apply Only_bind; [apply Huser | intros; apply IH]. }
  unfold collectTargetUsersTweets.
  destruct (TWITTER_TARGET_USERS client) as [users|]; [|constructor].
  destruct (0 <? length users); [apply Hloop | constructor].
Qed.

Lemma Only_posting (client : Client) (tweetTextForPosting : string)
  (roomId : UUID) (rawTweetContent twitterUsername : string)
  (media : option (list MediaData)) :
  Only posting (postTweet client tweetTextForPosting roomId rawTweetContent
                  twitterUsername media).
Proof.
  assert (Hstd : forall content tweetId m,
             Only posting (sendStandardTweet content tweetId m)).
  { intros. unfold sendStandardTweet.
    apply Only_try_catch; [|intros; constructor].
    apply Only_bind; [apply Only_await; reflexivity|].
    intros [result|]; constructor. }
  unfold postTweet. apply Only_try_catch; [|intros; constructor].
  apply Only_bind.
  - destruct (DEFAULT_MAX_TWEET_LENGTH client <? String.length tweetTextForPosting);
      [|apply Hstd].
    unfold handleNoteTweet. apply Only_try_catch; [|intros; constructor].
    apply Only_bind; [apply Only_await; reflexivity|]. intros res.
    destruct (0 <? length (errors res)); [apply Hstd|].
    destruct (note_result res); constructor.
  - intros result. apply Only_bind; [apply Only_createTweetObject|].
    intros tweet. unfold processAndCacheTweet.
    constructor; [reflexivity|]. intros now.
    repeat (apply Only_bind; [apply Only_await; reflexivity | intros _]).
    apply Only_await. reflexivity.
Qed.

Lemma pick_only {T : Type} (P : forall X : Type, Cmd X -> bool)
  (f : Event -> option T) (o : Oracle) {A : Type} (p : Prog A) (flag : bool)
  (h : list Event) :
  Only P p ->
  (forall X (c : Cmd X) (x : X), P X c = true -> f (Ev c x) = None) ->
  pick f (trace (exec o p flag h)) = [].
Proof.
  intros Hp Hf. apply pick_none.
  destruct (exec_Only P o p flag h Hp) as [_ Htr].
  eapply Forall_impl; [|exact Htr]. intros [X c x] Hc. apply Hf. exact Hc.
Qed.

Lemma postTweet_counts (o : Oracle) (client : Client)
  (tweetTextForPosting : string) (roomId : UUID)
  (rawTweetContent twitterUsername : string)
  (media : option (list MediaData)) (flag : bool) (h : list Event) :
  hd_error (pick publish_content
              (trace (exec o (postTweet client tweetTextForPosting roomId
                                rawTweetContent twitterUsername media) flag h)))
  = Some tweetTextForPosting /\
  length (pick publish_content
            (trace (exec o (postTweet client tweetTextForPosting roomId
                              rawTweetContent twitterUsername media) flag h)))
  <= 2 /\
  length (pick memory_request
            (trace (exec o (postTweet client tweetTextForPosting roomId
                              rawTweetContent twitterUsername media) flag h)))
  <= length (pick published_result
               (trace (exec o (postTweet client tweetTextForPosting roomId
                                 rawTweetContent twitterUsername media) flag h))) /\
  length (pick published_result
            (trace (exec o (postTweet client tweetTextForPosting roomId
                              rawTweetContent twitterUsername media) flag h)))
  <= 1.
Proof.
  rewrite postTweet_published, exec_postTweet, !pick_app.
  destruct (publish_step_result o client tweetTextForPosting media flag h)
    as (_ & Hhd & Hlen & Hcalls).
  assert (Hm : forall X (c : Cmd X) (x : X),
             publishes c = true -> memory_request (Ev c x) = None)
    by (intros X c x Hc; destruct c; try discriminate Hc; reflexivity).
  rewrite (pick_publishes memory_request _ Hm Hcalls). cbn [app].
  destruct (outcome (exec o (publish_step client tweetTextForPosting media)
                       flag h)) as [e|result].
  - cbn [pick length]. rewrite app_nil_r. repeat split; try assumption; lia.
  - match goal with
    | |- context [exec o (after_publish client roomId rawTweetContent
                            twitterUsername result) ?F ?H] =>
        destruct (after_publish_records o client roomId rawTweetContent
                    twitterUsername result F H) as (_ & Hc & Hone & Hmem & _)
    end.
    rewrite Hc, app_nil_r. split; [exact Hhd|]. split; [exact Hlen|].
    destruct result as [r|]; cbn [length]; [split; [exact Hone | lia]|].
    split; [|lia].
    match goal with
    | |- length ?l <= 0 => destruct l as [|m l']; [cbn [length]; lia|]
    end.
    inversion Hmem as [|? ? (r & Hr & _) _]. discriminate Hr.
Qed.

(** What the readers see of the calls that follow the collection. *)
Lemma summarize_and_post_readers (o : Oracle) (client : Client) (roomId : UUID)
  (tweetsByUser : list Tweet) (flag : bool) (h : list Event) :
  hd_error (pick publish_content
              (trace (exec o (summarize_and_post client roomId tweetsByUser)
                        flag h)))
  = nth_error (pick generated_text
                 (trace (exec o (summarize_and_post client roomId tweetsByUser)
                           flag h))) 1 /\
  pick summary_request
    (trace (exec o (summarize_and_post client roomId tweetsByUser) flag h))
  = firstn 1 (pick generated_text
                (trace (exec o (summarize_and_post client roomId tweetsByUser)
                          flag h))) /\
  pick generation_template
    (trace (exec o (summarize_and_post client roomId tweetsByUser) flag h))
  = firstn (length (pick generation_template
                      (trace (exec o (summarize_and_post client roomId
                                        tweetsByUser) flag h))))
           [dailyAnalysisTemplate; dailyReportTemplate] /\
  length (pick publish_content
            (trace (exec o (summarize_and_post client roomId tweetsByUser)
                      flag h))) <= 2 /\
  length (pick memory_request
            (trace (exec o (summarize_and_post client roomId tweetsByUser)
                      flag h)))
  <= length (pick published_result
               (trace (exec o (summarize_and_post client roomId tweetsByUser)
                         flag h))) /\
  length (pick published_result
            (trace (exec o (summarize_and_post client roomId tweetsByUser)
                      flag h))) <= 1 /\
  pick analysis_request
    (trace (exec o (summarize_and_post client roomId tweetsByUser) flag h))
  = [(analyze tweetsByUser,
      Some {| twitterUserName := TWITTER_USERNAME client;
              twitterCount := length tweetsByUser;
              formattedTweets :=
                MostPopularTweet
                  (text (findMostEngagedTweet tweetsByUser))
                  (likes (findMostEngagedTweet tweetsByUser))
                  (retweets (findMostEngagedTweet tweetsByUser)) |})].
Proof.
  assert (Hq : forall content f hh,
             pick generated_text
               (trace (exec o (postTweet client content roomId content
                                 (TWITTER_USERNAME client) None) f hh)) = [] /\
             pick summary_request
               (trace (exec o (postTweet client content roomId content
                                 (TWITTER_USERNAME client) None) f hh)) = [] /\
             pick generation_template
               (trace (exec o (postTweet client content roomId content
                                 (TWITTER_USERNAME client) None) f hh)) = [] /\
             pick analysis_request
               (trace (exec o (postTweet client content roomId content
                                 (TWITTER_USERNAME client) None) f hh)) = []).
  { intros. repeat split; apply (pick_only posting); try apply Only_posting;
      intros X c x Hc; destruct c; try discriminate Hc; reflexivity. }
  unfold summarize_and_post, generateTrendSummary, generateReportContent,
    postDailyReport, await.
  repeat (cbn [bind exec];
          match goal with
          | |- context [match o ?hh ?X ?c with inl _ => _ | inr _ => _ end] =>
              destruct (o hh X c) as [?|?]
          end);
    cbn [bind exec].
  5: match goal with
     | |- context [exec o (postTweet client ?t roomId ?t ?u None) ?f ?hh] =>
         generalize (Hq t f hh)
                    (postTweet_counts o client t roomId t u None f hh);
         destruct (exec o (postTweet client t roomId t u None) f hh)
           as [[r fl] ptr];
         cbn [trace snd];
         intros (Hg & Hs & Ht & Ha) (Hhd & Hlen & Hmem & Hpub)
     end.
  all: cbn [trace snd pick publish_content generated_text summary_request
              generation_template analysis_request published_result
              memory_request msg_text totalTweets mostEngagedTweet
              hd_error nth_error firstn length];
    rewrite ?Hg, ?Hs, ?Ht, ?Ha;
    cbn [hd_error nth_error firstn length];
    repeat split; try assumption; try lia.
Qed.

(** An invocation makes no call at all, or the calls of the collection
    followed by those of [summarize_and_post] on the tweets collected. *)
Lemma runDailyReport_cases (o : Oracle) (client : Client) (flag : bool)
  (h : list Event) :
  (forall (T : Type) (f : Event -> option T),
      (forall X (c : Cmd X) (x : X), collecting X c = true -> f (Ev c x) = None) ->
      pick f (trace (exec o (runDailyReport client) flag h)) = []) \/
  (exists tweetsByUser flag' h',
      outcome (exec o (collectTargetUsersTweets client) true h)
      = inr tweetsByUser /\
      forall (T : Type) (f : Event -> option T),
        (forall X (c : Cmd X) (x : X), collecting X c = true -> f (Ev c x) = None) ->
        pick f (trace (exec o (runDailyReport client) flag h))
        = pick f (trace (exec o (summarize_and_post client (report_room client)
                                   tweetsByUser) flag' h'))).
Proof.
  rewrite runDailyReport_trace.
  destruct (flag || no_target_users client); [left; reflexivity|].
  rewrite stages_parts, exec_bind.
  pose proof (fun T (f : Event -> option T) =>
                pick_only collecting f o (collectTargetUsersTweets client) true h
                  (Only_collecting client)) as Hquiet.
  destruct (exec o (collectTargetUsersTweets client) true h)
    as [[[e|tweetsByUser] s] ctr]; cbn [trace snd outcome fst] in *.
  - left. exact Hquiet.
  - right. exists tweetsByUser, s, (h ++ ctr). split; [reflexivity|].
    intros T f Hf.
    destruct (exec o (summarize_and_post client (report_room client)
                        tweetsByUser) s (h ++ ctr)) as [[r s'] tr'].
    cbn [trace snd]. rewrite pick_app, (Hquiet T f Hf). reflexivity.
Qed.

Ltac not_collecting :=
  let c := fresh "c" in
  let Hc := fresh "Hc" in
  intros ? c ? Hc; destruct c; try discriminate Hc; reflexivity.

Lemma analyzeSentiment_total (tweets : list Tweet) :
  positive (analyzeSentiment tweets) + neutral (analyzeSentiment tweets)
  + negative (analyzeSentiment tweets) = length tweets.
Proof.
  unfold analyzeSentiment. cbn [positive neutral negative].
  induction tweets as [|t l IH]; cbn [map filter length]; [reflexivity|].
  destruct (Z.ltb_spec 0 (score t)), (Z.eqb_spec (score t) 0),
    (Z.ltb_spec (score t) 0); cbn [length]; lia.
Qed.

(** One invocation of [runDailyReport] publishes at most one report: it
    makes at most two publication requests (the long-form one and its
    fallback), at most one of them is answered with a tweet, and it creates
    at most one memory, and none unless a request was answered with a
    tweet. *)
Theorem runDailyReport_publishes_once (o : Oracle) (client : Client)
  (flag : bool) (h : list Event) :
  length (pick publish_content (trace (exec o (runDailyReport client) flag h)))
  <= 2 /\
  length (pick memory_request (trace (exec o (runDailyReport client) flag h)))
  <= length (pick published_result
               (trace (exec o (runDailyReport client) flag h))) /\
  length (pick published_result (trace (exec o (runDailyReport client) flag h)))
  <= 1.
Proof.
  destruct (runDailyReport_cases o client flag h)
    as [Hnone|(tweetsByUser & flag' & h' & _ & Hsame)].
  - rewrite !Hnone by not_collecting. cbn [length]. lia.
  - rewrite !Hsame by not_collecting.
    destruct (summarize_and_post_readers o client (report_room client)
                tweetsByUser flag' h') as (_ & _ & _ & Hlen & Hmem & Hpub & _).
    repeat split; assumption.
Qed.

(** The text that [runDailyReport] sends for publication is the second text
    generated in the invocation, as generated: a publication is requested
    exactly when both generations have succeeded, and its first request
    carries the text of the second. *)
Theorem runDailyReport_posts_generated_report (o : Oracle) (client : Client)
  (flag : bool) (h : list Event) :
  hd_error (pick publish_content
              (trace (exec o (runDailyReport client) flag h)))
  = nth_error (pick generated_text
                 (trace (exec o (runDailyReport client) flag h))) 1.
Proof.
  destruct (runDailyReport_cases o client flag h)
    as [Hnone|(tweetsByUser & flag' & h' & _ & Hsame)].
  - rewrite !Hnone by not_collecting. reflexivity.
  - rewrite !Hsame by not_collecting.
    apply (summarize_and_post_readers o client (report_room client)
             tweetsByUser flag' h').
Qed.

(** The two generations of an invocation are chained: the state of the
    second is composed from the cleaned text of the first, and only when the
    first has succeeded; the first generation uses the analysis template
    and the second the report template. *)
Theorem runDailyReport_generation_chain (o : Oracle) (client : Client)
  (flag : bool) (h : list Event) :
  pick summary_request (trace (exec o (runDailyReport client) flag h))
  = firstn 1 (pick generated_text
                (trace (exec o (runDailyReport client) flag h))) /\
  pick generation_template (trace (exec o (runDailyReport client) flag h))
  = firstn (length (pick generation_template
                      (trace (exec o (runDailyReport client) flag h))))
           [dailyAnalysisTemplate; dailyReportTemplate].
Proof.
  destruct (runDailyReport_cases o client flag h)
    as [Hnone|(tweetsByUser & flag' & h' & _ & Hsame)].
  - rewrite !Hnone by not_collecting. split; reflexivity.
  - rewrite !Hsame by not_collecting.
    destruct (summarize_and_post_readers o client (report_room client)
                tweetsByUser flag' h') as (_ & Hsum & Htem & _).
    split; assumption.
Qed.

(** The analysis that an invocation hands to [composeState] is computed
    from the list that the collection returned in that invocation: its tweet
    count is the length of that list, duplicates included, the additional
    key [twitterCount] carries the same number, its three sentiment counts
    add up to it, it names at most three hashtags, and its most engaged
    tweet is one of maximal engagement in the list.  At most one analysis
    is handed over. *)
Theorem runDailyReport_analysis (o : Oracle) (client : Client)
  (flag : bool) (h : list Event) :
  length (pick analysis_request (trace (exec o (runDailyReport client) flag h)))
  <= 1 /\
  Forall (fun request =>
            exists tweetsByUser keys,
              outcome (exec o (collectTargetUsersTweets client) true h)
              = inr tweetsByUser /\
              snd request = Some keys /\
              totalTweets (fst request) = length tweetsByUser /\
              twitterCount keys = length tweetsByUser /\
              positive (sentiment (fst request))
              + neutral (sentiment (fst request))
              + negative (sentiment (fst request)) = length tweetsByUser /\
              length (topHashtags (fst request)) <= 3 /\
              incl (topHashtags (fst request)) (flat_map hashtags tweetsByUser) /\
              engagement (mostEngagedTweet (fst request))
              = max_engagement tweetsByUser)
         (pick analysis_request (trace (exec o (runDailyReport client) flag h))).
Proof.
  destruct (runDailyReport_cases o client flag h)
    as [Hnone|(tweetsByUser & flag' & h' & Hout & Hsame)].
  - rewrite !Hnone by not_collecting. split; [cbn [length]; lia | constructor].
  - rewrite !Hsame by not_collecting.
    destruct (summarize_and_post_readers o client (report_room client)
                tweetsByUser flag' h') as (_ & _ & _ & _ & _ & _ & ->).
    split; [cbn [length]; lia|]. constructor; [|constructor].
    eexists tweetsByUser, _. cbn [fst snd analyze totalTweets twitterCount
                                    sentiment topHashtags mostEngagedTweet].
    split; [exact Hout|]. split; [reflexivity|]. split; [reflexivity|].
    split; [reflexivity|]. split; [apply analyzeSentiment_total|].
    split; [|split].
    + unfold getTopHashtags. rewrite length_map. apply firstn_le_length.
    + intros tag Htag. unfold getTopHashtags in Htag.
      apply in_map_iff in Htag. destruct Htag as (x & <- & Hx).
      apply sorted_entries_key.
      rewrite <- (firstn_skipn default_limit
                    (Array_sort byCount (Object_entries (hashtagCount tweetsByUser)))).
      apply in_or_app. left. exact Hx.
    + unfold findMostEngagedTweet. rewrite engagement_fold_max.
      unfold engagement at 1. simpl. lia.
Qed.

(** Among overlapping invocations of [runDailyReport], started at any time
    and resumed in any order with any answers, at most one is ever in
    flight: the others have returned at the guard. *)
Theorem runDailyReport_single_flight (client : Client) (s : System) :
  reachable client s -> count_in_flight (invocations s) <= 1.
Proof.
  intros Hs. destruct (reachable_guard client s Hs) as [_ Hcount].
  rewrite Hcount. destruct (isProcessing s); lia.
Qed.

(** ** Further instances *)

(** With a limit of one, of the hashtags AI (twice) and DeFi (once) one is
    returned. *)
Lemma getTopHashtags_top_witness :
  Forall own_tag (flat_map hashtags [tagged ["AI"]; tagged ["AI"; "DeFi"]]) /\
  length (getTopHashtags [tagged ["AI"]; tagged ["AI"; "DeFi"]] 1)
  = Nat.min 1 (length (distinct_tags [tagged ["AI"]; tagged ["AI"; "DeFi"]])) /\
  occurrences [tagged ["AI"]; tagged ["AI"; "DeFi"]] "DeFi"
  <= occurrences [tagged ["AI"]; tagged ["AI"; "DeFi"]] "AI".
Proof.
  split; [exact sample_tags_own|].
  split.
  - exact (proj1 (getTopHashtags_top [tagged ["AI"]; tagged ["AI"; "DeFi"]] 1
                    sample_tags_own)).
  - apply (proj2 (proj2 (getTopHashtags_top [tagged ["AI"]; tagged ["AI"; "DeFi"]]
                           1 sample_tags_own)) "AI" "DeFi").
    + left. reflexivity.
    + right. right. left. reflexivity.
    + intros [H|[]]. discriminate H.
Defined.

(** A word of the positive lexicon in capitals. *)
Lemma analyzeSentiment_case_insensitive_witness :
  text (saying "This is GREAT news") = ("This is " ++ "GREAT" ++ " news")%string /\
  In (toLowerCase "GREAT") positive_lexicon /\
  analyzeSentiment [saying "This is GREAT news"]
  = {| positive := 1; neutral := 0; negative := 0 |}.
Proof.
  split; [reflexivity|]. split; [left; reflexivity|].
  exact (proj1 (analyzeSentiment_case_insensitive
                  (saying "This is GREAT news") [] "This is " "GREAT" " news"
                  eq_refl)
           (or_introl eq_refl)).
Defined.

(** Two accounts: one query for each, in the order of the setting. *)
Lemma collectTargetUsersTweets_queries_witness :
  TWITTER_TARGET_USERS (sample_client (Some ["alice"; "bob"]) 280)
  = Some ["alice"; "bob"] /\
  pick fetch_request
    (trace (exec (scripted (fun _ => inr [fresh]) 1700000000000
                    (inl TypeError) (inl TypeError))
              (collectTargetUsersTweets (sample_client (Some ["alice"; "bob"]) 280))
              false []))
  = [("from:alice", 3); ("from:bob", 3)].
Proof.
  split; [reflexivity|].
  exact (collectTargetUsersTweets_queries
           (scripted (fun _ => inr [fresh]) 1700000000000
              (inl TypeError) (inl TypeError))
           (sample_client (Some ["alice"; "bob"]) 280) false []
           ["alice"; "bob"] eq_refl).
Defined.

(** Two accounts, the fetch of the second fails: one pause. *)
Lemma collectTargetUsersTweets_paces_witness :
  TWITTER_TARGET_USERS (sample_client (Some ["alice"; "bob"]) 280)
  = Some ["alice"; "bob"] /\
  length (filter is_wait
            (trace (exec (scripted
                            (fun query => if (query =? "from:alice")%string
                                          then inr [fresh; stale]
                                          else inl (Rejected "down"))
                            1700000000000 (inl TypeError) (inl TypeError))
                      (collectTargetUsersTweets
                         (sample_client (Some ["alice"; "bob"]) 280))
                      false [])))
  = length (fetched
              (trace (exec (scripted
                              (fun query => if (query =? "from:alice")%string
                                            then inr [fresh; stale]
                                            else inl (Rejected "down"))
                              1700000000000 (inl TypeError) (inl TypeError))
                        (collectTargetUsersTweets
                           (sample_client (Some ["alice"; "bob"]) 280))
                        false []))).
Proof.
  split; [reflexivity|].
  destruct (collectTargetUsersTweets_paces
              (scripted
                 (fun query => if (query =? "from:alice")%string
                               then inr [fresh; stale]
                               else inl (Rejected "down"))
                 1700000000000 (inl TypeError) (inl TypeError))
              (sample_client (Some ["alice"; "bob"]) 280) false []
              ["alice"; "bob"] eq_refl) as (runs & _ & _ & _ & Hwaits).
  exact Hwaits.
Defined.

(** One account with a recent and an old post: between two and four posts
    are returned. *)
Lemma collectTargetUsersTweets_size_witness :
  TWITTER_TARGET_USERS (sample_client (Some ["alice"]) 280) = Some ["alice"] /\
  exists out,
    outcome (exec (scripted (fun _ => inr [fresh; stale]) 1700000000000
                     (inl TypeError) (inl TypeError))
               (collectTargetUsersTweets (sample_client (Some ["alice"]) 280))
               false []) = inr out /\
    length (flat_map fst
              (fetched
                 (trace (exec (scripted (fun _ => inr [fresh; stale])
                                 1700000000000 (inl TypeError) (inl TypeError))
                           (collectTargetUsersTweets
                              (sample_client (Some ["alice"]) 280))
                           false []))))
    <= length out
    <= 2 * length (flat_map fst
                     (fetched
                        (trace (exec (scripted (fun _ => inr [fresh; stale])
                                        1700000000000 (inl TypeError)
                                        (inl TypeError))
                                  (collectTargetUsersTweets
                                     (sample_client (Some ["alice"]) 280))
                                  false [])))).
Proof.
  split; [reflexivity|].
  exact (collectTargetUsersTweets_size
           (scripted (fun _ => inr [fresh; stale]) 1700000000000
              (inl TypeError) (inl TypeError))
           (sample_client (Some ["alice"]) 280) false [] ["alice"] eq_refl).
Defined.

(** A long-form publication that the platform rejects. *)
Lemma handleNoteTweet_wraps_errors_witness :
  outcome (exec (scripted (fun _ => inr []) 0 (inl (Rejected "down"))
                   (inl TypeError))
             (handleNoteTweet (sample_client None 280) "report" None None)
             false [])
  = inl (NoteTweetFailed (Rejected "down")) /\
  exists cause, NoteTweetFailed (Rejected "down") = NoteTweetFailed cause.
Proof.
  split; [reflexivity|].
  exact (handleNoteTweet_wraps_errors
           (scripted (fun _ => inr []) 0 (inl (Rejected "down")) (inl TypeError))
           (sample_client None 280) "report" None None false []
           (NoteTweetFailed (Rejected "down")) eq_refl).
Defined.

(** Two invocations, the second made while the first is suspended, and the
    first then resumed with a fetch that fails. *)
Lemma runDailyReport_single_flight_witness :
  reachable (sample_client (Some ["alice"]) 280)
    (resume (invoke (sample_client (Some ["alice"]) 280)
               (invoke (sample_client (Some ["alice"]) 280) initial))
       0 failing) /\
  count_in_flight
    (invocations
       (resume (invoke (sample_client (Some ["alice"]) 280)
                  (invoke (sample_client (Some ["alice"]) 280) initial))
          0 failing)) <= 1.
Proof.
  assert (H : reachable (sample_client (Some ["alice"]) 280)
                (resume (invoke (sample_client (Some ["alice"]) 280)
                           (invoke (sample_client (Some ["alice"]) 280) initial))
                   0 failing))
    by (repeat constructor).
  split; [exact H|].
  exact (runDailyReport_single_flight _ _ H).
Defined.
